(** * Write reconciliation for a partitioned parquet dataset

    A shallow embedding of [scripts/polars_parquet_reader.py]
    ([PolarsParquetReader]) and of the parts of [scripts/file_system.py]
    it calls, with the properties of the write path proved about it.

    Layout of the development:
    - [pl], dictionaries : the type tree of the table engine and python
                           dictionaries;
    - sanitizer          : [remove_empty_structs];
    - engine             : values, frames, query plans and their evaluation;
    - storage            : paths, the disk and the trace of events;
    - writer             : [check_path_suffix], [scan_parquet],
                           [transform_data_removing_empty_structs],
                           [remove_partitions] and [write_parquet];
    - properties.

    What is modelled and how:
    - [write_parquet] is a computation in a monad of state and exceptions
      over a [world]: the files and directories of the disk and the trace
      of the calls made to the file system and to the engine.  A python
      [try]/[except] is [try_except]; logging is left out.
    - The incoming table is a table in memory ([df.lazy()] of a
      [DataFrame]); the tables read from disk are lazy: a [plan] is run
      against the disk as it is when [collect] is called.
    - The file system is the local one.  For a path that starts with
      [s3://] every method of [FileSystem] hands the call to [s3fs], which
      is not part of the repository.
    - The engine is modelled as far as [write_parquet] calls it.  A cast
      fails when the column is missing or the types are incompatible; a
      join key with a null matches nothing; [unique] keeps the first row of
      each kind; a scan of a path without a parquet file, or with a file
      that is none, raises [ComputeError].  The writer never fails; the
      directory of a partition is named the way [__remove_partitions] names
      it. *)

From Stdlib Require Import List String Ascii ZArith Bool Lia PeanoNat.
From Stdlib Require Import DecimalString.
Import ListNotations.
#[local] Set Warnings "-register-all".
Local Open Scope string_scope.
Local Open Scope list_scope.

(** ** Data types of the table engine *)

Module pl.

(** Primitive column types.  Only their identity matters to the writer. *)
Inductive prim : Type := Int32 | Int64 | Utf8 | Boolean.

(** [pl.List(inner)], [pl.Struct(fields)] and every other data type. *)
Inductive dtype : Type :=
| Prim (kind : prim)
| List (inner : dtype)
| Struct (fields : list (string * dtype)).

Definition prim_eqb (a b : prim) : bool :=
  match a, b with
  | Int32, Int32 | Int64, Int64 | Utf8, Utf8 | Boolean, Boolean => true
  | _, _ => false
  end.

(** [dtype.__eq__]: structural, field order included. *)
Fixpoint dtype_eqb (a b : dtype) {struct a} : bool :=
  match a, b with
  | Prim k, Prim k' => prim_eqb k k'
  | List i, List i' => dtype_eqb i i'
  | Struct fs, Struct fs' =>
      (fix fields_eqb (l : list (string * dtype)) (l' : list (string * dtype))
         {struct l} : bool :=
         match l, l' with
         | [], [] => true
         | (n, t) :: r, (n', t') :: r' =>
             String.eqb n n' && dtype_eqb t t' && fields_eqb r r'
         | _, _ => false
         end) fs fs'
  | _, _ => false
  end.

End pl.

Abbreviation dtype := pl.dtype.

(** A schema, and the field list of a struct: names with their types,
    in order. *)
Abbreviation fields := (list (string * dtype)).

(** ** Python dictionaries

    A [dict] keeps its keys in insertion order; assigning to a key that is
    already present replaces the value where the key stands. *)

Fixpoint dict_set {V : Type} (k : string) (v : V) (d : list (string * V))
  : list (string * V) :=
  match d with
  | [] => [(k, v)]
  | (k', v') :: rest =>
      if String.eqb k' k then (k, v) :: rest
      else (k', v') :: dict_set k v rest
  end.

Fixpoint dict_get {V : Type} (k : string) (d : list (string * V)) : option V :=
  match d with
  | [] => None
  | (k', v) :: rest => if String.eqb k' k then Some v else dict_get k rest
  end.

Definition dict_mem {V : Type} (k : string) (d : list (string * V)) : bool :=
  match dict_get k d with Some _ => true | None => false end.

Definition keys {V : Type} (d : list (string * V)) : list string := map fst d.

(** ** The schema sanitizer: [__remove_empty_structs] *)

(** The python function returns [(new_schema, is_empty)], with [None] for
    the schema of an empty type.  The loop over [schema.fields] threads
    [new_fields] and [all_empty]. *)
Fixpoint remove_empty_structs (schema : dtype) : option dtype * bool :=
  match schema with
  | pl.List inner =>
      let '(inner_schema, inner_empty) := remove_empty_structs inner in
      if inner_empty then (None, true)
      else (option_map pl.List inner_schema, false)
  | pl.Struct fs =>
      match fs with
      | [] => (None, true)
      | _ :: _ =>
          let '(new_fields, all_empty) :=
            (fix loop (l : fields) (acc : fields * bool) {struct l}
               : fields * bool :=
               match l with
               | [] => acc
               | (field_name, field_type) :: rest =>
                   let '(new_field_type, is_empty) :=
                     remove_empty_structs field_type in
                   loop rest
                     (if is_empty then acc
                      else match new_field_type with
                           | Some t => (dict_set field_name t (fst acc), false)
                           | None => (fst acc, false)
                           end)
               end) fs ([], true) in
          if all_empty then (None, true)
          else (Some (pl.Struct new_fields), false)
      end
  | pl.Prim _ => (Some schema, false)
  end.

(** *** The loop of the struct case, named

    [fields_loop] is the [for field in schema.fields] loop on its own, so
    that it can be reasoned about by induction on the fields. *)

Definition fields_step (acc : fields * bool) (f : string * dtype)
  : fields * bool :=
  let '(new_field_type, is_empty) := remove_empty_structs (snd f) in
  if is_empty then acc
  else match new_field_type with
       | Some t => (dict_set (fst f) t (fst acc), false)
       | None => (fst acc, false)
       end.

Definition fields_loop (l : fields) (acc : fields * bool) : fields * bool :=
  fold_left fields_step l acc.

(** The flag of the result. *)
Definition is_empty (t : dtype) : bool := snd (remove_empty_structs t).

(** The fields the prose of the design keeps: those whose sanitized type
    is not empty, each with its sanitized type, in their original order. *)
Definition retained (fs : fields) : fields :=
  flat_map (fun f => match remove_empty_structs (snd f) with
                     | (Some t, false) => [(fst f, t)]
                     | _ => []
                     end) fs.


(** [new_fields[field_name] = new_field_type] for a run of fields. *)
Definition assign_all (l : fields) (d : fields) : fields :=
  fold_left (fun d f => dict_set (fst f) (snd f) d) l d.


(** The field names of a struct are distinct: a struct is a mapping from
    field names to types. *)
Definition unique_names (t : dtype) : Prop :=
  match t with
  | pl.Struct fs => NoDup (keys fs)
  | _ => True
  end.

(** A type the sanitizer leaves as it is. *)
Definition sanitized (t : dtype) : Prop :=
  remove_empty_structs t = (Some t, false).

(** ** The table engine

    The engine (polars, with pyarrow as its parquet writer) is not part of
    the repository.  What follows is the model of it that the writer is
    run against: cell values, frames, lazy query plans and the operations
    [write_parquet] calls.  Casts are decided on types: converting a value
    never fails once the types are compatible. *)

(** Cell values; [VNull] is the engine's null ([None] in python). *)
Inductive value : Type :=
| VNull
| VInt (z : Z)
| VStr (s : string)
| VBool (b : bool)
| VList (items : list value)
| VStruct (items : list (string * value)).

Fixpoint value_eqb (a b : value) {struct a} : bool :=
  match a, b with
  | VNull, VNull => true
  | VInt x, VInt y => Z.eqb x y
  | VStr x, VStr y => String.eqb x y
  | VBool x, VBool y => Bool.eqb x y
  | VList l, VList l' =>
      (fix items_eqb (l l' : list value) {struct l} : bool :=
         match l, l' with
         | [], [] => true
         | x :: r, x' :: r' => value_eqb x x' && items_eqb r r'
         | _, _ => false
         end) l l'
  | VStruct l, VStruct l' =>
      (fix items_eqb (l l' : list (string * value)) {struct l} : bool :=
         match l, l' with
         | [], [] => true
         | (n, x) :: r, (n', x') :: r' =>
             String.eqb n n' && value_eqb x x' && items_eqb r r'
         | _, _ => false
         end) l l'
  | _, _ => false
  end.

(** A row is a tuple of cells, one per column of the schema. *)
Abbreviation row := (list value).

Fixpoint row_eqb (a b : row) : bool :=
  match a, b with
  | [], [] => true
  | x :: r, y :: r' => value_eqb x y && row_eqb r r'
  | _, _ => false
  end.

(** [pl.DataFrame]: a schema and the rows under it. *)
Record frame : Type := Frame { schema : fields; rows : list row }.

(** Equality of schemas ([Schema.__eq__]): same columns, same order, same
    types. *)
Fixpoint schema_eqb (a b : fields) : bool :=
  match a, b with
  | [], [] => true
  | (n, t) :: r, (n', t') :: r' =>
      String.eqb n n' && pl.dtype_eqb t t' && schema_eqb r r'
  | _, _ => false
  end.

(** *** Exceptions *)

Inductive exn : Type :=
| ComputeError            (* polars.exceptions.ComputeError *)
| ColumnNotFoundError     (* polars.exceptions.ColumnNotFoundError *)
| InvalidOperationError   (* polars.exceptions.InvalidOperationError *)
| SchemaError             (* polars.exceptions.SchemaError *)
| ValueError (msg : string)
| FileNotFoundError
| FileExistsError.

Inductive result (A : Type) : Type :=
| Ok (a : A)
| Err (e : exn).
Arguments Ok {A} a.
Arguments Err {A} e.

Definition rbind {A B : Type} (r : result A) (f : A -> result B) : result B :=
  match r with
  | Ok a => f a
  | Err e => Err e
  end.

(** *** Columns by name *)

(** Position of a column in a schema. *)
Fixpoint col_index (s : fields) (c : string) : option nat :=
  match s with
  | [] => None
  | (n, _) :: rest =>
      if String.eqb n c then Some 0%nat
      else option_map S (col_index rest c)
  end.

(** The cell of column [c] in a row laid out along [s]; null when the
    column is not there. *)
Definition cell (s : fields) (r : row) (c : string) : value :=
  match col_index s c with
  | Some i => nth i r VNull
  | None => VNull
  end.

Definition has_columns (s : fields) (cols : list string) : bool :=
  forallb (fun c => dict_mem c s) cols.

(** The cells of a row at the given columns. *)
Definition project (s : fields) (cols : list string) (r : row) : row :=
  map (cell s r) cols.

(** *** Casts *)

(** Which casts the engine accepts, by type. *)
Fixpoint castable (src dst : dtype) : bool :=
  match src, dst with
  | pl.Prim _, pl.Prim _ => true
  | pl.List a, pl.List b => castable a b
  | pl.Struct _, pl.Struct _ => true
  | _, _ => false
  end.

Definition lookup_item (n : string) (items : list (string * value)) : value :=
  match dict_get n items with Some v => v | None => VNull end.

(** The value of a cast.  A struct keeps the fields of the target type, by
    name; a list is cast item by item; primitives keep their value. *)
Fixpoint cast_value (dst : dtype) (v : value) {struct dst} : value :=
  match dst, v with
  | pl.List t, VList items => VList (map (cast_value t) items)
  | pl.Struct fs, VStruct items =>
      VStruct
        ((fix cast_fields (l : fields) : list (string * value) :=
            match l with
            | [] => []
            | (n, t) :: rest =>
                (n, cast_value t (lookup_item n items)) :: cast_fields rest
            end) fs)
  | _, _ => v
  end.

(** Replace the item at a position. *)
Fixpoint set_nth {A : Type} (i : nat) (x : A) (l : list A) : list A :=
  match l, i with
  | [], _ => []
  | _ :: r, O => x :: r
  | y :: r, S j => y :: set_nth j x r
  end.

(** [with_columns(pl.col(name).cast(dtype))] for one column. *)
Definition cast_column (df : frame) (name : string) (t : dtype)
  : result frame :=
  match col_index (schema df) name with
  | None => Err ColumnNotFoundError
  | Some i =>
      match nth_error (schema df) i with
      | None => Err ColumnNotFoundError
      | Some (_, src) =>
          if castable src t then
            Ok (Frame (set_nth i (name, t) (schema df))
                      (map (fun r => set_nth i (cast_value t (nth i r VNull)) r)
                           (rows df)))
          else Err InvalidOperationError
      end
  end.

(** [with_columns([pl.col(name).cast(dtype) for name, dtype in casts])]:
    each expression replaces the column it reads, so the casts can be
    applied one after the other. *)
Fixpoint cast_columns (df : frame) (casts : fields) : result frame :=
  match casts with
  | [] => Ok df
  | (name, t) :: rest => rbind (cast_column df name t)
                               (fun df' => cast_columns df' rest)
  end.

(** *** Relational operations *)

Definition type_of (s : fields) (c : string) : dtype :=
  match dict_get c s with Some t => t | None => pl.Prim pl.Utf8 end.

(** [df.select(cols)]. *)
Definition select (df : frame) (cols : list string) : result frame :=
  if has_columns (schema df) cols then
    Ok (Frame (map (fun c => (c, type_of (schema df) c)) cols)
              (map (project (schema df) cols) (rows df)))
  else Err ColumnNotFoundError.

(** [df.unique()]: one row of each kind, the first of its kind kept. *)
Fixpoint nodup_rows (l : list row) : list row :=
  match l with
  | [] => []
  | r :: rest => r :: filter (fun r' => negb (row_eqb r r')) (nodup_rows rest)
  end.

Definition unique (df : frame) : frame :=
  Frame (schema df) (nodup_rows (rows df)).

Definition is_null (v : value) : bool :=
  match v with VNull => true | _ => false end.

(** Join keys match when they are equal and hold no null. *)
Definition key_match (k k' : row) : bool :=
  forallb (fun v => negb (is_null v)) k && row_eqb k k'.

Inductive how : Type := Inner | Anti.

(** The columns an inner join adds from its right side: those that are
    not join keys, renamed when the left side has the name already. *)
Definition right_columns (ls rs : fields) (on : list string) : fields :=
  map (fun f => (if dict_mem (fst f) ls then (fst f ++ "_right")%string
                  else fst f,
                 snd f))
      (filter (fun f => negb (existsb (String.eqb (fst f)) on)) rs).

Definition right_cells (rs : fields) (on : list string) (r : row) : row :=
  project rs
    (keys (filter (fun f => negb (existsb (String.eqb (fst f)) on)) rs)) r.

(** [left.join(right, on=on, how=how)]. *)
Definition join (l r : frame) (on : list string) (h : how) : result frame :=
  if has_columns (schema l) on && has_columns (schema r) on then
    let matches (x : row) : list row :=
      filter (fun y => key_match (project (schema l) on x)
                                 (project (schema r) on y)) (rows r) in
    match h with
    | Inner =>
        Ok (Frame (schema l ++ right_columns (schema l) (schema r) on)
                  (flat_map
                     (fun x => map (fun y => x ++ right_cells (schema r) on y)
                                   (matches x))
                     (rows l)))
    | Anti =>
        Ok (Frame (schema l)
                  (filter (fun x => match matches x with
                                    | [] => true
                                    | _ :: _ => false
                                    end) (rows l)))
    end
  else Err ColumnNotFoundError.

(** The common type of two columns of one name; the one widening is from
    [Int32] to [Int64]. *)
Definition supertype (a b : dtype) : option dtype :=
  if pl.dtype_eqb a b then Some a
  else match a, b with
       | pl.Prim pl.Int32, pl.Prim pl.Int64
       | pl.Prim pl.Int64, pl.Prim pl.Int32 => Some (pl.Prim pl.Int64)
       | _, _ => None
       end.

(** The schema of a union by name: the columns of the first table, then
    those only the second has. *)
Fixpoint union_schema (a b : fields) : result fields :=
  match b with
  | [] => Ok a
  | (n, t) :: rest =>
      match dict_get n a with
      | None => union_schema (a ++ [(n, t)]) rest
      | Some t' =>
          match supertype t' t with
          | Some u => union_schema (dict_set n u a) rest
          | None => Err SchemaError
          end
      end
  end.

(** A row laid out along [src], laid out again along [dst]: cells are
    found by name, a missing column gives null. *)
Definition relayout (src dst : fields) (r : row) : row :=
  map (fun f => cast_value (snd f) (cell src r (fst f))) dst.

(** [pl.concat([a, b], how="diagonal_relaxed")]. *)
Definition concat (a b : frame) : result frame :=
  rbind (union_schema (schema a) (schema b))
        (fun u => Ok (Frame u (map (relayout (schema a) u) (rows a) ++
                               map (relayout (schema b) u) (rows b)))).

(** *** Lazy frames *)

(** [pl.LazyFrame]: a query plan, run by [collect]. *)
Inductive plan : Type :=
| Lazy (df : frame)                                    (* df.lazy() *)
| ScanParquet (source : string)                        (* pl.scan_parquet *)
| WithColumns (p : plan) (casts : fields)              (* casts of columns *)
| Select (p : plan) (cols : list string)
| Unique (p : plan)
| Join (left right : plan) (on : list string) (h : how)
| Concat (a b : plan).                                 (* diagonal_relaxed *)

(** The datasets a plan reads when it runs, in order. *)
Fixpoint sources (p : plan) : list string :=
  match p with
  | Lazy _ => []
  | ScanParquet s => [s]
  | WithColumns p _ | Select p _ | Unique p => sources p
  | Join l r _ _ => sources l ++ sources r
  | Concat a b => sources a ++ sources b
  end.

(** ** Storage

    [FileSystem] on a local disk.  The disk is a table of parquet files by
    path and a list of the directories that exist; both are kept under
    normalised paths, the way [pathlib] and the operating system read a
    path: a run of slashes counts as one and a trailing slash is dropped. *)

Definition is_slash (c : ascii) : bool := Ascii.eqb c "/"%char.

Fixpoint collapse (s : string) : string :=
  match s with
  | EmptyString => EmptyString
  | String c r =>
      match r with
      | EmptyString => s
      | String c' _ =>
          if is_slash c && is_slash c' then collapse r
          else String c (collapse r)
      end
  end.

Fixpoint strip_trailing (s : string) : string :=
  match s with
  | EmptyString => EmptyString
  | String c r =>
      match strip_trailing r with
      | EmptyString => if is_slash c then EmptyString else String c EmptyString
      | r' => String c r'
      end
  end.

(** [str(Path(p))]. *)
Definition norm (p : string) : string :=
  match strip_trailing (collapse p) with
  | EmptyString => match p with EmptyString => "." | _ => "/" end
  | q => q
  end.

(** The text before the last slash, when there is a slash. *)
Fixpoint before_last_slash (s : string) : option string :=
  match s with
  | EmptyString => None
  | String c r =>
      match before_last_slash r with
      | Some d => Some (String c d)
      | None => if is_slash c then Some EmptyString else None
      end
  end.

(** [str(Path(p).parent)]. *)
Definition pathlib_parent (p : string) : string :=
  match before_last_slash (norm p) with
  | None => "."
  | Some EmptyString => "/"
  | Some d => d
  end.

(** [os.path.dirname(p)]: the head up to the last slash, without its
    trailing slashes unless it is made of slashes only. *)
Definition os_path_dirname (p : string) : string :=
  match before_last_slash p with
  | None => ""
  | Some d =>
      match strip_trailing d with
      | EmptyString => (d ++ "/")%string
      | h => h
      end
  end.

Definition ends_with_slash (p : string) : bool :=
  match before_last_slash p with
  | Some d => String.eqb p (d ++ "/")
  | None => false
  end.

(** [f] is the path [dir] or lies below it. *)
Definition under (dir f : string) : bool :=
  String.eqb f (norm dir) || String.prefix (norm dir ++ "/") f.

Fixpoint strip_prefix (p s : string) : option string :=
  match p, s with
  | EmptyString, _ => Some s
  | String a p', String b s' =>
      if Ascii.eqb a b then strip_prefix p' s' else None
  | String _ _, EmptyString => None
  end.

(** The name of [e] inside the directory [dir], when [e] is an entry of
    that directory. *)
Definition child_name (dir e : string) : option string :=
  match strip_prefix (norm dir ++ "/") e with
  | Some name =>
      match before_last_slash name with
      | None => Some name
      | Some _ => None
      end
  | None => None
  end.

(** A file of the disk holds a table, or bytes that are no parquet file. *)
Inductive file : Type :=
| Parquet (df : frame)
| Garbage.

(** What a call does to the outside, in the order it does it. *)
Inductive event : Type :=
| EvExists (p : string)        (* FileSystem.exists *)
| EvIsDir (p : string)         (* Path.is_dir, in FileSystem.getdir *)
| EvListDir (p : string)       (* FileSystem.listdir *)
| EvMkdir (p : string)         (* FileSystem.mkdir *)
| EvRemoveDir (p : string)     (* FileSystem.remove_dir *)
| EvReadSchema (p : string)    (* the engine reads the schema of a dataset *)
| EvReadRows (p : string)      (* the engine reads the rows of a dataset *)
| EvWrite (p : string) (df : frame) (compression : string)
          (partition_cols : list string).   (* DataFrame.write_parquet *)

Record world : Type := World {
  files : list (string * file);
  dirs : list string;
  fresh : nat;                  (* names the files the writer creates *)
  trace : list event
}.

Definition is_file (w : world) (p : string) : bool := dict_mem (norm p) (files w).
Definition is_dir (w : world) (p : string) : bool :=
  existsb (String.eqb (norm p)) (dirs w).

(** The world with more events on its trace. *)
Definition logs (evs : list event) (w : world) : world :=
  World (files w) (dirs w) (fresh w) (trace w ++ evs).

Definition log (ev : event) (w : world) : world := logs [ev] w.

(** [os.path.exists]. *)
Definition exists_b (w : world) (p : string) : bool :=
  is_file w p || is_dir w p.

(** The disk without [p] and all below it. *)
Definition remove_tree (p : string) (w : world) : world :=
  World (filter (fun e => negb (under p (fst e))) (files w))
        (filter (fun d => negb (under p d)) (dirs w))
        (fresh w) (trace w).

(** *** Reading a dataset *)

Definition compatible (first s : fields) : bool :=
  forallb (fun f => match dict_get (fst f) first with
                    | Some t => pl.dtype_eqb (snd f) t
                    | None => false
                    end) s.

(** The frames of the files of a dataset, if all of them are parquet. *)
Fixpoint frames_of (l : list (string * file)) : option (list frame) :=
  match l with
  | [] => Some []
  | (_, Parquet df) :: rest => option_map (cons df) (frames_of rest)
  | (_, Garbage) :: _ => None
  end.

(** [pl.scan_parquet(source, allow_missing_columns=True)], collected: the
    rows of every file at or below [source].  The first file gives the
    schema; a column another file lacks is null there.  No file at all, or
    a file that is no parquet file, is a [ComputeError]. *)
Definition read_dataset (fs : list (string * file)) (source : string)
  : result frame :=
  match frames_of (filter (fun e => under source (fst e)) fs) with
  | None | Some [] => Err ComputeError
  | Some (first :: others) =>
      if forallb (fun df => compatible (schema first) (schema df)) others then
        Ok (Frame (schema first)
                  (rows first ++
                   flat_map (fun df => map (relayout (schema df) (schema first))
                                           (rows df))
                            others))
      else Err SchemaError
  end.

(** Running a plan against the files of the disk. *)
Fixpoint eval (fs : list (string * file)) (p : plan) : result frame :=
  match p with
  | Lazy df => Ok df
  | ScanParquet s => read_dataset fs s
  | WithColumns p casts => rbind (eval fs p) (fun df => cast_columns df casts)
  | Select p cols => rbind (eval fs p) (fun df => select df cols)
  | Unique p => rbind (eval fs p) (fun df => Ok (unique df))
  | Join l r on h =>
      rbind (eval fs l) (fun a => rbind (eval fs r) (fun b => join a b on h))
  | Concat a b =>
      rbind (eval fs a) (fun x => rbind (eval fs b) (fun y => concat x y))
  end.

(** ** The monad of the writer

    A computation runs on the world and returns a value or raises; the
    world it leaves behind holds the trace up to that point either way. *)

Definition M (A : Type) : Type := world -> result A * world.

Definition ret {A : Type} (a : A) : M A := fun w => (Ok a, w).

Definition bind {A B : Type} (m : M A) (f : A -> M B) : M B :=
  fun w => match m w with
           | (Ok a, w') => f a w'
           | (Err e, w') => (Err e, w')
           end.

Definition raise {A : Type} (e : exn) : M A := fun w => (Err e, w).

(** [try: m  except ...: handler]. *)
Definition try_except {A : Type} (m : M A) (handler : exn -> M A) : M A :=
  fun w => match m w with
           | (Ok a, w') => (Ok a, w')
           | (Err e, w') => handler e w'
           end.

(** A call into the engine that raises what the engine raises. *)
Definition lift {A : Type} (r : result A) : M A := fun w => (r, w).

Definition emit (ev : event) : M unit := fun w => (Ok tt, log ev w).

Declare Scope writer_scope.
Delimit Scope writer_scope with writer.
Notation "x <- m ;; k" := (bind m (fun x => k))
  (at level 100, m at next level, right associativity) : writer_scope.
Notation "m ;;; k" := (bind m (fun _ => k))
  (at level 100, right associativity) : writer_scope.
Local Open Scope writer_scope.

Fixpoint emit_all (evs : list event) : M unit :=
  match evs with
  | [] => ret tt
  | ev :: rest => emit ev ;;; emit_all rest
  end.

(** *** [FileSystem] *)

Definition S3_PREFIX : string := "s3://".

(** [FileSystem.exists], on a local path: [os.path.exists]. *)
Definition fs_exists (file_path : string) : M bool :=
  emit (EvExists file_path) ;;;
  fun w => (Ok (exists_b w file_path), w).

(** [FileSystem.getdir]: the path itself when it is a directory, its
    parent otherwise. *)
Definition getdir (w : world) (file_path : string) : string :=
  if is_dir w file_path then norm file_path else pathlib_parent file_path.

Definition fs_getdir (file_path : string) : M string :=
  emit (EvIsDir file_path) ;;;
  fun w => (Ok (getdir w file_path), w).

Definition entries (w : world) : list string := keys (files w) ++ dirs w.

Fixpoint children (dir : string) (l : list string) : list string :=
  match l with
  | [] => []
  | e :: rest =>
      match child_name dir e with
      | Some name => name :: children dir rest
      | None => children dir rest
      end
  end.

(** [FileSystem.listdir], on a local path: nothing for a file,
    [os.listdir] otherwise. *)
Definition listdir (w : world) (file_path : string) : result (list string) :=
  if is_file w file_path then Ok []
  else if is_dir w file_path then Ok (children file_path (entries w))
       else Err FileNotFoundError.

Definition fs_listdir (file_path : string) : M (list string) :=
  emit (EvListDir file_path) ;;;
  fun w => (listdir w file_path, w).

(** [FileSystem.mkdir], on a local path: [os.mkdir] of the directory
    name of the path given. *)
Definition fs_mkdir (file_path : string) : M unit :=
  emit (EvMkdir file_path) ;;;
  let dir_name := os_path_dirname file_path in
  fun w =>
    if exists_b w dir_name then (Err FileExistsError, w)
    else if String.eqb dir_name "" || negb (is_dir w (pathlib_parent dir_name))
         then (Err FileNotFoundError, w)
         else (Ok tt, World (files w) (dirs w ++ [norm dir_name])
                            (fresh w) (trace w)).

(** [FileSystem.remove_dir], on a local path: the path and all below it
    is removed; a path that does not exist is left alone. *)
Definition fs_remove_dir (file_path : string) : M unit :=
  emit (EvRemoveDir file_path) ;;;
  fun w => (Ok tt, remove_tree file_path w).

(** *** The engine, called on the world *)

(** [LazyFrame.collect_schema()]. *)
Definition collect_schema (p : plan) : M fields :=
  emit_all (map EvReadSchema (sources p)) ;;;
  fun w => (rbind (eval (files w) p) (fun df => Ok (schema df)), w).

(** [LazyFrame.collect()]. *)
Definition collect (p : plan) : M frame :=
  emit_all (map EvReadRows (sources p)) ;;;
  fun w => (eval (files w) p, w).

(** *** Formatting values: [str] in an f-string *)

Definition str_of_Z (z : Z) : string := NilZero.string_of_int (Z.to_int z).

Definition quoted (s : string) : string := ("'" ++ s ++ "'")%string.

(** [repr(v)]; quotes inside a string are not escaped. *)
Fixpoint py_repr (v : value) : string :=
  match v with
  | VNull => "None"
  | VInt z => str_of_Z z
  | VStr s => quoted s
  | VBool true => "True"
  | VBool false => "False"
  | VList items =>
      ("[" ++ String.concat ", " (map py_repr items) ++ "]")%string
  | VStruct items =>
      ("{" ++ String.concat ", "
         ((fix reprs (l : list (string * value)) : list string :=
             match l with
             | [] => []
             | (n, x) :: rest =>
                 (quoted n ++ ": " ++ py_repr x)%string :: reprs rest
             end) items) ++ "}")%string
  end.

Definition py_str (v : value) : string :=
  match v with
  | VStr s => s
  | _ => py_repr v
  end.

Fixpoint enumerate_from {A : Type} (i : nat) (l : list A) : list (nat * A) :=
  match l with
  | [] => []
  | x :: rest => (i, x) :: enumerate_from (S i) rest
  end.

Definition enumerate {A : Type} (l : list A) : list (nat * A) :=
  enumerate_from 0 l.

(** ** The partition path resolver

    [f"{path}/" + "/".join([f"{col}={partition[index]}"
                            for index, col in enumerate(partition_cols)])] *)
Definition partition_path (path : string) (partition_cols : list string)
  (partition : row) : string :=
  ((path ++ "/") ++
   String.concat "/"
     (map (fun ic => (snd ic ++ "=" ++ py_str (nth (fst ic) partition VNull)))
          (enumerate partition_cols)))%string.

(** *** The parquet writer

    [DataFrame.write_parquet(path, use_pyarrow=True, ...)].  Without
    partition columns the table becomes the one file at [path].  With
    them, each combination of their values gets a new file in its own
    directory, named as [partition_path] names it; a file keeps the whole
    rows, as a scan of the dataset gives them back. *)

Definition fresh_name (n : nat) : string :=
  ("part-" ++ NilZero.string_of_uint (Nat.to_uint n) ++ ".parquet")%string.

Definition add_dir (d : string) (ds : list string) : list string :=
  if existsb (String.eqb d) ds then ds else ds ++ [d].

(** The directories from the dataset down to the directory of a
    partition. *)
Definition partition_dirs (path : string) (partition_cols : list string)
  (partition : row) : list string :=
  norm path ::
  map (fun j => norm (partition_path path (firstn j partition_cols) partition))
      (seq 1 (List.length partition_cols)).

Definition write_partition (df : frame) (path : string)
  (partition_cols : list string) (w : world) (partition : row) : world :=
  let dir := norm (partition_path path partition_cols partition) in
  let part :=
    Frame (schema df)
          (filter (fun r => row_eqb (project (schema df) partition_cols r)
                                    partition) (rows df)) in
  World (dict_set (dir ++ "/" ++ fresh_name (fresh w))%string (Parquet part)
                  (files w))
        (fold_left (fun ds d => add_dir d ds)
                   (partition_dirs path partition_cols partition) (dirs w))
        (S (fresh w)) (trace w).

Definition write_dataset (df : frame) (path : string)
  (partition_cols : list string) (w : world) : world :=
  match partition_cols with
  | [] => World (dict_set (norm path) (Parquet df) (files w))
                (dirs w) (fresh w) (trace w)
  | _ :: _ =>
      fold_left (write_partition df path partition_cols)
                (nodup_rows (map (project (schema df) partition_cols)
                                 (rows df)))
                w
  end.

Definition df_write_parquet (df : frame) (path : string)
  (compression : string) (partition_cols : list string) : M unit :=
  emit (EvWrite path df compression partition_cols) ;;;
  fun w => (Ok tt, write_dataset df path partition_cols w).

(** ** [PolarsParquetReader] *)

Fixpoint remove_first (x : string) (l : list string) : list string :=
  match l with
  | [] => []
  | y :: rest => if String.eqb y x then rest else y :: remove_first x rest
  end.

Definition contains (needle s : string) : bool :=
  match String.index 0 needle s with Some _ => true | None => false end.

Definition drop_prefix_length (p s : string) : string :=
  String.substring (String.length p) (String.length s - String.length p) s.

(** [__check_path_suffix]: a path that names a directory with entries is
    given a trailing slash. *)
Definition check_path_suffix (path : string) : M string :=
  let is_s3_path := contains S3_PREFIX path in
  if negb (ends_with_slash path) then
    files <- fs_listdir path ;;
    let own := drop_prefix_length S3_PREFIX path in
    let files :=
      if is_s3_path && existsb (String.eqb own) files
      then remove_first own files else files in
    ret (if (0 <? List.length files)%nat then (path ++ "/")%string else path)
  else ret path.

(** The path [__check_path_suffix] gives back on a world. *)
Definition path_suffix (w : world) (path : string) : string :=
  match fst (check_path_suffix path w) with
  | Ok s => s
  | Err _ => path
  end.

(** The events of [__check_path_suffix]. *)
Definition listing (path : string) : list event :=
  if ends_with_slash path then [] else [EvListDir path].

(** [scan_parquet], without cloud credentials. *)
Definition scan_parquet (path : string) : M plan :=
  path_suffix <- check_path_suffix path ;;
  ret (ScanParquet path_suffix).

(** The first loop of [__transform_data_removing_empty_structs]: the new
    types by column, and the columns to cast. *)
Definition analyse_step (acc : fields * list string) (c : string * dtype)
  : fields * list string :=
  let '(new_type, is_empty) := remove_empty_structs (snd c) in
  if is_empty then acc                       (* continue *)
  else match new_type with
       | Some t =>
           if negb (pl.dtype_eqb t (snd c))
           then (dict_set (fst c) t (fst acc), snd acc ++ [fst c])
           else acc
       | None => acc
       end.

(** The second loop: one cast per column to transform. *)
Definition apply_step (new_schema : fields) (df : plan) (column : string)
  : plan :=
  WithColumns df [(column, type_of new_schema column)].

(** [__transform_data_removing_empty_structs]. *)
Definition transform_data_removing_empty_structs (df : plan) : M plan :=
  s <- collect_schema df ;;
  let '(new_schema, columns_to_transform) :=
    fold_left analyse_step s ([], []) in
  ret (fold_left (apply_step new_schema) columns_to_transform df).

(** [__remove_partitions]. *)
Fixpoint remove_partitions (path : string) (partition_cols : list string)
  (partitions_affected : list row) : M unit :=
  match partitions_affected with
  | [] => ret tt
  | partition :: rest =>
      let partition_path := partition_path path partition_cols partition in
      present <- fs_exists partition_path ;;
      (if present then fs_remove_dir partition_path else ret tt) ;;;
      remove_partitions path partition_cols rest
  end.

(** The values of [overwrite_level]: ['partition'] and ['full']. *)
Inductive level : Type := Partition | Full.

(** [x and len(x) > 0] for an optional list. *)
Definition given {A : Type} (x : option (list A)) : bool :=
  match x with
  | Some (_ :: _) => true
  | _ => false
  end.

Definition cols_of (x : option (list string)) : list string :=
  match x with Some l => l | None => [] end.

(** The [try] block that probes the target, with its handler. *)
Definition probe_existing (path : string) : M bool :=
  try_except
    (present <- fs_exists path ;;
     has_existing_data <-
       (if present then
          test_if_exists <- (s <- scan_parquet path ;; collect_schema s) ;;
          ret true
        else ret false) ;;
     currentDir <- fs_getdir path ;;
     dir_present <- fs_exists currentDir ;;
     (if negb dir_present then fs_mkdir currentDir else ret tt) ;;;
     ret has_existing_data)
    (fun e => match e with
              | ComputeError => fs_remove_dir path ;;; ret false
              | _ => raise e
              end).

(** The [try] block that adjusts the incoming table to the schema on
    disk; it gives the table to go on with and [schemas_match]. *)
Definition adjust_schema (lazy_df : plan) (df_existing_schema : fields)
  (new_df_schema : fields) : M (plan * bool) :=
  let schemas_match := schema_eqb df_existing_schema new_df_schema in
  try_except
    (if negb schemas_match then
       let adjusted_df := WithColumns lazy_df df_existing_schema in
       new_df_schema <- collect_schema adjusted_df ;;
       ret (adjusted_df, schema_eqb df_existing_schema new_df_schema)
     else ret (lazy_df, schema_eqb df_existing_schema new_df_schema))
    (fun _ =>
       new_df_schema <- collect_schema lazy_df ;;
       ret (lazy_df, schemas_match)).

(** The branches on [overwrite_level] and [upsert_key]; [df_to_write] is
    the table bound before the schemas were compared. *)
Definition dispatch (df_to_write lazy_df df_existing : plan)
  (schemas_match : bool) (path : string) (upsert_key : option (list string))
  (partition_cols : option (list string)) (overwrite_level : option level)
  : M plan :=
  match overwrite_level with
  | Some Full =>
      fs_remove_dir path ;;;
      ret lazy_df
  | Some Partition =>
      if negb (given partition_cols) then
        raise (ValueError
          "Partition Cols are Empty though Overwrite level was set to Partition")
      else
        let partitions_affected_df :=
          Unique (Select lazy_df (cols_of partition_cols)) in
        affected <- collect partitions_affected_df ;;
        let partitions_affected := rows affected in
        remove_partitions path (cols_of partition_cols) partitions_affected ;;;
        df_existing <- scan_parquet path ;;
        if negb schemas_match then
          both <- collect (Concat lazy_df df_existing) ;;
          fs_remove_dir path ;;;
          ret (Lazy both)
        else ret lazy_df
  | None =>
      if given upsert_key then
        if given partition_cols && schemas_match then
          let partitions_affected_df :=
            Unique (Select lazy_df (cols_of partition_cols)) in
          affected <- collect partitions_affected_df ;;
          let partitions_affected := rows affected in
          affected_df <-
            collect (Join (Join df_existing partitions_affected_df
                                (cols_of partition_cols) Inner)
                          lazy_df (cols_of upsert_key) Anti) ;;
          remove_partitions path (cols_of partition_cols)
                            partitions_affected ;;;
          ret (Concat lazy_df (Lazy affected_df))
        else
          both <-
            collect (Concat lazy_df
                            (Join df_existing lazy_df (cols_of upsert_key)
                                  Anti)) ;;
          fs_remove_dir path ;;;
          ret (Lazy both)
      else ret df_to_write
  end.

(** The lines run when there is data at the target: the schemas are
    compared, the incoming table adjusted and the branch taken. *)
Definition reconcile (df_to_write lazy_df : plan) (path : string)
  (upsert_key : option (list string)) (partition_cols : option (list string))
  (overwrite_level : option level) : M plan :=
  df_existing <- scan_parquet path ;;
  df_existing_schema <- collect_schema df_existing ;;
  new_df_schema <- collect_schema lazy_df ;;
  adjusted <- adjust_schema lazy_df df_existing_schema new_df_schema ;;
  let '(lazy_df, schemas_match) := adjusted in
  dispatch df_to_write lazy_df df_existing schemas_match path
           upsert_key partition_cols overwrite_level.

(** The last lines: empty structs are stripped, the table is collected
    and written. *)
Definition materialize (df_to_write : plan) (path : string)
  (compression_method : string) (partition_cols : option (list string))
  : M unit :=
  transformed_df <- transform_data_removing_empty_structs df_to_write ;;
  df_to_write <- collect transformed_df ;;
  df_write_parquet df_to_write path compression_method
                   (if given partition_cols then cols_of partition_cols
                    else []).

(** [write_parquet]. *)
Definition write_parquet (df : frame) (path : string)
  (upsert_key : option (list string)) (compression_method : string)
  (partition_cols : option (list string)) (overwrite_level : option level)
  : M unit :=
  let lazy_df := Lazy df in
  has_existing_data <- probe_existing path ;;
  let df_to_write := lazy_df in
  df_to_write <-
    (if has_existing_data then
       reconcile df_to_write lazy_df path upsert_key partition_cols
                 overwrite_level
     else ret df_to_write) ;;
  materialize df_to_write path compression_method partition_cols.

(** Running a call from a world: its outcome and the world it leaves. *)
Definition run {A : Type} (m : M A) (w : world) : result A * world := m w.

(** The schema sanitizer on a table in memory: the plan
    [__transform_data_removing_empty_structs] builds, collected. *)
Definition sanitize (df : frame) : result frame :=
  fst (run (p <- transform_data_removing_empty_structs (Lazy df) ;; collect p)
           (World [] [] 0 [])).

(** *** The sanitizer in closed form *)

(** The plan [__transform_data_removing_empty_structs] builds for a table
    of schema [s]. *)
Definition sanitize_plan (s : fields) (p : plan) : plan :=
  fold_left (apply_step (fst (fold_left analyse_step s ([], []))))
            (snd (fold_left analyse_step s ([], []))) p.

(** The columns the first loop marks, with their new types. *)
Definition to_cast (s : fields) : fields :=
  flat_map (fun c => match remove_empty_structs (snd c) with
                     | (Some t, false) =>
                         if negb (pl.dtype_eqb t (snd c)) then [(fst c, t)]
                         else []
                     | _ => []
                     end) s.

(** The type a column has after the transformation: the sanitized type,
    or the type it had when that type is empty. *)
Definition sanitized_type (t : dtype) : dtype :=
  match remove_empty_structs t with
  | (Some t', false) => t'
  | _ => t
  end.

Definition sanitized_schema (s : fields) : fields :=
  map (fun c => (fst c, sanitized_type (snd c))) s.

(** Giving column [name] the type [t]. *)
Definition retype (s : fields) (name : string) (t : dtype) : fields :=
  map (fun f => if String.eqb (fst f) name then (fst f, t) else f) s.

(** The columns of a frame have distinct names. *)
Definition unique_columns (df : frame) : Prop := NoDup (keys (schema df)).

(** The new type of a column that has to be cast, if it has to be. *)
Definition needs_cast (t : dtype) : option dtype :=
  match remove_empty_structs t with
  | (Some t', false) => if negb (pl.dtype_eqb t' t) then Some t' else None
  | _ => None
  end.

(** The casts of the second loop, run on a frame one after the other. *)
Definition cast_each (new_schema : fields) (cols : list string)
  (r : result frame) : result frame :=
  fold_left (fun r c => rbind r (fun x => cast_column x c (type_of new_schema c)))
            cols r.

(** ** What the blocks compute *)

(** The outcome of [adjust_schema] on a table in memory: the plan to go on
    with and [schemas_match]. *)
Definition adjusted (df : frame) (df_existing_schema : fields) : plan * bool :=
  if schema_eqb df_existing_schema (schema df) then (Lazy df, true)
  else match cast_columns df df_existing_schema with
       | Ok adj => (WithColumns (Lazy df) df_existing_schema,
                    schema_eqb df_existing_schema (schema adj))
       | Err _ => (Lazy df, false)
       end.

(** The events of the probe when the target is there and can be read. *)
Definition probe_events (w : world) (path : string) : list event :=
  [EvExists path] ++ listing path ++
  [EvReadSchema (path_suffix w path); EvIsDir path; EvExists (getdir w path)].

(** The events up to the branch on the mode, over readable data. *)
Definition reconcile_events (w : world) (path : string) : list event :=
  probe_events w path ++ listing path ++ [EvReadSchema (path_suffix w path)].

Definition no_partition_cols : exn :=
  ValueError
    "Partition Cols are Empty though Overwrite level was set to Partition".

(** ** Tables and disks used in the examples *)

Definition int32 : dtype := pl.Prim pl.Int32.
Definition int64 : dtype := pl.Prim pl.Int64.
Definition utf8 : dtype := pl.Prim pl.Utf8.

(** A disk with the working directory and nothing in it. *)
Definition empty_disk : world := World [] ["."] 0 [].

(** A table with a column [meta] that is a struct without fields. *)
Definition meta_table : frame :=
  Frame [("id", int64); ("meta", pl.Struct [])] [[VInt 1; VStruct []]].

(** A table of [id] and [v], and a disk holding it as one file. *)
Definition letters : frame :=
  Frame [("id", int64); ("v", utf8)] [[VInt 1; VStr "a"]; [VInt 2; VStr "b"]].

Definition letters_disk : world :=
  World [("t.parquet", Parquet letters)] ["."] 0 [].

(** A dataset partitioned by [region], as the writer lays it out. *)
Definition us_rows : frame :=
  Frame [("id", int64); ("region", utf8)] [[VInt 1; VStr "US"]].
Definition eu_rows : frame :=
  Frame [("id", int64); ("region", utf8)] [[VInt 2; VStr "EU"]].

Definition regions_disk : world :=
  World [("data/region=US/part-0.parquet", Parquet us_rows);
         ("data/region=EU/part-1.parquet", Parquet eu_rows)]
        ["."; "data"; "data/region=US"; "data/region=EU"] 2 [].

(** A disk with a directory at the target and a file in it that is no
    parquet file. *)
Definition broken_disk : world :=
  World [("data/_tmp", Garbage)] ["."; "data"] 0 [].

(** ** The order of events *)

(** Stages of a call: everything but the write comes first. *)
Definition phase_write (ev : event) : nat :=
  match ev with
  | EvWrite _ _ _ _ => 1
  | _ => 0
  end.

(** Stages of a call: reads and probes of the disk (and the creation of
    the directory), then removals, then the write. *)
Definition phase_read_remove_write (ev : event) : nat :=
  match ev with
  | EvRemoveDir _ => 1
  | EvWrite _ _ _ _ => 2
  | _ => 0
  end.

(** The events go through the stages [lo] to [hi] in order, never back. *)
Fixpoint staged (ph : event -> nat) (lo hi : nat) (evs : list event) : Prop :=
  match evs with
  | [] => (lo <= hi)%nat
  | ev :: rest => (lo <= ph ev)%nat /\ staged ph (ph ev) hi rest
  end.

(** Every run of [m] adds events to the trace, and [Q] holds of the
    outcome and the events added. *)
Definition post {A : Type} (m : M A) (Q : result A -> list event -> Prop)
  : Prop :=
  forall w, exists evs,
    trace (snd (run m w)) = trace w ++ evs /\ Q (fst (run m w)) evs.

(** All events of [m] are of stage 0. *)
Definition quiet {A : Type} (ph : event -> nat) (m : M A) : Prop :=
  post m (fun _ evs => Forall (fun ev => ph ev = 0%nat) evs).

(** The calls that remove partitions one by one: partition overwrite, and
    upsert with partition columns. *)
Definition partition_scoped (upsert_key partition_cols : option (list string))
  (overwrite_level : option level) : bool :=
  given partition_cols &&
  match overwrite_level with
  | Some Partition => true
  | Some Full => false
  | None => given upsert_key
  end.

(** ** What [__remove_partitions] does *)

(** The disk after the loop. *)
Fixpoint after_removals (path : string) (partition_cols : list string)
  (partitions_affected : list row) (w : world) : world :=
  match partitions_affected with
  | [] => w
  | k :: rest =>
      let p := partition_path path partition_cols k in
      after_removals path partition_cols rest
                     (if exists_b w p then remove_tree p w else w)
  end.

(** The events of the loop: each partition is probed, and removed when it
    is there. *)
Fixpoint removal_events (path : string) (partition_cols : list string)
  (partitions_affected : list row) (w : world) : list event :=
  match partitions_affected with
  | [] => []
  | k :: rest =>
      let p := partition_path path partition_cols k in
      EvExists p ::
      (if exists_b w p then [EvRemoveDir p] else []) ++
      removal_events path partition_cols rest
                     (if exists_b w p then remove_tree p w else w)
  end.

(** The partitions a table touches: [select(partition_cols).unique()]. *)
Definition partitions_of (df : frame) (partition_cols : list string)
  : list row :=
  nodup_rows (map (project (schema df) partition_cols) (rows df)).

(** An incoming table for [region = "US"] with one more column than the
    dataset has. *)
Definition us_noted : frame :=
  Frame [("id", int64); ("region", utf8); ("note", utf8)]
        [[VInt 3; VStr "US"; VStr "n"]].

(** An incoming table for [region = "US"] with the columns of the
    dataset. *)
Definition us_new : frame :=
  Frame [("id", int64); ("region", utf8)] [[VInt 3; VStr "US"]].

(** An incoming row that has the [id] of the row in [region = "EU"]. *)
Definition moved : frame :=
  Frame [("id", int64); ("region", utf8)] [[VInt 2; VStr "US"]].

(** An incoming table without the column [v] of [letters]. *)
Definition other_letters : frame :=
  Frame [("id", int64); ("w", utf8)] [[VInt 1; VStr "z"]].

(** Two directories neither of which is the other or lies below it. *)
Definition apart (a b : string) : bool :=
  negb (String.prefix (norm a ++ "/") (norm b ++ "/")) &&
  negb (String.prefix (norm b ++ "/") (norm a ++ "/")).

(** A table with a struct column that has an empty struct inside. *)
Definition nested_table : frame :=
  Frame [("id", int64);
         ("info", pl.Struct [("name", utf8); ("extra", pl.Struct [])]);
         ("meta", pl.Struct [])]
        [[VInt 1; VStruct [("name", VStr "n"); ("extra", VStruct [])];
          VStruct []]].

(** ** Upsert keys *)

(** Every column of these names is of a primitive type. *)
Definition primitive_columns (s : fields) (cols : list string) : Prop :=
  forall c t, In c cols -> In (c, t) s -> exists k, t = pl.Prim k.

(** The existing row [x] is replaced by no row of the incoming table:
    its key matches none of theirs. *)
Definition survives (existing inc : frame) (on : list string) (x : row) : bool :=
  forallb (fun y => negb (key_match (project (schema existing) on x)
                                    (project (schema inc) on y)))
          (rows inc).

(** The keys of the rows of a table. *)
Definition row_keys (df : frame) (on : list string) : list row :=
  map (project (schema df) on) (rows df).

(** An incoming row with a new value for [id = 1]. *)
Definition new_letter : frame :=
  Frame [("id", int64); ("v", utf8)] [[VInt 1; VStr "z"]].

(** The number of characters of a path that are not slashes. *)
Fixpoint solid (s : string) : nat :=
  match s with
  | EmptyString => 0
  | String c r => (if is_slash c then 0 else 1) + solid r
  end.

From Stdlib Require Import DecimalZ DecimalPos.

(** ** [FileSystem.remove_dir], as it is written

    [fs_remove_dir] above takes the whole tree away in one step.  The
    method itself walks the directory: it lists it, removes the files,
    calls itself on the directories inside and removes the directory once
    it is empty.  What follows is that walk on the disk of the model, with
    the calls of [os] it makes. *)

(** The [errno] of the [OSError] a call of [os] raises. *)
Inductive os_error : Type :=
| ENOENT        (* FileNotFoundError *)
| EISDIR        (* IsADirectoryError *)
| ENOTDIR       (* NotADirectoryError *)
| ENOTEMPTY.    (* OSError: directory not empty *)

(** How a call ends: it returns, it raises, or the walk was cut short by
    the bound on its depth. *)
Inductive outcome : Type :=
| Returned (w : world)
| Raised (e : os_error) (w : world)
| OutOfFuel.

(** [os.remove]. *)
Definition os_remove (p : string) (w : world) : outcome :=
  if is_file w p then
    Returned (World (filter (fun e => negb (String.eqb (fst e) (norm p)))
                            (files w))
                    (dirs w) (fresh w) (trace w))
  else if is_dir w p then Raised EISDIR w
       else Raised ENOENT w.

(** [os.rmdir]: only an empty directory can be removed. *)
Definition os_rmdir (p : string) (w : world) : outcome :=
  if is_dir w p then
    match children p (entries w) with
    | [] => Returned (World (files w)
                            (filter (fun d => negb (String.eqb d (norm p)))
                                    (dirs w))
                            (fresh w) (trace w))
    | _ :: _ => Raised ENOTEMPTY w
    end
  else if is_file w p then Raised ENOTDIR w
       else Raised ENOENT w.

(** [os.path.join(a, b)]. *)
Definition os_path_join (a b : string) : string :=
  if String.prefix "/" b then b
  else if String.eqb a "" || ends_with_slash a then (a ++ b)%string
  else (a ++ "/" ++ b)%string.

(** The loop [for file in os.listdir(file_path)], followed by
    [os.rmdir(file_path)]; [remove_dir] is the method, for the call on a
    directory inside. *)
Fixpoint remove_entries (remove_dir : string -> world -> outcome)
  (file_path : string) (names : list string) (w : world) : outcome :=
  match names with
  | [] => os_rmdir file_path w
  | file :: rest =>
      let file_full_path := os_path_join file_path file in
      match (if is_dir w file_full_path then remove_dir file_full_path w
             else os_remove file_full_path w) with
      | Returned w' => remove_entries remove_dir file_path rest w'
      | stopped => stopped
      end
  end.

(** [FileSystem.remove_dir], on a local path.  [fuel] bounds the depth of
    the calls. *)
Fixpoint remove_dir (fuel : nat) (file_path : string) (w : world) : outcome :=
  match fuel with
  | O => OutOfFuel
  | S fuel' =>
      if exists_b w file_path then
        if is_dir w file_path then
          remove_entries (remove_dir fuel') file_path
                         (children file_path (entries w)) w
        else os_remove file_path w
      else Returned w
  end.

(** *** Disks as the operating system keeps them *)

Fixpoint distinct (l : list string) : bool :=
  match l with
  | [] => true
  | x :: rest => negb (existsb (String.eqb x) rest) && distinct rest
  end.

(** No path is there twice, every path is written in its normal form, and
    every entry lies in a directory of the disk. *)
Definition well_formed (w : world) : bool :=
  distinct (entries w) &&
  forallb (fun e => String.eqb (norm e) e &&
                    existsb (String.eqb (pathlib_parent e)) (dirs w))
          (entries w).

(** What a disk in good order gives. *)
Record good_order (w : world) : Prop := {
  entries_distinct : NoDup (entries w);
  entries_normal : forall e, In e (entries w) -> norm e = e;
  entries_housed : forall e, In e (entries w) -> In (pathlib_parent e) (dirs w)
}.

(** The working directory and the root directory. *)
Definition is_root (p : string) : bool :=
  String.eqb (norm p) "." || String.eqb (norm p) "/".

(** The number of directories at or below a path. *)
Definition count_under (p : string) (w : world) : nat :=
  List.length (filter (under p) (dirs w)).

(** The disk without the trees at the paths given. *)
Definition remove_trees (qs : list string) (w : world) : world :=
  fold_left (fun w q => remove_tree q w) qs w.

(** A path that lies under none of the paths given. *)
Definition clear_of (qs : list string) (x : string) : bool :=
  forallb (fun q => negb (under q x)) qs.

(** ** The other methods of [PolarsParquetReader] and of [FileSystem] *)

(** [pl.read_parquet(source, allow_missing_columns=True)]: the dataset is
    read at once. *)
Definition pl_read_parquet (source : string) : M frame :=
  collect (ScanParquet source).

(** [read_parquet], without cloud credentials. *)
Definition read_parquet (path : string) : M frame :=
  path_suffix <- check_path_suffix path ;;
  pl_read_parquet path_suffix.

(** [FileSystem.parent]. *)
Definition fs_parent (file_path : string) : string := pathlib_parent file_path.

(** Two slashes in a row somewhere in a path. *)
Fixpoint has_double_slash (s : string) : bool :=
  match s with
  | EmptyString => false
  | String a r =>
      match r with
      | EmptyString => false
      | String b _ => (is_slash a && is_slash b) || has_double_slash r
      end
  end.

(** The paths [__remove_partitions] probes. *)
Definition partition_paths (path : string) (partition_cols : list string)
  (partitions_affected : list row) : list string :=
  map (partition_path path partition_cols) partitions_affected.

(** *** Credentials *)

(** The truth value of a [str | None]: [None] and the empty string are
    false. *)
Definition truthy (x : option string) : bool :=
  match x with
  | Some (String _ _) => true
  | _ => false
  end.

(** [a and b]: the first operand when it is false, the second otherwise. *)
Definition py_and (a b : option string) : option string :=
  if truthy a then b else a.

Definition text_of (x : option string) : string :=
  match x with Some s => s | None => "" end.

Module file_system.

(** What [s3fs.S3FileSystem(key=..., secret=..., client_kwargs=
    {'region_name': ...})] is made from. *)
Record S3FileSystem : Type := {
  key : string;
  secret : string;
  region_name : string
}.

(** A [FileSystem] object: the credentials it was made with and [_fs],
    the connection it keeps once it has made one. *)
Record FileSystem : Type := {
  _aws_key : option string;
  _aws_secret : option string;
  _aws_region : option string;
  _fs : option S3FileSystem
}.

(** [FileSystem.__init__]. *)
Definition init (aws_key aws_secret aws_region : option string) : FileSystem :=
  {| _aws_key := aws_key; _aws_secret := aws_secret;
     _aws_region := aws_region; _fs := None |}.

(** [FileSystem.__get_s3fs]: the connection, and the object after the
    call. *)
Definition get_s3fs (self : FileSystem) : result S3FileSystem * FileSystem :=
  if negb (truthy (_aws_key self)) || negb (truthy (_aws_secret self)) ||
     negb (truthy (_aws_region self))
  then (Err (ValueError
               "Missing AWS Configurations, Reinitialise with Configurations"),
        self)
  else
    match _fs self with
    | None =>
        let fs := {| key := text_of (_aws_key self);
                     secret := text_of (_aws_secret self);
                     region_name := text_of (_aws_region self) |} in
        (Ok fs,
         {| _aws_key := _aws_key self; _aws_secret := _aws_secret self;
            _aws_region := _aws_region self; _fs := Some fs |})
    | Some fs => (Ok fs, self)
    end.

End file_system.

Module polars_parquet_reader.

(** A [PolarsParquetReader] object. *)
Record PolarsParquetReader : Type := {
  _has_cloud : option string;
  _storage_options : list (string * option string);
  _fs : file_system.FileSystem
}.

(** [PolarsParquetReader.__init__]. *)
Definition init (aws_key_id aws_secret_access_key aws_region : option string)
  : PolarsParquetReader :=
  {| _has_cloud := py_and (py_and aws_key_id aws_secret_access_key) aws_region;
     _storage_options :=
       [("aws_access_key_id", aws_key_id);
        ("aws_secret_access_key", aws_secret_access_key);
        ("aws_region", aws_region)];
     _fs := file_system.init aws_key_id aws_secret_access_key aws_region |}.

End polars_parquet_reader.

(** ** Types without empty structs *)

(** A struct without fields somewhere in a type. *)
Fixpoint has_empty_struct (t : dtype) : bool :=
  match t with
  | pl.Prim _ => false
  | pl.List inner => has_empty_struct inner
  | pl.Struct fs =>
      match fs with
      | [] => true
      | _ :: _ =>
          (fix any (l : fields) : bool :=
             match l with
             | [] => false
             | (_, t) :: rest => has_empty_struct t || any rest
             end) fs
      end
  end.

(** The field names of every struct in a type are distinct. *)
Fixpoint names_distinct (t : dtype) : bool :=
  match t with
  | pl.Prim _ => true
  | pl.List inner => names_distinct inner
  | pl.Struct fs =>
      distinct (keys fs) &&
      (fix all (l : fields) : bool :=
         match l with
         | [] => true
         | (_, t) :: rest => names_distinct t && all rest
         end) fs
  end.

(** A type with no empty struct in it and no field named twice. *)
Definition clean (t : dtype) : Prop :=
  has_empty_struct t = false /\ names_distinct t = true.

(** The path [__check_path_suffix] returns once it has the listing. *)
Definition suffixed (path : string) (files : list string) : string :=
  let own := drop_prefix_length S3_PREFIX path in
  let files :=
    if contains S3_PREFIX path && existsb (String.eqb own) files
    then remove_first own files else files in
  if (0 <? List.length files)%nat then (path ++ "/")%string else path.

(** The disk with one more directory. *)
Definition with_dir (d : string) (w : world) : world :=
  World (files w) (dirs w ++ [d]) (fresh w) (trace w).

(** What the probe of [write_parquet] does when it finds nothing at the
    target. *)
Definition probe_missing_events (w : world) (path : string) : list event :=
  [EvExists path; EvIsDir path; EvExists (getdir w path);
   EvMkdir (getdir w path)].

(** ** [IncludeLoggerMixin]

    The loggers of [logging] are shared: [logging.getLogger(name)] makes
    the logger of a name once and gives the same object to every caller.
    The model keeps them in a table by name, and an object that holds a
    logger holds its name.  No logger is disabled, and a logger that has no
    level of its own goes by the level of the root logger. *)

Module logging.

(** [logging.StreamHandler()] with a [logging.Formatter(fmt)]. *)
Record Handler : Type := { formatter : string }.

Record Logger : Type := {
  handlers : list Handler;
  level : nat;                   (* 0 is NOTSET *)
  handled : list string          (* what the logger was asked to log and
                                    let through, oldest first *)
}.

(** The state of the module: its loggers by name, and the level of the
    root logger. *)
Record state : Type := {
  loggers : list (string * Logger);
  root_level : nat
}.

Definition INFO : nat := 20.

(** [logging._nameToLevel]. *)
Definition name_to_level (name : string) : option nat :=
  if String.eqb name "CRITICAL" then Some 50%nat
  else if String.eqb name "FATAL" then Some 50%nat
  else if String.eqb name "ERROR" then Some 40%nat
  else if String.eqb name "WARN" then Some 30%nat
  else if String.eqb name "WARNING" then Some 30%nat
  else if String.eqb name "INFO" then Some 20%nat
  else if String.eqb name "DEBUG" then Some 10%nat
  else if String.eqb name "NOTSET" then Some 0%nat
  else None.

Definition new_logger : Logger :=
  {| handlers := []; level := 0; handled := [] |}.

Definition lookup (name : string) (st : state) : Logger :=
  match dict_get name (loggers st) with
  | Some l => l
  | None => new_logger
  end.

Definition update (name : string) (l : Logger) (st : state) : state :=
  {| loggers := dict_set name l (loggers st); root_level := root_level st |}.

(** [logging.getLogger(name)]: the logger of the name, made if there is
    none yet. *)
Definition getLogger (name : string) (st : state) : state :=
  if dict_mem name (loggers st) then st else update name new_logger st.

(** [Logger.addHandler]. *)
Definition addHandler (name : string) (h : Handler) (st : state) : state :=
  let l := lookup name st in
  update name {| handlers := handlers l ++ [h]; level := level l;
                 handled := handled l |} st.

(** [Logger.setLevel], the level already checked. *)
Definition setLevel (name : string) (lv : nat) (st : state) : state :=
  let l := lookup name st in
  update name {| handlers := handlers l; level := lv; handled := handled l |}
         st.

(** [Logger.getEffectiveLevel], for a logger right below the root. *)
Definition getEffectiveLevel (name : string) (st : state) : nat :=
  let l := lookup name st in
  if (level l =? 0)%nat then root_level st else level l.

(** [Logger.info(msg)]. *)
Definition info (name msg : string) (st : state) : state :=
  if (getEffectiveLevel name st <=? INFO)%nat then
    let l := lookup name st in
    update name {| handlers := handlers l; level := level l;
                   handled := handled l ++ [msg] |} st
  else st.

End logging.

(** [str.upper()], for text in ASCII. *)
Definition upper_ascii (c : ascii) : ascii :=
  let n := nat_of_ascii c in
  if ((97 <=? n) && (n <=? 122))%nat then ascii_of_nat (n - 32) else c.

Fixpoint upper (s : string) : string :=
  match s with
  | EmptyString => EmptyString
  | String c r => String (upper_ascii c) (upper r)
  end.

Module mixins.

(** An object of a class that inherits [IncludeLoggerMixin]: the name of
    its class, the two class attributes, and [_logger_instance] once it
    is set. *)
Record IncludeLoggerMixin : Type := {
  class_name : string;                    (* self.__class__.__name__ *)
  LOGGER_LEVEL : string;
  LOGGER_FORMAT : string;
  _logger_instance : option string
}.

Definition holding (self : IncludeLoggerMixin) (name : string)
  : IncludeLoggerMixin :=
  {| class_name := class_name self; LOGGER_LEVEL := LOGGER_LEVEL self;
     LOGGER_FORMAT := LOGGER_FORMAT self; _logger_instance := Some name |}.

Definition initialized_message (self : IncludeLoggerMixin) : string :=
  ("Logger initialized for " ++ class_name self ++ ", with log level: " ++
   upper (LOGGER_LEVEL self))%string.

Section Logger.

(** Whether [logging.Formatter(fmt)] accepts the format. *)
Variable valid_format : string -> bool.

(** The property [_logger]: the logger, or the error raised, with the
    object and the loggers after the access. *)
Definition _logger (self : IncludeLoggerMixin) (st : logging.state)
  : result string * IncludeLoggerMixin * logging.state :=
  match _logger_instance self with
  | Some name => (Ok name, self, st)
  | None =>
      let name := class_name self in
      let st := logging.getLogger name st in
      let self := holding self name in
      match logging.handlers (logging.lookup name st) with
      | _ :: _ => (Ok name, self, st)
      | [] =>
          if valid_format (LOGGER_FORMAT self) then
            let handler := {| logging.formatter := LOGGER_FORMAT self |} in
            let st := logging.addHandler name handler st in
            match logging.name_to_level (upper (LOGGER_LEVEL self)) with
            | Some lv =>
                let st := logging.setLevel name lv st in
                let st := logging.info name (initialized_message self) st in
                (Ok name, self, st)
            | None =>
                (Err (ValueError
                        ("Unknown level: " ++
                         quoted (upper (LOGGER_LEVEL self)))),
                 self, st)
            end
          else
            (Err (ValueError
                    ("Invalid format " ++ quoted (LOGGER_FORMAT self) ++
                     " for '%' style")),
             self, st)
      end
  end.

(** One access after the other, each by an object of its own, on the
    loggers the one before left. *)
Fixpoint accesses (objects : list IncludeLoggerMixin) (st : logging.state)
  : logging.state :=
  match objects with
  | [] => st
  | self :: rest => accesses rest (snd (_logger self st))
  end.

End Logger.

End mixins.

(** Text in ASCII. *)
Fixpoint ascii_only (s : string) : bool :=
  match s with
  | EmptyString => true
  | String c r => (nat_of_ascii c <? 128)%nat && ascii_only r
  end.

(** ** The names of partition directories *)

(** A text without a slash. *)
Definition slashless (s : string) : bool :=
  match before_last_slash s with
  | None => true
  | Some _ => false
  end.

(** [[f"{col}={partition[index]}" for index, col in
    enumerate(partition_cols)]]: the names of the directories from the
    dataset down to the partition. *)
Definition partition_names (partition_cols : list string) (partition : row)
  : list string :=
  map (fun ic =>
         (snd ic ++ "=" ++ py_str (nth (fst ic) partition VNull))%string)
      (enumerate partition_cols).

(** Two values of one kind: both integers, both strings or both
    booleans. *)
Definition same_kind (v v' : value) : bool :=
  match v, v' with
  | VInt _, VInt _ | VStr _, VStr _ | VBool _, VBool _ => true
  | _, _ => false
  end.
(** * Properties *)

(** ** The sanitizer on types *)

Example res_prim :
  remove_empty_structs (pl.Prim pl.Int64) = (Some (pl.Prim pl.Int64), false).
Proof. reflexivity. Qed.

Example res_nested :
  remove_empty_structs
    (pl.Struct [("a", pl.Struct []); ("b", pl.List (pl.Prim pl.Utf8));
                ("c", pl.List (pl.Struct [("d", pl.Struct [])]))])
  = (Some (pl.Struct [("b", pl.List (pl.Prim pl.Utf8))]), false).
Proof. reflexivity. Qed.

(** Structural induction on types, with the hypothesis on every field. *)
Lemma dtype_induction (P : dtype -> Prop) :
  (forall k, P (pl.Prim k)) ->
  (forall inner, P inner -> P (pl.List inner)) ->
  (forall fs, Forall (fun f => P (snd f)) fs -> P (pl.Struct fs)) ->
  forall t, P t.
Proof.
  intros Hp Hl Hs.
  fix IH 1.
  intros [k | inner | fs].
  - apply Hp.
  - apply Hl, IH.
  - apply Hs.
    induction fs as [| [n t] fs IHfs]; constructor.
    + apply IH.
    + exact IHfs.
Qed.

(** The struct case of [remove_empty_structs] runs [fields_loop]. *)
Lemma remove_empty_structs_struct (f : string * dtype) (fs : fields) :
  remove_empty_structs (pl.Struct (f :: fs)) =
  let '(new_fields, all_empty) := fields_loop (f :: fs) ([], true) in
  if all_empty then (None, true) else (Some (pl.Struct new_fields), false).
Proof.
  assert (H : forall l acc,
             fields_loop l acc =
             (fix loop (l : fields) (acc : fields * bool) {struct l}
                : fields * bool :=
                match l with
                | [] => acc
                | (field_name, field_type) :: rest =>
                    let '(new_field_type, is_empty) :=
                      remove_empty_structs field_type in
                    loop rest
                      (if is_empty then acc
                       else match new_field_type with
                            | Some t => (dict_set field_name t (fst acc), false)
                            | None => (fst acc, false)
                            end)
                end) l acc).
  { induction l as [| [n t] l IHl]; intros acc; [reflexivity |].
    unfold fields_loop in *. cbn [fold_left].
    rewrite IHl. unfold fields_step. cbn [fst snd].
    destruct (remove_empty_structs t) as [nt e]. reflexivity. }
  rewrite H. reflexivity.
Qed.

Lemma remove_empty_structs_list (inner : dtype) :
  remove_empty_structs (pl.List inner) =
  let '(inner_schema, inner_empty) := remove_empty_structs inner in
  if inner_empty then (None, true)
  else (option_map pl.List inner_schema, false).
Proof. reflexivity. Qed.

Lemma fields_loop_flag (l : fields) (acc : fields) (b : bool) :
  snd (fields_loop l (acc, b)) =
  b && forallb (fun f => is_empty (snd f)) l.
Proof.
  revert acc b. induction l as [| [n t] l IHl]; intros acc b.
  - cbn. now rewrite andb_true_r.
  - unfold fields_loop in *. cbn [fold_left forallb snd].
    unfold fields_step at 2. cbn [fst snd]. unfold is_empty at 1.
    destruct (remove_empty_structs t) as [nt [|]]; cbn [snd].
    + rewrite IHl. reflexivity.
    + destruct nt; rewrite IHl; cbn; now rewrite andb_false_r.
Qed.

(** A type that is not empty comes with its sanitized type. *)
Lemma not_empty_some (t : dtype) :
  is_empty t = false -> exists t', remove_empty_structs t = (Some t', false).
Proof.
  unfold is_empty.
  induction t as [k | inner IH | fs IH] using dtype_induction; intros He.
  - eexists. reflexivity.
  - rewrite remove_empty_structs_list in *.
    destruct (remove_empty_structs inner) as [s [|]]; cbn in *; [discriminate |].
    destruct (IH eq_refl) as [t' Ht']. injection Ht' as ->.
    eexists. reflexivity.
  - destruct fs as [| f fs]; [discriminate |].
    rewrite remove_empty_structs_struct in *.
    destruct (fields_loop (f :: fs) ([], true)) as [nf [|]]; [discriminate |].
    eexists. reflexivity.
Qed.

Lemma result_shape (t : dtype) :
  remove_empty_structs t = (None, true) \/
  exists t', remove_empty_structs t = (Some t', false).
Proof.
  destruct (is_empty t) eqn:He.
  - left. unfold is_empty in He.
    destruct t as [k | inner | fs].
    + discriminate.
    + rewrite remove_empty_structs_list in *.
      destruct (remove_empty_structs inner) as [s [|]]; [reflexivity | discriminate].
    + destruct fs as [| f fs]; [reflexivity |].
      rewrite remove_empty_structs_struct in *.
      destruct (fields_loop (f :: fs) ([], true)) as [nf [|]];
        [reflexivity | discriminate].
  - right. now apply not_empty_some.
Qed.

Lemma fields_loop_fields (l : fields) (acc : fields) (b : bool) :
  fst (fields_loop l (acc, b)) = assign_all (retained l) acc.
Proof.
  revert acc b. induction l as [| [n t] l IHl]; intros acc b; [reflexivity |].
  unfold fields_loop in *. cbn [fold_left].
  unfold fields_step at 2. unfold retained. cbn [flat_map fst snd].
  destruct (result_shape t) as [-> | [t' ->]].
  - cbn [app]. apply IHl.
  - unfold assign_all. rewrite fold_left_app. cbn [fold_left fst snd].
    apply IHl.
Qed.

(** *** Dictionary facts *)

Lemma dict_set_fresh {V : Type} (k : string) (v : V) (d : list (string * V)) :
  ~ In k (keys d) -> dict_set k v d = d ++ [(k, v)].
Proof.
  induction d as [| [k' v'] d IHd]; intros Hn; [reflexivity |].
  cbn in *. destruct (String.eqb_spec k' k) as [-> | Hne].
  - exfalso. apply Hn. now left.
  - f_equal. apply IHd. intros Hin. apply Hn. now right.
Qed.

Lemma dict_set_keys {V : Type} (k : string) (v : V) (d : list (string * V)) :
  keys (dict_set k v d) = if dict_mem k d then keys d else keys d ++ [k].
Proof.
  unfold dict_mem, keys.
  induction d as [| [k' v'] d IHd]; [reflexivity |].
  cbn. destruct (String.eqb_spec k' k) as [-> | Hne]; [reflexivity |].
  cbn. rewrite IHd. now destruct (dict_get k d).
Qed.

Lemma dict_mem_In {V : Type} (k : string) (d : list (string * V)) :
  dict_mem k d = true <-> In k (keys d).
Proof.
  unfold dict_mem.
  induction d as [| [k' v'] d IHd]; cbn.
  - split; [discriminate | tauto].
  - destruct (String.eqb_spec k' k) as [-> | Hne].
    + split; auto.
    + rewrite IHd. split; [now right | intros [H | H]; [contradiction | exact H]].
Qed.

Lemma dict_set_Forall {V : Type} (P : string * V -> Prop) k v d :
  Forall P d -> P (k, v) -> Forall P (dict_set k v d).
Proof.
  intros Hd Hkv. induction Hd as [| [k' v'] d Hx Hd IH]; cbn.
  - now constructor.
  - destruct (String.eqb k' k); constructor; auto.
Qed.

Lemma dict_set_NoDup {V : Type} (k : string) (v : V) (d : list (string * V)) :
  NoDup (keys d) -> NoDup (keys (dict_set k v d)).
Proof.
  intros Hd. rewrite dict_set_keys.
  destruct (dict_mem k d) eqn:Hm; [exact Hd |].
  apply NoDup_app; [exact Hd | constructor; [intros [] | constructor] |].
  intros x Hx [<- | []].
  apply dict_mem_In in Hx. congruence.
Qed.

Lemma assign_all_fresh (l d : fields) :
  NoDup (keys (d ++ l)) -> assign_all l d = d ++ l.
Proof.
  revert d. induction l as [| [k v] l IHl]; intros d Hnd.
  - cbn. now rewrite app_nil_r.
  - unfold assign_all in *. cbn [fold_left fst snd].
    assert (Hk : ~ In k (keys d)).
    { unfold keys in *. rewrite map_app in Hnd. cbn in Hnd.
      apply NoDup_remove_2 in Hnd. intros Hin. apply Hnd.
      apply in_or_app. now left. }
    rewrite (dict_set_fresh k v d Hk).
    rewrite IHl; rewrite <- app_assoc; [reflexivity | exact Hnd].
Qed.

Lemma assign_all_Forall (P : string * dtype -> Prop) (l d : fields) :
  Forall P l -> Forall P d -> Forall P (assign_all l d).
Proof.
  revert d. induction l as [| [k v] l IHl]; intros d Hl Hd; [exact Hd |].
  unfold assign_all in *. cbn [fold_left fst snd].
  inversion Hl; subst. apply IHl; [assumption |].
  now apply dict_set_Forall.
Qed.

Lemma assign_all_NoDup (l d : fields) :
  NoDup (keys d) -> NoDup (keys (assign_all l d)).
Proof.
  revert d. induction l as [| [k v] l IHl]; intros d Hd; [exact Hd |].
  unfold assign_all in *. cbn [fold_left fst snd].
  apply IHl. now apply dict_set_NoDup.
Qed.

(** *** The retained fields *)

Lemma retained_keys_incl (fs : fields) (k : string) :
  In k (keys (retained fs)) -> In k (keys fs).
Proof.
  induction fs as [| [n t] fs IH]; cbn; [tauto |].
  unfold keys in *. rewrite map_app, in_app_iff.
  intros [H | H]; [| right; now apply IH].
  destruct (remove_empty_structs t) as [[t' |] [|]]; cbn in H; tauto.
Qed.

Lemma retained_NoDup (fs : fields) :
  NoDup (keys fs) -> NoDup (keys (retained fs)).
Proof.
  induction fs as [| [n t] fs IH]; cbn; intros Hnd; [constructor |].
  inversion Hnd as [| x l Hn Hnd']; subst.
  unfold keys in *. rewrite map_app.
  destruct (remove_empty_structs t) as [[t' |] [|]]; cbn; auto.
  constructor; auto.
  intros Hin. apply Hn. apply retained_keys_incl. exact Hin.
Qed.

Lemma retained_nil_iff (fs : fields) :
  retained fs = [] <-> forallb (fun f => is_empty (snd f)) fs = true.
Proof.
  induction fs as [| [n t] fs IH]; cbn; [tauto |].
  unfold is_empty at 1. cbn [snd].
  destruct (result_shape t) as [-> | [t' ->]]; cbn.
  - exact IH.
  - split; discriminate.
Qed.

(** The struct case, in closed form. *)
Lemma remove_empty_structs_struct_closed (fs : fields) :
  remove_empty_structs (pl.Struct fs) =
  if forallb (fun f => is_empty (snd f)) fs then (None, true)
  else (Some (pl.Struct (assign_all (retained fs) [])), false).
Proof.
  destruct fs as [| f fs]; [reflexivity |].
  rewrite remove_empty_structs_struct.
  pose proof (fields_loop_flag (f :: fs) [] true) as Hflag.
  pose proof (fields_loop_fields (f :: fs) [] true) as Hfs.
  destruct (fields_loop (f :: fs) ([], true)) as [nf ae] eqn:E.
  cbn [fst snd] in *. subst. reflexivity.
Qed.

(** *** Idempotence on types *)

Lemma retained_fixed (fs : fields) :
  Forall (fun f => sanitized (snd f)) fs -> retained fs = fs.
Proof.
  induction 1 as [| [n t] fs Ht _ IH]; [reflexivity |].
  unfold retained, sanitized in *. cbn [flat_map fst snd] in *.
  rewrite Ht. cbn [app]. now rewrite IH.
Qed.

Lemma retained_Forall (P : dtype -> Prop) (fs : fields) :
  Forall (fun f => forall t', remove_empty_structs (snd f) = (Some t', false)
                              -> P t') fs ->
  Forall (fun f => P (snd f)) (retained fs).
Proof.
  induction 1 as [| [n t] fs Ht _ IH]; [constructor |].
  unfold retained in *. cbn [flat_map fst snd] in *.
  destruct (remove_empty_structs t) as [[t' |] [|]]; cbn [app]; auto.
Qed.

Lemma assign_all_length (l d : fields) :
  (List.length d <= List.length (assign_all l d))%nat.
Proof.
  revert d. induction l as [| [k v] l IHl]; intros d; [apply Nat.le_refl |].
  unfold assign_all in *. cbn [fold_left fst snd].
  eapply Nat.le_trans; [| apply IHl].
  assert (H : List.length (keys (dict_set k v d))
              = List.length (dict_set k v d))
    by apply length_map.
  rewrite <- H, dict_set_keys.
  destruct (dict_mem k d); unfold keys; rewrite ?length_app, length_map; lia.
Qed.

Lemma assign_all_not_nil (l : fields) : l <> [] -> assign_all l [] <> [].
Proof.
  destruct l as [| [k v] l]; [congruence |]. intros _.
  unfold assign_all. cbn [fold_left fst snd dict_set].
  pose proof (assign_all_length l [(k, v)]) as H. unfold assign_all in H.
  intros E. rewrite E in H. cbn in H. lia.
Qed.

Lemma sanitized_not_empty (fs : fields) :
  fs <> [] -> Forall (fun f => sanitized (snd f)) fs ->
  forallb (fun f => is_empty (snd f)) fs = false.
Proof.
  intros Hne Hall. destruct Hall as [| [n t] fs Ht _]; [congruence |].
  cbn. unfold is_empty at 1. unfold sanitized in Ht. cbn in Ht. now rewrite Ht.
Qed.

(** Sanitizing a sanitized type changes nothing. *)
Lemma remove_empty_structs_idempotent (t t' : dtype) :
  remove_empty_structs t = (Some t', false) -> sanitized t'.
Proof.
  revert t'.
  induction t as [k | inner IH | fs IH] using dtype_induction; intros t' Ht.
  - cbn in Ht. injection Ht as <-. reflexivity.
  - rewrite remove_empty_structs_list in Ht.
    destruct (result_shape inner) as [E | [i' E]]; rewrite E in Ht;
      [discriminate |].
    cbn in Ht. injection Ht as <-.
    unfold sanitized. rewrite remove_empty_structs_list.
    rewrite (IH i' E). reflexivity.
  - rewrite remove_empty_structs_struct_closed in Ht.
    destruct (forallb (fun f => is_empty (snd f)) fs) eqn:Hall;
      [discriminate |].
    injection Ht as <-.
    set (nf := assign_all (retained fs) []).
    assert (Hq : Forall (fun f => sanitized (snd f)) nf).
    { apply assign_all_Forall; [| constructor].
      now apply retained_Forall. }
    assert (Hne : nf <> []).
    { apply assign_all_not_nil. intros E.
      apply retained_nil_iff in E. congruence. }
    unfold sanitized. rewrite remove_empty_structs_struct_closed.
    rewrite (sanitized_not_empty nf Hne Hq).
    rewrite (retained_fixed nf Hq).
    rewrite assign_all_fresh; [reflexivity |].
    cbn. apply assign_all_NoDup. constructor.
Qed.

(** *** The emptiness check, case by case *)

(** C8. A primitive type is never empty.  [List(inner)] is empty exactly
    when [inner] is, and is otherwise rebuilt around the sanitized inner
    type.  [Struct(fields)] is empty exactly when it has no field or all
    its fields are empty, and is otherwise rebuilt from the fields that are
    not empty, each with its sanitized type, in their original order. *)
Theorem emptiness_check_cases (t : dtype) (Hnames : unique_names t) :
  match t with
  | pl.Prim k => remove_empty_structs t = (Some t, false)
  | pl.List inner =>
      (is_empty t = is_empty inner) /\
      (is_empty inner = true -> remove_empty_structs t = (None, true)) /\
      (is_empty inner = false ->
       exists inner', remove_empty_structs inner = (Some inner', false) /\
                      remove_empty_structs t = (Some (pl.List inner'), false))
  | pl.Struct fs =>
      (is_empty t = true <->
       fs = [] \/ (forall f, In f fs -> is_empty (snd f) = true)) /\
      (is_empty t = true -> remove_empty_structs t = (None, true)) /\
      (is_empty t = false ->
       remove_empty_structs t = (Some (pl.Struct (retained fs)), false))
  end.
Proof.
  destruct t as [k | inner | fs].
  - reflexivity.
  - unfold is_empty. rewrite remove_empty_structs_list.
    destruct (result_shape inner) as [E | [i' E]]; rewrite E; cbn.
    + repeat split; [discriminate].
    + repeat split; [discriminate |]. intros _. now exists i'.
  - cbn in Hnames. unfold is_empty.
    rewrite remove_empty_structs_struct_closed.
    destruct (forallb (fun f => is_empty (snd f)) fs) eqn:Hall; cbn.
    + repeat split; [| discriminate].
      intros _. right. now apply forallb_forall.
    + repeat split; try discriminate.
      * intros [-> | Hf]; [discriminate |].
        apply forallb_forall in Hf. unfold is_empty in *. congruence.
      * intros _. rewrite assign_all_fresh; [reflexivity |].
        cbn. now apply retained_NoDup.
Qed.

(** A struct with fields that are empty, nested and plain. *)
Lemma emptiness_check_cases_witness :
  let t := pl.Struct [("a", pl.Struct []); ("b", pl.Prim pl.Utf8);
                      ("c", pl.List (pl.Struct [("d", pl.Struct [])]));
                      ("e", pl.Struct [("f", pl.Prim pl.Int64);
                                       ("g", pl.Struct [])])] in
  unique_names t /\
  remove_empty_structs t =
  (Some (pl.Struct [("b", pl.Prim pl.Utf8);
                    ("e", pl.Struct [("f", pl.Prim pl.Int64)])]), false).
Proof.
  intros t.
  assert (Hn : unique_names t).
  { cbn. repeat constructor; cbn; intuition discriminate. }
  split; [exact Hn |].
  destruct (emptiness_check_cases t Hn) as (_ & _ & H).
  apply H. reflexivity.
Defined.

(** ** Equality tests *)

Lemma prim_eqb_eq (a b : pl.prim) : pl.prim_eqb a b = true <-> a = b.
Proof. destruct a, b; cbn; split; congruence. Qed.

Lemma dtype_eqb_eq (a b : dtype) : pl.dtype_eqb a b = true <-> a = b.
Proof.
  revert b.
  induction a as [k | inner IH | fs IH] using dtype_induction; intros b.
  - destruct b; cbn; try (split; congruence).
    rewrite prim_eqb_eq. split; congruence.
  - destruct b; cbn; try (split; congruence).
    rewrite IH. split; congruence.
  - destruct b as [k | inner | fs']; cbn; try (split; congruence).
    revert fs'. induction IH as [| [n t] fs Ht _ IHfs]; intros fs'.
    + destruct fs'; split; congruence.
    + destruct fs' as [| [n' t'] fs']; [split; congruence |].
      rewrite !andb_true_iff, String.eqb_eq. cbn [snd] in Ht.
      rewrite Ht, IHfs. split.
      * intros [[-> ->] E]. congruence.
      * intros E. injection E as -> -> ->. auto.
Qed.

Lemma dtype_eqb_refl (a : dtype) : pl.dtype_eqb a a = true.
Proof. now apply dtype_eqb_eq. Qed.

Lemma schema_eqb_eq (a b : fields) : schema_eqb a b = true <-> a = b.
Proof.
  revert b. induction a as [| [n t] a IH]; intros [| [n' t'] b]; cbn;
    try (split; congruence).
  rewrite !andb_true_iff, String.eqb_eq, dtype_eqb_eq, IH.
  split; [intros [[-> ->] ->]; reflexivity | intros E; injection E; auto].
Qed.

(** ** Running the writer, step by step *)

Lemma logs_nil (w : world) : logs [] w = w.
Proof. destruct w. unfold logs. cbn. now rewrite app_nil_r. Qed.

Lemma logs_logs (a b : list event) (w : world) :
  logs b (logs a w) = logs (a ++ b) w.
Proof. unfold logs. cbn. now rewrite app_assoc. Qed.

Lemma run_bind {A B : Type} (m : M A) (f : A -> M B) (w : world) :
  run (bind m f) w =
  match run m w with
  | (Ok a, w') => run (f a) w'
  | (Err e, w') => (Err e, w')
  end.
Proof. reflexivity. Qed.

Lemma run_ret {A : Type} (a : A) (w : world) : run (ret a) w = (Ok a, w).
Proof. reflexivity. Qed.

Lemma run_raise {A : Type} (e : exn) (w : world) :
  run (@raise A e) w = (Err e, w).
Proof. reflexivity. Qed.

Lemma run_try_except {A : Type} (m : M A) (h : exn -> M A) (w : world) :
  run (try_except m h) w =
  match run m w with
  | (Ok a, w') => (Ok a, w')
  | (Err e, w') => run (h e) w'
  end.
Proof. reflexivity. Qed.

Lemma run_emit_all (evs : list event) (w : world) :
  run (emit_all evs) w = (Ok tt, logs evs w).
Proof.
  revert w. induction evs as [| ev evs IH]; intros w.
  - cbn. now rewrite logs_nil.
  - cbn [emit_all]. rewrite run_bind. unfold emit at 1. unfold run at 1.
    rewrite IH. unfold log. now rewrite logs_logs.
Qed.

Lemma run_fs_exists (p : string) (w : world) :
  run (fs_exists p) w = (Ok (exists_b w p), logs [EvExists p] w).
Proof. reflexivity. Qed.

Lemma run_fs_getdir (p : string) (w : world) :
  run (fs_getdir p) w = (Ok (getdir w p), logs [EvIsDir p] w).
Proof. reflexivity. Qed.

Lemma run_fs_listdir (p : string) (w : world) :
  run (fs_listdir p) w = (listdir w p, logs [EvListDir p] w).
Proof. reflexivity. Qed.

Lemma run_fs_remove_dir (p : string) (w : world) :
  run (fs_remove_dir p) w = (Ok tt, logs [EvRemoveDir p] (remove_tree p w)).
Proof. reflexivity. Qed.

Lemma run_collect_schema (p : plan) (w : world) :
  run (collect_schema p) w =
  (rbind (eval (files w) p) (fun df => Ok (schema df)),
   logs (map EvReadSchema (sources p)) w).
Proof.
  unfold collect_schema. rewrite run_bind, run_emit_all. reflexivity.
Qed.

Lemma run_collect (p : plan) (w : world) :
  run (collect p) w = (eval (files w) p, logs (map EvReadRows (sources p)) w).
Proof.
  unfold collect. rewrite run_bind, run_emit_all. reflexivity.
Qed.

Lemma write_partition_logs df path pcols evs w k :
  write_partition df path pcols (logs evs w) k =
  logs evs (write_partition df path pcols w k).
Proof. reflexivity. Qed.

Lemma write_dataset_logs df path pcols evs w :
  write_dataset df path pcols (logs evs w) =
  logs evs (write_dataset df path pcols w).
Proof.
  unfold write_dataset. destruct pcols as [| c pcols]; [reflexivity |].
  generalize (nodup_rows (map (project (schema df) (c :: pcols)) (rows df))).
  intros ks. revert w. induction ks as [| k ks IH]; intros w; [reflexivity |].
  cbn [fold_left]. rewrite write_partition_logs. apply IH.
Qed.

Lemma run_df_write_parquet df path compression pcols w :
  run (df_write_parquet df path compression pcols) w =
  (Ok tt, logs [EvWrite path df compression pcols]
               (write_dataset df path pcols w)).
Proof.
  unfold df_write_parquet. rewrite run_bind. unfold emit, run, log.
  now rewrite write_dataset_logs.
Qed.

Lemma run_check_path_suffix (path : string) (w : world) :
  exists_b w path = true ->
  run (check_path_suffix path) w =
  (Ok (path_suffix w path), logs (listing path) w).
Proof.
  intros Hex. unfold path_suffix, listing.
  unfold check_path_suffix.
  destruct (ends_with_slash path); cbn [negb].
  - rewrite run_ret. cbn. now rewrite logs_nil.
  - fold (run (bind (fs_listdir path)
       (fun files0 => ret (if (0 <? List.length
            (if contains S3_PREFIX path &&
                existsb (String.eqb (drop_prefix_length S3_PREFIX path)) files0
             then remove_first (drop_prefix_length S3_PREFIX path) files0
             else files0))%nat then (path ++ "/")%string else path))) w).
    rewrite run_bind, run_fs_listdir.
    unfold listdir. unfold exists_b in Hex.
    destruct (is_file w path); [reflexivity |].
    cbn in Hex. rewrite Hex. reflexivity.
Qed.

Lemma run_scan_parquet (path : string) (w : world) :
  exists_b w path = true ->
  run (scan_parquet path) w =
  (Ok (ScanParquet (path_suffix w path)), logs (listing path) w).
Proof.
  intros Hex. unfold scan_parquet.
  rewrite run_bind, (run_check_path_suffix path w Hex). reflexivity.
Qed.

(** ** The sanitizer on tables *)

Lemma castable_sanitized (t t' : dtype) :
  remove_empty_structs t = (Some t', false) -> castable t t' = true.
Proof.
  revert t'.
  induction t as [k | inner IH | fs IH] using dtype_induction; intros t' Ht.
  - cbn in Ht. injection Ht as <-. reflexivity.
  - rewrite remove_empty_structs_list in Ht.
    destruct (result_shape inner) as [E | [i' E]]; rewrite E in Ht;
      [discriminate |].
    cbn in Ht. injection Ht as <-. cbn. now apply IH.
  - rewrite remove_empty_structs_struct_closed in Ht.
    destruct (forallb (fun f => is_empty (snd f)) fs); [discriminate |].
    injection Ht as <-. reflexivity.
Qed.

Lemma analyse_fold (s : fields) (acc : fields) (cs : list string) :
  fold_left analyse_step s (acc, cs) =
  (assign_all (to_cast s) acc, cs ++ keys (to_cast s)).
Proof.
  revert acc cs. induction s as [| [n t] s IH]; intros acc cs.
  - cbn. now rewrite app_nil_r.
  - cbn [fold_left]. unfold analyse_step at 2. unfold to_cast.
    cbn [flat_map fst snd].
    destruct (result_shape t) as [-> | [t' ->]].
    + cbn [app]. apply IH.
    + destruct (negb (pl.dtype_eqb t' t)).
      * rewrite IH. unfold assign_all, keys, to_cast.
        cbn [app fold_left map fst snd]. now rewrite <- app_assoc.
      * cbn [app]. apply IH.
Qed.

Lemma to_cast_keys_incl (s : fields) (c : string) :
  In c (keys (to_cast s)) -> In c (keys s).
Proof.
  induction s as [| [n t] s IH]; [tauto |].
  unfold to_cast, keys in *. cbn [flat_map map fst snd].
  rewrite map_app, in_app_iff. intros [H | H]; [| right; now apply IH].
  destruct (remove_empty_structs t) as [[t' |] [|]]; cbn in H; try tauto.
  destruct (negb (pl.dtype_eqb t' t)); cbn in H; [| tauto].
  destruct H as [<- | []]. now left.
Qed.

Lemma to_cast_NoDup (s : fields) : NoDup (keys s) -> NoDup (keys (to_cast s)).
Proof.
  induction s as [| [n t] s IH]; intros Hnd; [constructor |].
  inversion Hnd as [| x l Hn Hnd']; subst.
  unfold to_cast, keys in *. cbn [flat_map map fst snd]. rewrite map_app.
  destruct (remove_empty_structs t) as [[t' |] [|]]; cbn [map app]; auto.
  destruct (negb (pl.dtype_eqb t' t)); cbn [map app fst]; auto.
  constructor; auto.
  intros Hin. apply Hn. apply to_cast_keys_incl. exact Hin.
Qed.

Lemma analyse_unique (s : fields) :
  NoDup (keys s) ->
  fold_left analyse_step s ([], []) = (to_cast s, keys (to_cast s)).
Proof.
  intros Hnd. rewrite analyse_fold. cbn [app].
  rewrite assign_all_fresh; [reflexivity |].
  cbn. now apply to_cast_NoDup.
Qed.

Lemma rbind_ok_r {A : Type} (r : result A) : rbind r (fun x => Ok x) = r.
Proof. now destruct r. Qed.

Lemma col_index_get (s : fields) (c : string) (i : nat) :
  col_index s c = Some i ->
  exists T, nth_error s i = Some (c, T) /\ dict_get c s = Some T.
Proof.
  revert i. induction s as [| [n T] s IH]; intros i; cbn; [discriminate |].
  destruct (String.eqb_spec n c) as [-> | Hne].
  - intros E. injection E as <-. now exists T.
  - destruct (col_index s c) as [j |]; cbn; [| discriminate].
    intros E. injection E as <-. cbn. now apply IH.
Qed.

Lemma dict_get_col_index {V : Type} (s : list (string * V)) (c : string) (T : V) :
  dict_get c s = Some T -> In c (keys s).
Proof.
  intros H. apply dict_mem_In. unfold dict_mem. now rewrite H.
Qed.

Lemma col_index_some (s : fields) (c : string) :
  In c (keys s) -> exists i, col_index s c = Some i.
Proof.
  induction s as [| [n T] s IH]; cbn; [tauto |].
  destruct (String.eqb_spec n c) as [-> | Hne]; [now exists 0%nat |].
  intros [H | H]; [contradiction |].
  destruct (IH H) as [i ->]. now exists (S i).
Qed.

Lemma retype_absent (s : fields) (c : string) (t : dtype) :
  ~ In c (keys s) -> retype s c t = s.
Proof.
  induction s as [| [n T] s IH]; [reflexivity |].
  cbn. intros Hn. destruct (String.eqb_spec n c) as [-> | Hne].
  - exfalso. apply Hn. now left.
  - f_equal. apply IH. tauto.
Qed.

Lemma set_nth_retype (s : fields) (c : string) (t : dtype) (i : nat) :
  NoDup (keys s) -> col_index s c = Some i -> set_nth i (c, t) s = retype s c t.
Proof.
  revert i. induction s as [| [n T] s IH]; intros i Hnd; cbn; [discriminate |].
  inversion Hnd as [| x l Hn Hnd']; subst.
  destruct (String.eqb_spec n c) as [-> | Hne].
  - intros E. injection E as <-. cbn. f_equal.
    symmetry. now apply retype_absent.
  - destruct (col_index s c) as [j |] eqn:Ej; cbn; [| discriminate].
    intros E. injection E as <-. cbn. f_equal. now apply IH.
Qed.

Lemma keys_retype (s : fields) (c : string) (t : dtype) :
  keys (retype s c t) = keys s.
Proof.
  unfold keys, retype. rewrite map_map. apply map_ext.
  intros [n T]. cbn. now destruct (String.eqb n c).
Qed.

Lemma dict_get_retype_other (s : fields) (c c' : string) (t : dtype) :
  c' <> c -> dict_get c' (retype s c t) = dict_get c' s.
Proof.
  intros Hne. unfold retype.
  induction s as [| [n T] s IH]; [reflexivity |].
  cbn [map fst]. destruct (String.eqb_spec n c) as [-> | Hn];
    cbn [dict_get fst].
  - destruct (String.eqb_spec c c'); [congruence | exact IH].
  - now rewrite IH.
Qed.

(** One cast of a column that is there and can be cast. *)
Lemma cast_column_ok (d : frame) (c : string) (t T : dtype) :
  NoDup (keys (schema d)) ->
  dict_get c (schema d) = Some T -> castable T t = true ->
  exists rows',
    cast_column d c t = Ok (Frame (retype (schema d) c t) rows') /\
    List.length rows' = List.length (rows d).
Proof.
  intros Hnd Hget Hc. unfold cast_column.
  destruct (col_index_some (schema d) c (dict_get_col_index _ _ _ Hget))
    as [i Hi].
  rewrite Hi. destruct (col_index_get _ _ _ Hi) as (T' & Hn & Hg).
  rewrite Hn. assert (T' = T) by congruence. subst T'. rewrite Hc.
  rewrite (set_nth_retype _ _ _ _ Hnd Hi).
  eexists. split; [reflexivity |]. now rewrite length_map.
Qed.

Lemma cast_each_ok (ns : fields) (cols : list string) :
  forall d,
    NoDup (keys (schema d)) -> NoDup cols ->
    (forall c, In c cols ->
               exists T, dict_get c (schema d) = Some T /\
                         castable T (type_of ns c) = true) ->
    exists rows',
      cast_each ns cols (Ok d) =
      Ok (Frame (fold_left (fun s c => retype s c (type_of ns c)) cols
                           (schema d)) rows') /\
      List.length rows' = List.length (rows d).
Proof.
  induction cols as [| c cols IH]; intros d Hnd Hcols Hall.
  - exists (rows d). destruct d. now cbn.
  - inversion Hcols as [| x l Hc Hcols']; subst.
    destruct (Hall c (or_introl eq_refl)) as (T & Hget & Hcast).
    destruct (cast_column_ok d c (type_of ns c) T Hnd Hget Hcast)
      as (rows1 & Hrun & Hlen).
    unfold cast_each in *. cbn [fold_left rbind]. rewrite Hrun.
    set (d1 := Frame (retype (schema d) c (type_of ns c)) rows1).
    destruct (IH d1) as (rows' & Hrun' & Hlen').
    + unfold d1. cbn [schema]. now rewrite keys_retype.
    + exact Hcols'.
    + intros c' Hin. destruct (Hall c' (or_intror Hin)) as (T' & Hg' & Hc').
      exists T'. split; [| exact Hc']. cbn.
      rewrite dict_get_retype_other; [exact Hg' |].
      intros ->. contradiction.
    + exists rows'. split; [exact Hrun' |].
      unfold d1 in Hlen'. cbn [rows] in Hlen'. congruence.
Qed.

Lemma eval_apply_steps (fs : list (string * file)) (ns : fields)
  (cols : list string) (p : plan) :
  eval fs (fold_left (apply_step ns) cols p) = cast_each ns cols (eval fs p).
Proof.
  revert p. induction cols as [| c cols IH]; intros p; [reflexivity |].
  unfold cast_each in *. cbn [fold_left]. rewrite IH. f_equal.
  unfold apply_step. cbn [eval cast_columns].
  destruct (eval fs p) as [d | e]; cbn [rbind]; [| reflexivity].
  apply rbind_ok_r.
Qed.

Lemma retype_fold (ns : fields) (cols : list string) (s : fields) :
  fold_left (fun s c => retype s c (type_of ns c)) cols s =
  map (fun f => if existsb (String.eqb (fst f)) cols
                then (fst f, type_of ns (fst f)) else f) s.
Proof.
  revert s. induction cols as [| c cols IH]; intros s.
  - cbn. symmetry. apply map_id.
  - cbn [fold_left]. rewrite IH. unfold retype. rewrite map_map.
    apply map_ext. intros [n T]. cbn [fst existsb].
    destruct (String.eqb_spec n c) as [-> | Hne]; cbn [fst orb].
    + now destruct (existsb (String.eqb c) cols).
    + reflexivity.
Qed.

Lemma to_cast_needs (s : fields) :
  to_cast s = flat_map (fun c => match needs_cast (snd c) with
                                 | Some t => [(fst c, t)]
                                 | None => []
                                 end) s.
Proof.
  unfold to_cast. apply flat_map_ext. intros [n T]. unfold needs_cast.
  cbn [fst snd].
  destruct (remove_empty_structs T) as [[t |] [|]]; try reflexivity.
  now destruct (negb (pl.dtype_eqb t T)).
Qed.

Lemma sanitized_type_needs (T : dtype) :
  sanitized_type T = match needs_cast T with Some t => t | None => T end.
Proof.
  unfold sanitized_type, needs_cast.
  destruct (remove_empty_structs T) as [[t |] [|]]; try reflexivity.
  destruct (pl.dtype_eqb t T) eqn:E; cbn [negb]; [| reflexivity].
  now apply dtype_eqb_eq.
Qed.

Lemma needs_cast_sanitized (T : dtype) : needs_cast (sanitized_type T) = None.
Proof.
  unfold sanitized_type.
  destruct (result_shape T) as [E | [t E]]; rewrite E.
  - unfold needs_cast. now rewrite E.
  - unfold needs_cast. rewrite (remove_empty_structs_idempotent T t E).
    now rewrite dtype_eqb_refl.
Qed.

Lemma to_cast_sanitized (s : fields) : to_cast (sanitized_schema s) = [].
Proof.
  rewrite to_cast_needs. unfold sanitized_schema.
  induction s as [| [n T] s IH]; [reflexivity |].
  cbn [map flat_map fst snd]. now rewrite needs_cast_sanitized, IH.
Qed.

Lemma dict_get_absent {V : Type} (c : string) (d : list (string * V)) :
  ~ In c (keys d) -> dict_get c d = None.
Proof.
  intros Hn. destruct (dict_get c d) as [v |] eqn:E; [| reflexivity].
  exfalso. apply Hn. eapply dict_get_col_index. exact E.
Qed.

Lemma dict_get_to_cast (s : fields) (n : string) (T : dtype) :
  NoDup (keys s) -> In (n, T) s -> dict_get n (to_cast s) = needs_cast T.
Proof.
  rewrite to_cast_needs.
  induction s as [| [n0 T0] s IH]; intros Hnd Hin; [contradiction |].
  inversion Hnd as [| x l Hn Hnd']; subst.
  cbn [flat_map fst snd]. destruct Hin as [E | Hin].
  - injection E as -> ->.
    destruct (needs_cast T) as [t |]; cbn [app dict_get].
    + now rewrite String.eqb_refl.
    + apply dict_get_absent. intros Hin. apply Hn.
      apply to_cast_keys_incl. now rewrite to_cast_needs.
  - assert (Hne : n0 <> n).
    { intros ->. apply Hn. change n with (fst (n, T)). now apply in_map. }
    destruct (needs_cast T0) as [t |]; cbn [app dict_get]; [| now apply IH].
    destruct (String.eqb_spec n0 n); [contradiction | now apply IH].
Qed.

Lemma existsb_keys {V : Type} (c : string) (d : list (string * V)) :
  existsb (String.eqb c) (keys d) = dict_mem c d.
Proof.
  unfold dict_mem. induction d as [| [k v] d IH]; [reflexivity |].
  cbn. rewrite (String.eqb_sym c k).
  destruct (String.eqb k c); [reflexivity | exact IH].
Qed.

Lemma sanitized_schema_closed (s : fields) :
  NoDup (keys s) ->
  fold_left (fun s' c => retype s' c (type_of (to_cast s) c))
            (keys (to_cast s)) s = sanitized_schema s.
Proof.
  intros Hnd. rewrite retype_fold. unfold sanitized_schema.
  apply map_ext_in. intros [n T] Hin. cbn [fst snd].
  rewrite existsb_keys. unfold dict_mem, type_of.
  rewrite (dict_get_to_cast s n T Hnd Hin), sanitized_type_needs.
  now destruct (needs_cast T).
Qed.

Lemma run_transform (p : plan) (w : world) :
  run (transform_data_removing_empty_structs p) w =
  (rbind (eval (files w) p) (fun d => Ok (sanitize_plan (schema d) p)),
   logs (map EvReadSchema (sources p)) w).
Proof.
  unfold transform_data_removing_empty_structs.
  rewrite run_bind, run_collect_schema.
  destruct (eval (files w) p) as [d | e]; cbn [rbind]; [| reflexivity].
  unfold sanitize_plan.
  destruct (fold_left analyse_step (schema d) ([], [])) as [ns cols].
  reflexivity.
Qed.

Lemma sanitize_eq (df : frame) :
  sanitize df = eval [] (sanitize_plan (schema df) (Lazy df)).
Proof.
  unfold sanitize. rewrite run_bind, run_transform. cbn [eval rbind files].
  rewrite run_collect. reflexivity.
Qed.

Lemma sanitize_plan_sources (s : fields) (p : plan) :
  sources (sanitize_plan s p) = sources p.
Proof.
  unfold sanitize_plan.
  generalize (snd (fold_left analyse_step s ([], []))).
  generalize (fst (fold_left analyse_step s ([], []))).
  intros ns cols. revert p.
  induction cols as [| c cols IH]; intros p; [reflexivity |].
  cbn [fold_left]. now rewrite IH.
Qed.

Lemma dict_get_In {V : Type} (s : list (string * V)) (n : string) (T : V) :
  NoDup (keys s) -> In (n, T) s -> dict_get n s = Some T.
Proof.
  induction s as [| [n0 T0] s IH]; intros Hnd Hin; [contradiction |].
  inversion Hnd as [| x l Hx Hnd']; subst. cbn.
  destruct Hin as [E | Hin].
  - injection E as -> ->. now rewrite String.eqb_refl.
  - destruct (String.eqb_spec n0 n) as [-> | Hne]; [| now apply IH].
    exfalso. apply Hx. change n with (fst (n, T)). now apply in_map.
Qed.

(** The sanitizer succeeds on every table with distinct column names; it
    keeps the columns and the number of rows, and gives each column its
    sanitized type. *)
Lemma sanitize_ok (df : frame) :
  unique_columns df ->
  exists rows',
    sanitize df = Ok (Frame (sanitized_schema (schema df)) rows') /\
    List.length rows' = List.length (rows df).
Proof.
  intros Hnd. unfold unique_columns in Hnd.
  rewrite sanitize_eq. unfold sanitize_plan.
  rewrite (analyse_unique _ Hnd). cbn [fst snd].
  rewrite eval_apply_steps. cbn [eval].
  destruct (cast_each_ok (to_cast (schema df)) (keys (to_cast (schema df))) df)
    as (rows' & Hrun & Hlen).
  - exact Hnd.
  - now apply to_cast_NoDup.
  - intros c Hin.
    assert (Hc : In c (keys (schema df))) by now apply to_cast_keys_incl.
    unfold keys in Hc. apply in_map_iff in Hc.
    destruct Hc as ([n T] & <- & HinT). cbn [fst] in *.
    exists T. split; [now apply dict_get_In |].
    unfold type_of. rewrite (dict_get_to_cast _ _ _ Hnd HinT).
    apply dict_mem_In in Hin. unfold dict_mem in Hin.
    rewrite (dict_get_to_cast _ _ _ Hnd HinT) in Hin.
    unfold needs_cast in *.
    destruct (remove_empty_structs T) as [[t |] [|]] eqn:E; try discriminate.
    destruct (negb (pl.dtype_eqb t T)); [| discriminate].
    now apply castable_sanitized.
  - exists rows'. split; [| exact Hlen].
    rewrite Hrun. now rewrite (sanitized_schema_closed _ Hnd).
Qed.

Lemma sanitized_schema_keys (s : fields) : keys (sanitized_schema s) = keys s.
Proof.
  unfold keys, sanitized_schema. rewrite map_map. now apply map_ext.
Qed.

(** A table whose schema is sanitized already is left as it is. *)
Lemma sanitize_fixed (df : frame) :
  to_cast (schema df) = [] -> sanitize df = Ok df.
Proof.
  intros H. rewrite sanitize_eq. unfold sanitize_plan.
  rewrite analyse_fold, H. reflexivity.
Qed.

(** C7. The sanitizer is idempotent.  On types: the type it gives for a
    type that is not empty is left as it is by a second pass.  On tables:
    on every table (with distinct column names) it gives a table, and
    sanitizing that table again gives the same table, schema and rows. *)
Theorem sanitize_idempotent (df : frame) (Hcols : unique_columns df) :
  (forall t t', remove_empty_structs t = (Some t', false) ->
                remove_empty_structs t' = (Some t', false)) /\
  exists df', sanitize df = Ok df' /\ sanitize df' = Ok df'.
Proof.
  split; [exact remove_empty_structs_idempotent |].
  destruct (sanitize_ok df Hcols) as (rows' & Hrun & _).
  eexists. split; [exact Hrun |].
  apply sanitize_fixed. cbn [schema]. apply to_cast_sanitized.
Qed.

(** The table with a nested empty struct: one pass, then nothing more. *)
Lemma sanitize_idempotent_witness :
  exists df', sanitize nested_table = Ok df' /\ sanitize df' = Ok df'.
Proof.
  apply (sanitize_idempotent nested_table).
  unfold unique_columns. cbn. repeat constructor; cbn; intuition discriminate.
Defined.

Example sanitize_nested_table :
  sanitize nested_table =
  Ok (Frame [("id", int64); ("info", pl.Struct [("name", utf8)]);
             ("meta", pl.Struct [])]
            [[VInt 1; VStruct [("name", VStr "n")]; VStruct []]]).
Proof. reflexivity. Qed.

(** ** The blocks of [write_parquet] *)

Lemma eval_sanitize_plan (fs : list (string * file)) (p : plan) (d : frame) :
  eval fs p = Ok d -> eval fs (sanitize_plan (schema d) p) = sanitize d.
Proof.
  intros Hp. rewrite sanitize_eq. unfold sanitize_plan.
  rewrite !eval_apply_steps. rewrite Hp. reflexivity.
Qed.

Lemma remove_tree_logs (p : string) (evs : list event) (w : world) :
  remove_tree p (logs evs w) = logs evs (remove_tree p w).
Proof. reflexivity. Qed.

(** Bring a world to the form [logs events disk]. *)
Ltac norm_logs :=
  repeat first [ rewrite remove_tree_logs
               | rewrite write_dataset_logs
               | rewrite logs_logs ];
  repeat (progress (rewrite <- ?app_assoc; cbn [app])).

(** The last lines of [write_parquet] on a plan. *)
Lemma run_materialize (p : plan) (path compression : string)
  (partition_cols : option (list string)) (w : world) :
  run (materialize p path compression partition_cols) w =
  let pcols := if given partition_cols then cols_of partition_cols else [] in
  match eval (files w) p with
  | Err e => (Err e, logs (map EvReadSchema (sources p)) w)
  | Ok d0 =>
      match sanitize d0 with
      | Err e => (Err e, logs (map EvReadSchema (sources p) ++
                               map EvReadRows (sources p)) w)
      | Ok d =>
          (Ok tt, logs (map EvReadSchema (sources p) ++
                        map EvReadRows (sources p) ++
                        [EvWrite path d compression pcols])
                       (write_dataset d path pcols w))
      end
  end.
Proof.
  unfold materialize. rewrite run_bind, run_transform.
  destruct (eval (files w) p) as [d0 | e] eqn:Hp; cbn [rbind]; [| reflexivity].
  rewrite run_bind, run_collect. rewrite sanitize_plan_sources.
  cbn [files logs]. rewrite (eval_sanitize_plan _ _ _ Hp).
  destruct (sanitize d0) as [d | e]; cbn zeta.
  - rewrite run_df_write_parquet, logs_logs.
    rewrite write_dataset_logs, logs_logs, <- app_assoc. reflexivity.
  - now rewrite logs_logs.
Qed.

Lemma path_suffix_disk (w w' : world) (path : string) :
  files w' = files w -> dirs w' = dirs w ->
  path_suffix w' path = path_suffix w path.
Proof.
  intros Hf Hd. unfold path_suffix, check_path_suffix.
  destruct (ends_with_slash path); [reflexivity |].
  cbn [negb]. unfold bind, fs_listdir, emit, bind, log, logs.
  unfold listdir, is_file, is_dir, entries. cbn [files dirs].
  rewrite Hf, Hd.
  destruct (dict_mem (norm path) (files w)); [reflexivity |].
  destruct (existsb (String.eqb (norm path)) (dirs w)); reflexivity.
Qed.

Lemma path_suffix_logs (evs : list event) (w : world) (path : string) :
  path_suffix (logs evs w) path = path_suffix w path.
Proof. now apply path_suffix_disk. Qed.

(** The probe, when the target is there but cannot be read. *)
Lemma run_probe_unreadable (path : string) (w : world) :
  exists_b w path = true ->
  read_dataset (files w) (path_suffix w path) = Err ComputeError ->
  run (probe_existing path) w =
  (Ok false,
   logs ([EvExists path] ++ listing path ++
         [EvReadSchema (path_suffix w path); EvRemoveDir path])
        (remove_tree path w)).
Proof.
  intros Hex Hread. unfold probe_existing.
  rewrite run_try_except, run_bind, run_fs_exists, Hex.
  rewrite !run_bind.
  rewrite (run_scan_parquet path (logs [EvExists path] w) Hex).
  rewrite run_collect_schema. cbn [eval files logs sources map].
  rewrite path_suffix_logs, Hread. cbn [rbind].
  rewrite run_bind, run_fs_remove_dir, run_ret.
  now norm_logs.
Qed.

(** ** An unreadable target *)


(** ** The probe and the comparison of schemas *)

Lemma exists_b_logs (evs : list event) (w : world) (p : string) :
  exists_b (logs evs w) p = exists_b w p.
Proof. reflexivity. Qed.

Lemma getdir_logs (evs : list event) (w : world) (p : string) :
  getdir (logs evs w) p = getdir w p.
Proof. reflexivity. Qed.

(** The probe, when the target is there and can be read. *)
Lemma run_probe_readable (path : string) (w : world) (existing : frame) :
  exists_b w path = true ->
  read_dataset (files w) (path_suffix w path) = Ok existing ->
  exists_b w (getdir w path) = true ->
  run (probe_existing path) w = (Ok true, logs (probe_events w path) w).
Proof.
  intros Hex Hread Hdir. unfold probe_existing, probe_events.
  rewrite run_try_except, run_bind, run_fs_exists, Hex.
  rewrite !run_bind.
  rewrite (run_scan_parquet path (logs [EvExists path] w) Hex).
  rewrite run_collect_schema. cbn [eval files logs sources map].
  rewrite path_suffix_logs, Hread. cbn [rbind].
  rewrite run_ret, run_bind, run_fs_getdir, run_bind, run_fs_exists.
  rewrite !getdir_logs, !exists_b_logs, Hdir. cbn [negb].
  rewrite run_bind, !run_ret. now norm_logs.
Qed.

(** The probe, when there is nothing at the target. *)
Lemma run_probe_absent (path : string) (w : world) :
  exists_b w path = false ->
  exists_b w (getdir w path) = true ->
  run (probe_existing path) w =
  (Ok false, logs [EvExists path; EvIsDir path; EvExists (getdir w path)] w).
Proof.
  intros Hex Hdir. unfold probe_existing.
  rewrite run_try_except, run_bind, run_fs_exists, Hex.
  rewrite run_bind, run_ret, run_bind, run_fs_getdir, run_bind, run_fs_exists.
  rewrite !getdir_logs, !exists_b_logs, Hdir. cbn [negb].
  rewrite run_bind, !run_ret. now norm_logs.
Qed.

Lemma schema_eqb_refl (s : fields) : schema_eqb s s = true.
Proof. now apply schema_eqb_eq. Qed.

(** The adjustment of an incoming table in memory touches nothing. *)
Lemma run_adjust_schema (df : frame) (es : fields) (w : world) :
  run (adjust_schema (Lazy df) es (schema df)) w = (Ok (adjusted df es), w).
Proof.
  unfold adjust_schema, adjusted. rewrite run_try_except.
  destruct (schema_eqb es (schema df)) eqn:E; cbn [negb].
  - now rewrite run_ret.
  - rewrite run_bind, run_collect_schema. cbn [eval sources map rbind].
    rewrite logs_nil.
    destruct (cast_columns df es) as [adj | e]; cbn [rbind].
    + now rewrite run_ret.
    + rewrite run_bind, run_collect_schema. cbn [eval sources map rbind].
      now rewrite logs_nil, run_ret.
Qed.

(** The lines before the branch on the mode, over readable data. *)
Lemma run_reconcile (df : frame) (path : string)
  (upsert_key partition_cols : option (list string))
  (overwrite_level : option level) (w : world) (existing : frame) :
  exists_b w path = true ->
  read_dataset (files w) (path_suffix w path) = Ok existing ->
  run (reconcile (Lazy df) (Lazy df) path upsert_key partition_cols
                 overwrite_level) w =
  run (dispatch (Lazy df) (fst (adjusted df (schema existing)))
                (ScanParquet (path_suffix w path))
                (snd (adjusted df (schema existing)))
                path upsert_key partition_cols overwrite_level)
      (logs (listing path ++ [EvReadSchema (path_suffix w path)]) w).
Proof.
  intros Hex Hread. unfold reconcile.
  rewrite run_bind, (run_scan_parquet path w Hex).
  rewrite run_bind, run_collect_schema. cbn [eval files logs sources map].
  rewrite Hread. cbn [rbind].
  rewrite run_bind, run_collect_schema. cbn [eval sources map rbind].
  rewrite logs_nil, run_bind, run_adjust_schema.
  destruct (adjusted df (schema existing)) as [lazy_df schemas_match].
  cbn [fst snd]. now norm_logs.
Qed.

(** [write_parquet] over readable data, up to the branch on the mode. *)
Lemma run_write_parquet_existing (df : frame) (path : string)
  (upsert_key : option (list string)) (compression : string)
  (partition_cols : option (list string)) (overwrite_level : option level)
  (w : world) (existing : frame) :
  exists_b w path = true ->
  read_dataset (files w) (path_suffix w path) = Ok existing ->
  exists_b w (getdir w path) = true ->
  run (write_parquet df path upsert_key compression partition_cols
                     overwrite_level) w =
  match run (dispatch (Lazy df) (fst (adjusted df (schema existing)))
                      (ScanParquet (path_suffix w path))
                      (snd (adjusted df (schema existing)))
                      path upsert_key partition_cols overwrite_level)
            (logs (reconcile_events w path) w) with
  | (Ok p, w') => run (materialize p path compression partition_cols) w'
  | (Err e, w') => (Err e, w')
  end.
Proof.
  intros Hex Hread Hdir. unfold write_parquet.
  rewrite run_bind, (run_probe_readable path w existing Hex Hread Hdir).
  rewrite run_bind.
  rewrite (run_reconcile df path upsert_key partition_cols overwrite_level
             (logs (probe_events w path) w) existing).
  - rewrite path_suffix_logs. unfold reconcile_events. now norm_logs.
  - exact Hex.
  - now rewrite path_suffix_logs.
Qed.

(** [write_parquet] when there is nothing at the target. *)
Lemma run_write_parquet_absent (df : frame) (path : string)
  (upsert_key : option (list string)) (compression : string)
  (partition_cols : option (list string)) (overwrite_level : option level)
  (w : world) :
  exists_b w path = false ->
  exists_b w (getdir w path) = true ->
  run (write_parquet df path upsert_key compression partition_cols
                     overwrite_level) w =
  run (materialize (Lazy df) path compression partition_cols)
      (logs [EvExists path; EvIsDir path; EvExists (getdir w path)] w).
Proof.
  intros Hex Hdir. unfold write_parquet.
  rewrite run_bind, (run_probe_absent path w Hex Hdir).
  now rewrite run_bind, run_ret.
Qed.


(** ** Columns that are empty structs *)


(** ** An empty upsert key *)

(** C10. With data at the target, [upsert_key = []] and no
    [overwrite_level], the call does not fail and deletes nothing, but the
    table it writes is the incoming table as it came, not the table
    adjusted to the schema on disk: here [id] is written as [Int32] although
    the adjusted table has it as [Int64]. *)
Theorem empty_upsert_key_writes_unadjusted :
  let incoming := Frame [("id", int32); ("v", utf8)] [[VInt 3; VStr "c"]] in
  eval [] (fst (adjusted incoming (schema letters))) =
    Ok (Frame [("id", int64); ("v", utf8)] [[VInt 3; VStr "c"]]) /\
  snd (adjusted incoming (schema letters)) = true /\
  run (write_parquet incoming "t.parquet" (Some []) "gzip" None None)
      letters_disk =
  (Ok tt,
   World [("t.parquet", Parquet incoming)] ["."] 0
         [EvExists "t.parquet"; EvListDir "t.parquet";
          EvReadSchema "t.parquet"; EvIsDir "t.parquet"; EvExists ".";
          EvListDir "t.parquet"; EvReadSchema "t.parquet";
          EvWrite "t.parquet" incoming "gzip" []]).
Proof. repeat split; vm_compute; reflexivity. Qed.

(** ** Partition overwrite without partition columns *)

Lemma run_dispatch_no_columns (df_to_write lazy_df df_existing : plan)
  (schemas_match : bool) (path : string)
  (upsert_key partition_cols : option (list string)) (w : world) :
  given partition_cols = false ->
  run (dispatch df_to_write lazy_df df_existing schemas_match path upsert_key
                partition_cols (Some Partition)) w =
  (Err no_partition_cols, w).
Proof. intros H. unfold dispatch. now rewrite H. Qed.




(** ** The order of events *)

Lemma staged_le ph lo hi evs : staged ph lo hi evs -> (lo <= hi)%nat.
Proof.
  revert lo. induction evs as [| ev evs IH]; intros lo; cbn; [auto |].
  intros [H1 H2]. apply IH in H2. lia.
Qed.

Lemma staged_lower ph lo lo' hi evs :
  (lo' <= lo)%nat -> staged ph lo hi evs -> staged ph lo' hi evs.
Proof. destruct evs; cbn; intros; [lia | intuition lia]. Qed.

Lemma staged_upper ph lo hi hi' evs :
  (hi <= hi')%nat -> staged ph lo hi evs -> staged ph lo hi' evs.
Proof.
  revert lo. induction evs as [| ev evs IH]; intros lo Hle; cbn; [lia |].
  intros [H1 H2]. split; [exact H1 | now apply IH].
Qed.

Lemma staged_app ph lo mid hi a b :
  staged ph lo mid a -> staged ph mid hi b -> staged ph lo hi (a ++ b).
Proof.
  revert lo. induction a as [| ev a IH]; intros lo; cbn.
  - intros Hle Hb. now apply (staged_lower ph mid lo).
  - intros [H1 H2] Hb. split; [exact H1 | now apply IH].
Qed.

Lemma staged_all ph k evs :
  Forall (fun ev => ph ev = k) evs -> staged ph k k evs.
Proof.
  induction 1 as [| ev evs He _ IH]; cbn; [lia |].
  rewrite He. split; [lia | exact IH].
Qed.

Lemma post_weaken {A : Type} (m : M A) (P Q : result A -> list event -> Prop) :
  post m P -> (forall r evs, P r evs -> Q r evs) -> post m Q.
Proof.
  intros Hm HPQ w. destruct (Hm w) as (evs & Ht & HP).
  exists evs. split; [exact Ht | now apply HPQ].
Qed.

Lemma post_ret {A : Type} (a : A) (Q : result A -> list event -> Prop) :
  Q (Ok a) [] -> post (ret a) Q.
Proof. intros HQ w. exists []. cbn. now rewrite app_nil_r. Qed.

Lemma post_raise {A : Type} (e : exn) (Q : result A -> list event -> Prop) :
  Q (Err e) [] -> post (raise e) Q.
Proof. intros HQ w. exists []. cbn. now rewrite app_nil_r. Qed.

Lemma post_bind {A B : Type} (m : M A) (f : A -> M B)
  (P : result A -> list event -> Prop) (Q : result B -> list event -> Prop) :
  post m P ->
  (forall a evs1, P (Ok a) evs1 ->
                  post (f a) (fun r evs2 => Q r (evs1 ++ evs2))) ->
  (forall e evs, P (Err e) evs -> Q (Err e) evs) ->
  post (bind m f) Q.
Proof.
  intros Hm Hf He w. rewrite run_bind.
  destruct (Hm w) as (evs1 & Ht1 & HP).
  destruct (run m w) as [[a | e] w1]; cbn [fst snd] in *.
  - destruct (Hf a evs1 HP w1) as (evs2 & Ht2 & HQ).
    exists (evs1 ++ evs2). split; [| exact HQ].
    now rewrite Ht2, Ht1, app_assoc.
  - exists evs1. split; [exact Ht1 | now apply He].
Qed.

Lemma post_try_except {A : Type} (m : M A) (h : exn -> M A)
  (P Q : result A -> list event -> Prop) :
  post m P ->
  (forall a evs, P (Ok a) evs -> Q (Ok a) evs) ->
  (forall e evs1, P (Err e) evs1 ->
                  post (h e) (fun r evs2 => Q r (evs1 ++ evs2))) ->
  post (try_except m h) Q.
Proof.
  intros Hm Hok Hh w. rewrite run_try_except.
  destruct (Hm w) as (evs1 & Ht1 & HP).
  destruct (run m w) as [[a | e] w1]; cbn [fst snd] in *.
  - exists evs1. split; [exact Ht1 | now apply Hok].
  - destruct (Hh e evs1 HP w1) as (evs2 & Ht2 & HQ).
    exists (evs1 ++ evs2). split; [| exact HQ].
    now rewrite Ht2, Ht1, app_assoc.
Qed.

(** What a run of one event followed by a pure step looks like. *)
Lemma post_event {A : Type} (ev : event) (k : world -> result A)
  (step : world -> world) (Q : result A -> list event -> Prop) :
  (forall w, trace (step w) = trace w) ->
  (forall r, Q r [ev]) ->
  post (emit ev ;;; fun w => (k w, step w))%writer Q.
Proof.
  intros Hstep HQ w. exists [ev]. split; [| apply HQ].
  cbn. now rewrite Hstep.
Qed.

Section Quiet.

Variable ph : event -> nat.
Hypothesis ph_exists : forall p, ph (EvExists p) = 0%nat.
Hypothesis ph_is_dir : forall p, ph (EvIsDir p) = 0%nat.
Hypothesis ph_list_dir : forall p, ph (EvListDir p) = 0%nat.
Hypothesis ph_mkdir : forall p, ph (EvMkdir p) = 0%nat.
Hypothesis ph_read_schema : forall p, ph (EvReadSchema p) = 0%nat.
Hypothesis ph_read_rows : forall p, ph (EvReadRows p) = 0%nat.

Lemma quiet_ret {A : Type} (a : A) : quiet ph (ret a).
Proof. apply post_ret. constructor. Qed.

Lemma quiet_raise {A : Type} (e : exn) : quiet ph (@raise A e).
Proof. apply post_raise. constructor. Qed.

Lemma quiet_bind {A B : Type} (m : M A) (f : A -> M B) :
  quiet ph m -> (forall a, quiet ph (f a)) -> quiet ph (bind m f).
Proof.
  intros Hm Hf. unfold quiet. eapply post_bind; [exact Hm | |].
  - intros a evs1 H1. eapply post_weaken; [apply Hf |].
    cbn. intros r evs2 H2. apply Forall_app. now split.
  - auto.
Qed.

Lemma quiet_try_except {A : Type} (m : M A) (h : exn -> M A) :
  quiet ph m -> (forall e, quiet ph (h e)) -> quiet ph (try_except m h).
Proof.
  intros Hm Hh. unfold quiet. eapply post_try_except; [exact Hm | auto |].
  intros e evs1 H1. eapply post_weaken; [apply Hh |].
  cbn. intros r evs2 H2. apply Forall_app. now split.
Qed.

Lemma quiet_event {A : Type} (ev : event) (k : world -> result A)
  (step : world -> world) :
  (forall w, trace (step w) = trace w) -> ph ev = 0%nat ->
  quiet ph (emit ev ;;; fun w => (k w, step w))%writer.
Proof.
  intros Hstep Hev. apply post_event; [exact Hstep |].
  intros _. now repeat constructor.
Qed.

Lemma quiet_fs_exists (p : string) : quiet ph (fs_exists p).
Proof.
  apply (quiet_event _ (fun w => Ok (exists_b w p)) (fun w => w)); auto.
Qed.

Lemma quiet_fs_getdir (p : string) : quiet ph (fs_getdir p).
Proof.
  apply (quiet_event _ (fun w => Ok (getdir w p)) (fun w => w)); auto.
Qed.

Lemma quiet_fs_listdir (p : string) : quiet ph (fs_listdir p).
Proof.
  apply (quiet_event _ (fun w => listdir w p) (fun w => w)); auto.
Qed.

Lemma quiet_fs_mkdir (p : string) : quiet ph (fs_mkdir p).
Proof.
  intros w. exists [EvMkdir p]. split; [| now repeat constructor].
  unfold fs_mkdir. rewrite run_bind. unfold emit, run, log.
  destruct (exists_b _ _); [reflexivity |].
  destruct (_ || _); reflexivity.
Qed.

Lemma quiet_fs_remove_dir (p : string) :
  ph (EvRemoveDir p) = 0%nat -> quiet ph (fs_remove_dir p).
Proof.
  intros H.
  apply (quiet_event _ (fun w => Ok tt) (fun w => remove_tree p w)); auto.
Qed.

Lemma quiet_collect_schema (p : plan) : quiet ph (collect_schema p).
Proof.
  intros w. rewrite run_collect_schema. eexists. split; [reflexivity |].
  cbn [fst]. apply Forall_forall. intros ev Hin.
  apply in_map_iff in Hin. destruct Hin as (s & <- & _). auto.
Qed.

Lemma quiet_collect (p : plan) : quiet ph (collect p).
Proof.
  intros w. rewrite run_collect. eexists. split; [reflexivity |].
  cbn [fst]. apply Forall_forall. intros ev Hin.
  apply in_map_iff in Hin. destruct Hin as (s & <- & _). auto.
Qed.

Lemma quiet_check_path_suffix (path : string) :
  quiet ph (check_path_suffix path).
Proof.
  unfold check_path_suffix. destruct (negb (ends_with_slash path)).
  - apply quiet_bind; [apply quiet_fs_listdir |].
    intros files. apply quiet_ret.
  - apply quiet_ret.
Qed.

Lemma quiet_scan_parquet (path : string) : quiet ph (scan_parquet path).
Proof.
  unfold scan_parquet. apply quiet_bind; [apply quiet_check_path_suffix |].
  intros s. apply quiet_ret.
Qed.

Lemma quiet_adjust_schema (lazy_df : plan) (es ns : fields) :
  quiet ph (adjust_schema lazy_df es ns).
Proof.
  unfold adjust_schema. apply quiet_try_except.
  - destruct (negb (schema_eqb es ns)); [| apply quiet_ret].
    apply quiet_bind; [apply quiet_collect_schema |].
    intros s. apply quiet_ret.
  - intros e. apply quiet_bind; [apply quiet_collect_schema |].
    intros s. apply quiet_ret.
Qed.

(** The [try] block of the probe only reads. *)
Lemma quiet_probe_try (path : string) :
  quiet ph
    (present <- fs_exists path ;;
     has_existing_data <-
       (if present then
          test_if_exists <- (s <- scan_parquet path ;; collect_schema s) ;;
          ret true
        else ret false) ;;
     currentDir <- fs_getdir path ;;
     dir_present <- fs_exists currentDir ;;
     (if negb dir_present then fs_mkdir currentDir else ret tt) ;;;
     ret has_existing_data)%writer.
Proof.
  apply quiet_bind; [apply quiet_fs_exists |]. intros present.
  apply quiet_bind.
  - destruct present; [| apply quiet_ret].
    apply quiet_bind; [| intros; apply quiet_ret].
    apply quiet_bind; [apply quiet_scan_parquet |].
    intros s. apply quiet_collect_schema.
  - intros h. apply quiet_bind; [apply quiet_fs_getdir |]. intros d.
    apply quiet_bind; [apply quiet_fs_exists |]. intros b.
    apply quiet_bind; [| intros; apply quiet_ret].
    destruct (negb b); [apply quiet_fs_mkdir | apply quiet_ret].
Qed.

(** When removals count as stage 0 too, the whole of the call before the
    write is of stage 0. *)
Hypothesis ph_remove : forall p, ph (EvRemoveDir p) = 0%nat.

Lemma quiet_probe_existing (path : string) : quiet ph (probe_existing path).
Proof.
  unfold probe_existing. apply quiet_try_except; [apply quiet_probe_try |].
  intros e. destruct e; try apply quiet_raise.
  apply quiet_bind; [now apply quiet_fs_remove_dir |].
  intros _. apply quiet_ret.
Qed.

Lemma quiet_remove_partitions (path : string) (cols : list string)
  (parts : list row) : quiet ph (remove_partitions path cols parts).
Proof.
  induction parts as [| k parts IH]; [apply quiet_ret |].
  cbn [remove_partitions]. apply quiet_bind; [apply quiet_fs_exists |].
  intros b. apply quiet_bind; [| intros; exact IH].
  destruct b; [now apply quiet_fs_remove_dir | apply quiet_ret].
Qed.

Lemma quiet_dispatch df_to_write lazy_df df_existing schemas_match path
  upsert_key partition_cols overwrite_level :
  quiet ph (dispatch df_to_write lazy_df df_existing schemas_match path
                     upsert_key partition_cols overwrite_level).
Proof.
  unfold dispatch. destruct overwrite_level as [[|] |].
  - destruct (negb (given partition_cols)); [apply quiet_raise |].
    apply quiet_bind; [apply quiet_collect |]. intros affected.
    apply quiet_bind; [apply quiet_remove_partitions |]. intros _.
    apply quiet_bind; [apply quiet_scan_parquet |]. intros ex.
    destruct (negb schemas_match); [| apply quiet_ret].
    apply quiet_bind; [apply quiet_collect |]. intros both.
    apply quiet_bind; [now apply quiet_fs_remove_dir |].
    intros _. apply quiet_ret.
  - apply quiet_bind; [now apply quiet_fs_remove_dir |].
    intros _. apply quiet_ret.
  - destruct (given upsert_key); [| apply quiet_ret].
    destruct (given partition_cols && schemas_match).
    + apply quiet_bind; [apply quiet_collect |]. intros affected.
      apply quiet_bind; [apply quiet_collect |]. intros adf.
      apply quiet_bind; [apply quiet_remove_partitions |]. intros _.
      apply quiet_ret.
    + apply quiet_bind; [apply quiet_collect |]. intros both.
      apply quiet_bind; [now apply quiet_fs_remove_dir |].
      intros _. apply quiet_ret.
Qed.

Lemma quiet_reconcile df_to_write lazy_df path upsert_key partition_cols
  overwrite_level :
  quiet ph (reconcile df_to_write lazy_df path upsert_key partition_cols
                      overwrite_level).
Proof.
  unfold reconcile. apply quiet_bind; [apply quiet_scan_parquet |]. intros ex.
  apply quiet_bind; [apply quiet_collect_schema |]. intros es.
  apply quiet_bind; [apply quiet_collect_schema |]. intros ns.
  apply quiet_bind; [apply quiet_adjust_schema |]. intros [lz sm].
  apply quiet_dispatch.
Qed.

End Quiet.

(** *** Stage functions of the two orders *)

Lemma trace_write_dataset df path pcols w :
  trace (write_dataset df path pcols w) = trace w.
Proof.
  unfold write_dataset. destruct pcols as [| c pcols]; [reflexivity |].
  generalize (nodup_rows (map (project (schema df) (c :: pcols)) (rows df))).
  intros ks. revert w. induction ks as [| k ks IH]; intros w; [reflexivity |].
  cbn [fold_left]. now rewrite IH.
Qed.

Lemma materialize_events (ph : event -> nat) (kw : nat) (p : plan)
  (path compression : string) (partition_cols : option (list string)) :
  (forall s, ph (EvReadSchema s) = 0%nat) ->
  (forall s, ph (EvReadRows s) = 0%nat) ->
  (forall q d c pc, ph (EvWrite q d c pc) = kw) ->
  post (materialize p path compression partition_cols)
       (fun _ evs => staged ph 0 kw evs /\
                     (sources p = [] -> forall lo, (lo <= kw)%nat ->
                                                   staged ph lo kw evs)).
Proof.
  intros Hs Hr Hw w. rewrite run_materialize. cbn zeta.
  assert (Hreads : forall l, Forall (fun ev => ph ev = 0%nat)
                                    (map EvReadSchema l)).
  { intros l. apply Forall_forall. intros ev Hin.
    apply in_map_iff in Hin. destruct Hin as (s & <- & _). auto. }
  assert (Hrows : forall l, Forall (fun ev => ph ev = 0%nat)
                                   (map EvReadRows l)).
  { intros l. apply Forall_forall. intros ev Hin.
    apply in_map_iff in Hin. destruct Hin as (s & <- & _). auto. }
  destruct (eval (files w) p) as [d0 | e].
  - destruct (sanitize d0) as [d | e].
    + eexists. split.
      { cbn [snd]. unfold logs. cbn [trace].
        now rewrite trace_write_dataset. }
      cbn [fst]. split.
      * apply (staged_app ph 0 0 kw); [apply staged_all, Hreads |].
        apply (staged_app ph 0 0 kw); [apply staged_all, Hrows |].
        cbn. rewrite Hw. lia.
      * intros -> lo Hlo. cbn. rewrite Hw. lia.
    + eexists. split; [reflexivity |]. cbn [fst]. split.
      * apply (staged_upper ph 0 0 kw); [lia |].
        apply staged_all, Forall_app. split; [apply Hreads | apply Hrows].
      * intros -> lo Hlo. cbn. lia.
  - eexists. split; [reflexivity |]. cbn [fst]. split.
    + apply (staged_upper ph 0 0 kw); [lia |]. apply staged_all, Hreads.
    + intros -> lo Hlo. cbn. lia.
Qed.

(** Whatever the mode, nothing follows the write and the write follows
    everything else. *)
Lemma write_is_last (df : frame) (path : string)
  (upsert_key : option (list string)) (compression : string)
  (partition_cols : option (list string)) (overwrite_level : option level) :
  post (write_parquet df path upsert_key compression partition_cols
                      overwrite_level)
       (fun _ evs => staged phase_write 0 1 evs).
Proof.
  unfold write_parquet.
  eapply post_bind; [apply (quiet_probe_existing phase_write); reflexivity | |].
  - intros b evs1 H1.
    eapply post_bind with
      (P := fun _ evs2 => Forall (fun ev => phase_write ev = 0%nat) evs2).
    + destruct b; [| apply quiet_ret].
      apply quiet_reconcile; reflexivity.
    + intros p evs2 H2.
      eapply post_weaken;
        [apply (materialize_events phase_write 1); reflexivity |].
      cbn beta. intros r evs3 [H3 _].
      apply (staged_app phase_write 0 0 1); [now apply staged_all |].
      apply (staged_app phase_write 0 0 1); [now apply staged_all | exact H3].
    + intros e evs2 H2.
      apply (staged_app phase_write 0 0 1); [now apply staged_all |].
      apply (staged_upper phase_write 0 0 1); [lia | now apply staged_all].
  - intros e evs H. apply (staged_upper phase_write 0 0 1); [lia |].
    now apply staged_all.
Qed.

Local Abbreviation prw := phase_read_remove_write.

Lemma quiet_staged (hi : nat) (evs : list event) :
  Forall (fun ev => prw ev = 0%nat) evs -> staged prw 0 hi evs.
Proof.
  intros H. apply (staged_upper prw 0 0 hi); [lia | now apply staged_all].
Qed.

(** The probe removes the target only when it answers that there is no
    data. *)
Lemma probe_existing_order (path : string) :
  post (probe_existing path)
       (fun r evs => match r with
                     | Ok true => Forall (fun ev => prw ev = 0%nat) evs
                     | _ => staged prw 0 1 evs
                     end).
Proof.
  unfold probe_existing.
  eapply post_try_except; [apply (quiet_probe_try prw); reflexivity | |].
  - intros [|] evs H; [exact H | now apply quiet_staged].
  - intros e evs1 H1.
    destruct e; try (apply post_raise; rewrite app_nil_r;
                     now apply quiet_staged).
    intros w. exists [EvRemoveDir path]. split; [reflexivity |].
    cbn [fst run bind fs_remove_dir emit ret].
    apply (staged_app prw 0 0 1); [now apply staged_all |].
    cbn. lia.
Qed.

(** The plan [adjust_schema] gives back for a table in memory reads no
    dataset. *)
Lemma adjust_schema_order (df : frame) (es ns : fields) :
  post (adjust_schema (Lazy df) es ns)
       (fun r evs => evs = [] /\
                     exists lz sm, r = Ok (lz, sm) /\ sources lz = []).
Proof.
  intros w. exists []. rewrite app_nil_r.
  unfold adjust_schema. rewrite run_try_except.
  destruct (negb (schema_eqb es ns)).
  - rewrite run_bind, run_collect_schema. cbn [eval sources map rbind].
    rewrite logs_nil.
    destruct (cast_columns df es) as [adj | e]; cbn [rbind].
    + rewrite run_ret. cbn. repeat split. eauto.
    + rewrite run_bind, run_collect_schema. cbn [eval sources map rbind].
      rewrite logs_nil, run_ret. cbn. repeat split. eauto.
  - rewrite run_ret. cbn. repeat split. eauto.
Qed.

(** The branches that do not go partition by partition: what is read is
    read before the one removal, and the plan given back reads nothing. *)
Lemma dispatch_order (df_to_write lazy_df df_existing : plan)
  (schemas_match : bool) (path : string)
  (upsert_key partition_cols : option (list string))
  (overwrite_level : option level) :
  partition_scoped upsert_key partition_cols overwrite_level = false ->
  sources df_to_write = [] -> sources lazy_df = [] ->
  post (dispatch df_to_write lazy_df df_existing schemas_match path
                 upsert_key partition_cols overwrite_level)
       (fun r evs => staged prw 0 1 evs /\
                     forall p, r = Ok p -> sources p = []).
Proof.
  intros Hscope Hw Hl. unfold dispatch, partition_scoped in *.
  destruct overwrite_level as [[|] |].
  - rewrite andb_true_r in Hscope. rewrite Hscope. cbn [negb].
    apply post_raise. split; [cbn; lia | discriminate].
  - intros w. exists [EvRemoveDir path]. split; [reflexivity |].
    cbn. split; [lia |]. intros p E. injection E as <-. exact Hl.
  - destruct (given upsert_key).
    + rewrite andb_true_r in Hscope. rewrite Hscope. cbn [andb].
      eapply post_bind; [apply (quiet_collect prw); reflexivity | |].
      * intros both evs1 H1 w. exists [EvRemoveDir path].
        split; [reflexivity |]. cbn [fst run bind fs_remove_dir emit ret].
        split.
        -- apply (staged_app prw 0 0 1); [now apply staged_all | cbn; lia].
        -- intros p E. now injection E as <-.
      * intros e evs H. split; [now apply quiet_staged | discriminate].
    + apply post_ret. split; [cbn; lia |].
      intros p E. now injection E as <-.
Qed.

Lemma reconcile_order (df : frame) (path : string)
  (upsert_key partition_cols : option (list string))
  (overwrite_level : option level) :
  partition_scoped upsert_key partition_cols overwrite_level = false ->
  post (reconcile (Lazy df) (Lazy df) path upsert_key partition_cols
                  overwrite_level)
       (fun r evs => staged prw 0 1 evs /\
                     forall p, r = Ok p -> sources p = []).
Proof.
  intros Hscope. unfold reconcile.
  assert (Hpre : forall (r : result plan) a b,
             Forall (fun ev => prw ev = 0%nat) a ->
             (staged prw 0 1 b /\ (forall p, r = Ok p -> sources p = [])) ->
             staged prw 0 1 (a ++ b) /\
             (forall p, r = Ok p -> sources p = [])).
  { intros r a b Ha [Hb Hr]. split; [| exact Hr].
    apply (staged_app prw 0 0 1); [now apply staged_all | exact Hb]. }
  assert (Herr : forall (e : exn) evs,
             Forall (fun ev => prw ev = 0%nat) evs ->
             staged prw 0 1 evs /\
             (forall p, @Err plan e = Ok p -> sources p = [])).
  { intros e evs H. split; [now apply quiet_staged | discriminate]. }
  eapply post_bind; [apply (quiet_scan_parquet prw); reflexivity | | exact Herr].
  intros ex evs1 H1.
  eapply post_bind;
    [apply (quiet_collect_schema prw); reflexivity | | intros; apply Hpre; auto].
  intros es evs2 H2.
  eapply post_bind;
    [apply (quiet_collect_schema prw); reflexivity
    | | intros; apply Hpre; auto; apply Hpre; auto].
  intros ns evs3 H3.
  eapply post_bind; [apply adjust_schema_order | |].
  - intros [lz sm] evs4 [-> (lz' & sm' & E & Hsrc)].
    injection E as <- <-.
    eapply post_weaken; [apply (dispatch_order (Lazy df) lz ex sm); auto |].
    cbn beta. intros r evs5 H5. cbn [app].
    repeat (apply Hpre; [assumption |]). exact H5.
  - intros e evs [_ (lz & sm & E & _)]. discriminate.
Qed.




(** ** The branches on the mode *)

Lemma eval_no_sources (fs : list (string * file)) (p : plan) :
  sources p = [] -> eval fs p = eval [] p.
Proof.
  induction p as [df | s | p IH c | p IH c | p IH | l IHl r IHr on h
                 | a IHa b IHb]; cbn [sources eval]; intros H.
  - reflexivity.
  - discriminate.
  - now rewrite IH.
  - now rewrite IH.
  - now rewrite IH.
  - apply app_eq_nil in H. destruct H as [Hl Hr].
    now rewrite IHl, IHr.
  - apply app_eq_nil in H. destruct H as [Ha Hb].
    now rewrite IHa, IHb.
Qed.

Lemma adjusted_sources (df : frame) (es : fields) :
  sources (fst (adjusted df es)) = [].
Proof.
  unfold adjusted. destruct (schema_eqb es (schema df)); [reflexivity |].
  now destruct (cast_columns df es).
Qed.

Lemma after_removals_logs path pcols parts evs w :
  after_removals path pcols parts (logs evs w) =
  logs evs (after_removals path pcols parts w).
Proof.
  revert w. induction parts as [| k parts IH]; intros w; [reflexivity |].
  cbn [after_removals]. rewrite exists_b_logs.
  destruct (exists_b w (partition_path path pcols k));
    rewrite ?remove_tree_logs; apply IH.
Qed.

Lemma removal_events_logs path pcols parts evs w :
  removal_events path pcols parts (logs evs w) =
  removal_events path pcols parts w.
Proof.
  revert w. induction parts as [| k parts IH]; intros w; [reflexivity |].
  cbn [removal_events]. rewrite exists_b_logs.
  destruct (exists_b w (partition_path path pcols k));
    rewrite ?remove_tree_logs; now rewrite IH.
Qed.

Lemma run_remove_partitions path pcols parts w :
  run (remove_partitions path pcols parts) w =
  (Ok tt, logs (removal_events path pcols parts w)
               (after_removals path pcols parts w)).
Proof.
  revert w. induction parts as [| k parts IH]; intros w.
  - cbn. now rewrite logs_nil.
  - cbn [remove_partitions after_removals removal_events].
    rewrite run_bind, run_fs_exists, run_bind.
    destruct (exists_b w (partition_path path pcols k)).
    + rewrite run_fs_remove_dir, IH.
      rewrite remove_tree_logs, !after_removals_logs, !removal_events_logs.
      now norm_logs.
    + rewrite run_ret, IH.
      rewrite !after_removals_logs, !removal_events_logs.
      now norm_logs.
Qed.

(** Full overwrite. *)
Lemma run_dispatch_full df_to_write lazy_df df_existing schemas_match path
  upsert_key partition_cols w :
  run (dispatch df_to_write lazy_df df_existing schemas_match path upsert_key
                partition_cols (Some Full)) w =
  (Ok lazy_df, logs [EvRemoveDir path] (remove_tree path w)).
Proof. reflexivity. Qed.

(** No mode and no upsert key: the table bound at the start. *)
Lemma run_dispatch_append df_to_write lazy_df df_existing schemas_match path
  upsert_key partition_cols w :
  given upsert_key = false ->
  run (dispatch df_to_write lazy_df df_existing schemas_match path upsert_key
                partition_cols None) w =
  (Ok df_to_write, w).
Proof. intros H. unfold dispatch. now rewrite H. Qed.

(** Upsert over the whole dataset. *)
Lemma run_dispatch_upsert_whole df_to_write lazy_df source schemas_match path
  upsert_key partition_cols w (inc existing both : frame) :
  given upsert_key = true ->
  given partition_cols && schemas_match = false ->
  sources lazy_df = [] ->
  eval [] lazy_df = Ok inc ->
  read_dataset (files w) source = Ok existing ->
  rbind (join existing inc (cols_of upsert_key) Anti) (concat inc) = Ok both ->
  run (dispatch df_to_write lazy_df (ScanParquet source) schemas_match path
                upsert_key partition_cols None) w =
  (Ok (Lazy both),
   logs [EvReadRows source; EvRemoveDir path] (remove_tree path w)).
Proof.
  intros Huk Hscope Hsrc Hinc Hex Hboth. unfold dispatch.
  rewrite Huk, Hscope. rewrite run_bind, run_collect.
  cbn [eval sources map]. rewrite Hsrc. cbn [app map].
  rewrite (eval_no_sources _ _ Hsrc), Hinc, Hex. cbn [rbind].
  destruct (join existing inc (cols_of upsert_key) Anti) as [surv | e];
    cbn [rbind] in *; [| discriminate].
  rewrite Hboth. rewrite run_bind, run_fs_remove_dir, run_ret.
  now norm_logs.
Qed.

(** Partition overwrite, the affected partitions removed. *)
Lemma run_dispatch_partition df_to_write lazy_df df_existing schemas_match
  path upsert_key partition_cols w (inc : frame) :
  given partition_cols = true ->
  sources lazy_df = [] ->
  eval [] lazy_df = Ok inc ->
  has_columns (schema inc) (cols_of partition_cols) = true ->
  let pcols := cols_of partition_cols in
  let parts := partitions_of inc pcols in
  let w1 := after_removals path pcols parts w in
  exists_b w1 path = true ->
  run (dispatch df_to_write lazy_df df_existing schemas_match path upsert_key
                partition_cols (Some Partition)) w =
  if schemas_match then
    (Ok lazy_df,
     logs (removal_events path pcols parts w ++ listing path) w1)
  else
    match rbind (read_dataset (files w1) (path_suffix w1 path)) (concat inc)
    with
    | Ok both =>
        (Ok (Lazy both),
         logs (removal_events path pcols parts w ++ listing path ++
               [EvReadRows (path_suffix w1 path); EvRemoveDir path])
              (remove_tree path w1))
    | Err e =>
        (Err e,
         logs (removal_events path pcols parts w ++ listing path ++
               [EvReadRows (path_suffix w1 path)]) w1)
    end.
Proof.
  intros Hpc Hsrc Hinc Hcols pcols parts w1 Hkeep. unfold dispatch.
  rewrite Hpc. cbn [negb]. rewrite run_bind, run_collect.
  cbn [eval sources map]. rewrite Hsrc. cbn [map].
  rewrite (eval_no_sources _ _ Hsrc), Hinc. cbn [rbind].
  unfold select. rewrite Hcols. cbn [rbind unique rows schema].
  rewrite logs_nil.
  fold pcols. fold (partitions_of inc pcols). fold parts.
  rewrite run_bind, run_remove_partitions. fold w1.
  rewrite run_bind, run_scan_parquet by (now rewrite exists_b_logs).
  rewrite path_suffix_logs.
  destruct schemas_match; cbn [negb].
  - rewrite run_ret. now norm_logs.
  - rewrite run_bind, run_collect. cbn [eval sources map files logs].
    rewrite Hsrc. cbn [app map].
    rewrite (eval_no_sources _ _ Hsrc), Hinc. cbn [rbind].
    destruct (read_dataset (files w1) (path_suffix w1 path)) as [rest | e];
      cbn [rbind].
    + destruct (concat inc rest) as [both | e].
      * rewrite run_bind, run_fs_remove_dir, run_ret. now norm_logs.
      * now norm_logs.
    + now norm_logs.
Qed.

(** ** Facts about the engine *)

Lemma union_schema_keys (a b u : fields) (c : string) :
  union_schema a b = Ok u ->
  (In c (keys u) <-> In c (keys a) \/ In c (keys b)).
Proof.
  revert a. induction b as [| [n t] b IH]; intros a; cbn [union_schema].
  - intros E. injection E as <-. cbn. tauto.
  - destruct (dict_get n a) as [t' |] eqn:Hget.
    + destruct (supertype t' t) as [s |]; [| discriminate].
      intros E. rewrite (IH _ E). rewrite dict_set_keys.
      assert (Hin : In n (keys a)) by (eapply dict_get_col_index; eauto).
      apply dict_mem_In in Hin as Hm. rewrite Hm.
      unfold keys in *. cbn [map fst In].
      split; [tauto |]. intros [H | [<- | H]]; tauto.
    + intros E. rewrite (IH _ E). unfold keys. rewrite map_app, in_app_iff.
      cbn. tauto.
Qed.

Lemma concat_columns (a b u : frame) (c : string) :
  concat a b = Ok u ->
  (In c (keys (schema u)) <->
   In c (keys (schema a)) \/ In c (keys (schema b))).
Proof.
  unfold concat.
  destruct (union_schema (schema a) (schema b)) as [s |] eqn:E;
    cbn [rbind]; [| discriminate].
  intros H. injection H as <-. cbn [schema]. now apply union_schema_keys.
Qed.

Lemma join_anti_schema (l r s : frame) (on : list string) :
  join l r on Anti = Ok s -> schema s = schema l.
Proof.
  unfold join. destruct (_ && _); [| discriminate].
  intros E. now injection E as <-.
Qed.

Lemma set_nth_keys (s : fields) (c : string) (t : dtype) (i : nat) :
  col_index s c = Some i -> keys (set_nth i (c, t) s) = keys s.
Proof.
  revert i. induction s as [| [n T] s IH]; intros i; cbn; [discriminate |].
  destruct (String.eqb_spec n c) as [-> | Hne].
  - intros E. now injection E as <-.
  - destruct (col_index s c) as [j |] eqn:Ej; cbn; [| discriminate].
    intros E. injection E as <-. cbn. f_equal. now apply IH.
Qed.

Lemma cast_column_keys (d d' : frame) (c : string) (t : dtype) :
  cast_column d c t = Ok d' -> keys (schema d') = keys (schema d).
Proof.
  unfold cast_column.
  destruct (col_index (schema d) c) as [i |] eqn:Hi; [| discriminate].
  destruct (nth_error (schema d) i) as [[n src] |]; [| discriminate].
  destruct (castable src t); [| discriminate].
  intros E. injection E as <-. cbn [schema]. now apply set_nth_keys.
Qed.

Lemma cast_each_keys (ns : fields) (cols : list string) (d d' : frame) :
  cast_each ns cols (Ok d) = Ok d' -> keys (schema d') = keys (schema d).
Proof.
  revert d. induction cols as [| c cols IH]; intros d; unfold cast_each in *;
    cbn [fold_left rbind].
  - intros E. now injection E as <-.
  - destruct (cast_column d c (type_of ns c)) as [d1 | e] eqn:E1.
    + intros E. rewrite (IH _ E). now apply cast_column_keys in E1.
    + intros E. exfalso. clear - E.
      induction cols as [| c' cols IH']; cbn in E; [discriminate | auto].
Qed.

(** The sanitizer keeps every column of the table. *)
Lemma sanitize_keys (df out : frame) :
  sanitize df = Ok out -> keys (schema out) = keys (schema df).
Proof.
  rewrite sanitize_eq. unfold sanitize_plan. rewrite eval_apply_steps.
  cbn [eval]. apply cast_each_keys.
Qed.

(** The last lines on a plan that reads no dataset. *)
Lemma run_materialize_pure (p : plan) (d0 out : frame) (path compression : string)
  (partition_cols : option (list string)) (w : world) :
  sources p = [] -> eval [] p = Ok d0 -> sanitize d0 = Ok out ->
  run (materialize p path compression partition_cols) w =
  (Ok tt,
   logs [EvWrite path out compression
                 (if given partition_cols then cols_of partition_cols else [])]
        (write_dataset out path
           (if given partition_cols then cols_of partition_cols else []) w)).
Proof.
  intros Hsrc Hp Hs. rewrite run_materialize. cbn zeta.
  rewrite (eval_no_sources _ _ Hsrc), Hp, Hs, Hsrc. reflexivity.
Qed.

(** When the casts to the schema on disk fail, the incoming table is kept
    as it came and the schemas are taken not to match. *)
Lemma adjusted_failed (df : frame) (es : fields) (e : exn) :
  schema_eqb es (schema df) = false ->
  cast_columns df es = Err e ->
  adjusted df es = (Lazy df, false).
Proof. intros H1 H2. unfold adjusted. now rewrite H1, H2. Qed.

(** ** The dataset directory outlives its partitions *)

Lemma given_cols (x : option (list string)) :
  given x = true -> cols_of x <> [].
Proof. destruct x as [[| c l] |]; cbn; congruence. Qed.


Lemma solid_append (a b : string) : solid (a ++ b) = (solid a + solid b)%nat.
Proof.
  induction a as [| c a IH]; cbn [String.append solid]; [reflexivity |].
  rewrite IH. lia.
Qed.

Lemma solid_collapse (s : string) : solid (collapse s) = solid s.
Proof.
  induction s as [| c s IH]; [reflexivity |].
  cbn [collapse]. destruct s as [| c' s']; [reflexivity |].
  destruct (is_slash c) eqn:Ec, (is_slash c') eqn:Ec'; cbn [andb].
  - rewrite IH. cbn [solid]. now rewrite Ec, Ec'.
  - cbn [solid]. rewrite Ec. now rewrite IH.
  - cbn [solid]. rewrite Ec. now rewrite IH.
  - cbn [solid]. rewrite Ec. now rewrite IH.
Qed.

Lemma solid_strip_trailing (s : string) : solid (strip_trailing s) = solid s.
Proof.
  induction s as [| c s IH]; [reflexivity |].
  cbn [strip_trailing solid]. rewrite <- IH.
  destruct (strip_trailing s) as [| d r]; [| reflexivity].
  destruct (is_slash c) eqn:Ec; cbn [solid]; now rewrite ?Ec.
Qed.

Lemma solid_norm (s : string) : s <> EmptyString -> solid (norm s) = solid s.
Proof.
  intros Hne. unfold norm.
  pose proof (solid_strip_trailing (collapse s)) as H.
  rewrite solid_collapse in H.
  destruct (strip_trailing (collapse s)) as [| d r]; [| exact H].
  destruct s; [congruence | exact H].
Qed.

Lemma prefix_solid (a f : string) :
  String.prefix a f = true -> (solid a <= solid f)%nat.
Proof.
  revert f. induction a as [| c a IH]; intros f; [cbn; lia |].
  destruct f as [| d f]; cbn; [discriminate |].
  destruct (ascii_dec c d) as [-> |]; [| discriminate].
  intros H. apply IH in H. lia.
Qed.

Lemma solid_concat_head (sep x : string) (l : list string) :
  (solid x <= solid (String.concat sep (x :: l)))%nat.
Proof.
  cbn [String.concat]. destruct l; [lia |].
  rewrite solid_append. lia.
Qed.

Lemma solid_partition_path (path : string) (pcols : list string) (k : row) :
  pcols <> [] ->
  (solid path + 1 <= solid (partition_path path pcols k))%nat.
Proof.
  intros Hne. destruct pcols as [| c pcols]; [congruence |].
  unfold partition_path, enumerate. cbn [enumerate_from map fst snd].
  rewrite !solid_append.
  match goal with
  | |- context [String.concat "/" (?x :: ?l)] =>
      pose proof (solid_concat_head "/" x l) as H
  end.
  rewrite !solid_append in H.
  change (solid "=") with 1%nat in H. change (solid "/") with 0%nat.
  lia.
Qed.

Lemma collapse_head (r : string) :
  exists t, collapse (String "/" r) = String "/" t.
Proof.
  induction r as [| c r IH]; [now exists EmptyString |].
  cbn [collapse]. destruct (is_slash "/" && is_slash c) eqn:E.
  - apply andb_true_iff in E. destruct E as [_ E].
    unfold is_slash in E. apply Ascii.eqb_eq in E. subst c. exact IH.
  - eexists. reflexivity.
Qed.

(** The directory of a partition is never the dataset directory nor above
    it. *)
Lemma dataset_not_under_partition (path : string) (pcols : list string)
  (k : row) :
  pcols <> [] -> under (partition_path path pcols k) (norm path) = false.
Proof.
  intros Hne. set (q := partition_path path pcols k).
  pose proof (solid_partition_path path pcols k Hne) as Hq. fold q in Hq.
  assert (Hqne : q <> EmptyString).
  { intros E. rewrite E in Hq. cbn in Hq. lia. }
  pose proof (solid_norm q Hqne) as Hnq.
  unfold under.
  destruct (String.eqb (norm path) (norm q) ||
            String.prefix (norm q ++ "/") (norm path)) eqn:Hu; [| reflexivity].
  exfalso.
  assert (Hle : (solid (norm q) <= solid (norm path))%nat).
  { apply orb_true_iff in Hu. destruct Hu as [Hu | Hu].
    - apply String.eqb_eq in Hu. rewrite Hu. lia.
    - apply prefix_solid in Hu. rewrite solid_append in Hu. cbn in Hu. lia. }
  destruct path as [| a path'] eqn:Ep.
  - (* the working directory: the partition path starts at the root *)
    unfold q, partition_path in Hu, Hnq, Hq. cbn [String.append] in Hu, Hnq, Hq.
    match type of Hu with
    | context [norm (String "/" ?r)] => set (rest := r) in *
    end.
    destruct (collapse_head rest) as [t Ht].
    unfold norm in Hu, Hnq. rewrite Ht in Hu, Hnq.
    cbn [strip_trailing] in Hu, Hnq.
    destruct (strip_trailing t) as [| d r'] eqn:Est.
    + cbn in Hnq, Hq. rewrite <- Hnq in Hq. inversion Hq.
    + cbn in Hu. discriminate.
  - rewrite (solid_norm (String a path')) in Hle by discriminate. lia.
Qed.

Lemma dict_mem_filter {V : Type} (keep : string -> bool) (k : string)
  (l : list (string * V)) :
  keep k = true ->
  dict_mem k (filter (fun e => keep (fst e)) l) = dict_mem k l.
Proof.
  intros Hk. unfold dict_mem.
  induction l as [| [n v] l IH]; [reflexivity |].
  cbn [filter fst dict_get].
  destruct (String.eqb_spec n k) as [-> | Hne].
  - rewrite Hk. cbn [dict_get]. now rewrite String.eqb_refl.
  - destruct (keep n); cbn [dict_get]; [| exact IH].
    destruct (String.eqb_spec n k); [contradiction | exact IH].
Qed.

Lemma existsb_filter (keep : string -> bool) (k : string) (l : list string) :
  keep k = true ->
  existsb (String.eqb k) (filter keep l) = existsb (String.eqb k) l.
Proof.
  intros Hk. induction l as [| n l IH]; [reflexivity |].
  cbn [filter existsb].
  destruct (String.eqb_spec k n) as [<- | Hne].
  - rewrite Hk. cbn [existsb]. now rewrite String.eqb_refl.
  - destruct (keep n); cbn [existsb]; [| exact IH].
    destruct (String.eqb_spec k n); [contradiction | now rewrite IH].
Qed.

Lemma exists_b_remove_tree (q p : string) (w : world) :
  under q (norm p) = false ->
  exists_b (remove_tree q w) p = exists_b w p.
Proof.
  intros H. unfold exists_b, is_file, is_dir. cbn [files dirs remove_tree].
  rewrite (dict_mem_filter (fun f => negb (under q f)));
    [| now rewrite H].
  rewrite (existsb_filter (fun f => negb (under q f))); [| now rewrite H].
  reflexivity.
Qed.

(** Removing partitions leaves the dataset directory where it is. *)
Lemma exists_b_after_removals (path : string) (pcols : list string)
  (parts : list row) (w : world) :
  pcols <> [] ->
  exists_b (after_removals path pcols parts w) path = exists_b w path.
Proof.
  intros Hne. revert w.
  induction parts as [| k parts IH]; intros w; [reflexivity |].
  cbn [after_removals]. rewrite IH.
  destruct (exists_b w (partition_path path pcols k)); [| reflexivity].
  apply exists_b_remove_tree. now apply dataset_not_under_partition.
Qed.

(** ** A cast that fails *)


(** ** Casts leave the other columns alone *)

Lemma col_index_set_nth (s : fields) (c c' : string) (t : dtype) (i : nat) :
  col_index s c = Some i -> col_index (set_nth i (c, t) s) c' = col_index s c'.
Proof.
  revert i. induction s as [| [n T] s IH]; intros i; cbn; [discriminate |].
  destruct (String.eqb_spec n c) as [-> | Hne].
  - intros E. injection E as <-. reflexivity.
  - destruct (col_index s c) as [j |] eqn:Ej; cbn; [| discriminate].
    intros E. injection E as <-. cbn. now rewrite (IH j).
Qed.

Lemma nth_set_nth_other {A : Type} (i j : nat) (x d : A) (l : list A) :
  i <> j -> nth j (set_nth i x l) d = nth j l d.
Proof.
  revert i j. induction l as [| y l IH]; intros i j Hne; [now destruct i |].
  destruct i as [| i], j as [| j]; cbn; try reflexivity; try congruence.
  apply IH. congruence.
Qed.

Lemma cast_column_project (d d' : frame) (c : string) (t : dtype)
  (cols : list string) :
  cast_column d c t = Ok d' -> ~ In c cols ->
  map (project (schema d') cols) (rows d') =
  map (project (schema d) cols) (rows d).
Proof.
  intros E Hn. unfold cast_column in E.
  destruct (col_index (schema d) c) as [i |] eqn:Hi; [| discriminate].
  destruct (nth_error (schema d) i) as [[n src] |] eqn:Hnth; [| discriminate].
  destruct (castable src t); [| discriminate].
  injection E as <-. cbn [schema rows]. rewrite map_map.
  apply map_ext. intros r. unfold project. apply map_ext_in.
  intros c' Hin. unfold cell. rewrite (col_index_set_nth _ _ _ _ _ Hi).
  destruct (col_index (schema d) c') as [j |] eqn:Hj; [| reflexivity].
  apply nth_set_nth_other. intros ->.
  destruct (col_index_get _ _ _ Hi) as (T & H1 & _).
  destruct (col_index_get _ _ _ Hj) as (T' & H2 & _).
  assert (c = c') by congruence. subst. contradiction.
Qed.

Lemma cast_each_project (ns : fields) (cols casts : list string) (d d' : frame) :
  cast_each ns casts (Ok d) = Ok d' ->
  (forall c, In c cols -> ~ In c casts) ->
  map (project (schema d') cols) (rows d') =
  map (project (schema d) cols) (rows d).
Proof.
  revert d. induction casts as [| c casts IH]; intros d; unfold cast_each in *;
    cbn [fold_left rbind].
  - intros E _. now injection E as <-.
  - destruct (cast_column d c (type_of ns c)) as [d1 | e] eqn:E1.
    + intros E Hn. rewrite (IH _ E).
      * apply (cast_column_project _ _ _ _ _ E1).
        intros Hin. apply (Hn c Hin). now left.
      * intros c' Hin Hc. apply (Hn c' Hin). now right.
    + intros E. exfalso. clear - E.
      induction casts as [| c' casts IH']; cbn in E; [discriminate | auto].
Qed.

(** The sanitizer does not change the cells of the columns it does not
    cast. *)
Lemma sanitize_project (df out : frame) (cols : list string) :
  sanitize df = Ok out ->
  (forall c, In c cols -> ~ In c (keys (to_cast (schema df)))) ->
  map (project (schema out) cols) (rows out) =
  map (project (schema df) cols) (rows df).
Proof.
  rewrite sanitize_eq. unfold sanitize_plan. rewrite eval_apply_steps.
  cbn [eval]. rewrite analyse_fold. cbn [fst snd app].
  intros E Hn. now apply (cast_each_project _ _ _ _ _ E).
Qed.

Lemma sanitize_partitions (df out : frame) (cols : list string) :
  sanitize df = Ok out ->
  (forall c, In c cols -> ~ In c (keys (to_cast (schema df)))) ->
  partitions_of out cols = partitions_of df cols.
Proof.
  intros E Hn. unfold partitions_of. f_equal. now apply sanitize_project.
Qed.

(** ** What the removals and the writer leave in place *)

Lemma prefix_append (a b : string) : String.prefix a (a ++ b) = true.
Proof.
  induction a as [| c a IH]; cbn; [now destruct b |].
  destruct (ascii_dec c c); [exact IH | contradiction].
Qed.

Lemma append_assoc (a b c : string) :
  ((a ++ b) ++ c = a ++ (b ++ c))%string.
Proof.
  induction a as [| x a IH]; cbn [String.append]; [reflexivity |].
  now rewrite IH.
Qed.

Lemma prefix_refl (a : string) : String.prefix a a = true.
Proof.
  induction a as [| c a IH]; cbn; [reflexivity |].
  destruct (ascii_dec c c); [exact IH | contradiction].
Qed.

Lemma prefix_app_r (p s t : string) :
  String.prefix p s = true -> String.prefix p (s ++ t) = true.
Proof.
  revert s. induction p as [| c p IH]; intros s; [now destruct s, t |].
  destruct s as [| d s]; cbn; [discriminate |].
  destruct (ascii_dec c d); [apply IH | discriminate].
Qed.

Lemma prefix_comparable (a b f : string) :
  String.prefix a f = true -> String.prefix b f = true ->
  String.prefix a b = true \/ String.prefix b a = true.
Proof.
  revert a b. induction f as [| c f IH]; intros a b.
  - destruct a; [| discriminate]. intros _ _. left. now destruct b.
  - destruct a as [| x a]; [intros _ _; left; now destruct b |].
    destruct b as [| y b]; [intros _ _; now right |].
    cbn. destruct (ascii_dec x c) as [-> |]; [| discriminate].
    destruct (ascii_dec y c) as [-> |]; [| discriminate].
    destruct (ascii_dec c c); [apply IH | contradiction].
Qed.

(** Nothing lies under both of two directories that are apart. *)
Lemma under_apart (a b f : string) :
  apart a b = true -> under a f = true -> under b f = false.
Proof.
  unfold apart, under. intros Hap Ha.
  apply andb_true_iff in Hap. destruct Hap as [H1 H2].
  apply negb_true_iff in H1, H2.
  destruct (String.eqb f (norm b) || String.prefix (norm b ++ "/") f) eqn:Hb;
    [| reflexivity].
  exfalso.
  apply orb_true_iff in Ha, Hb.
  destruct Ha as [Ha | Ha], Hb as [Hb | Hb].
  - apply String.eqb_eq in Ha, Hb. subst f. rewrite Hb in H1.
    now rewrite prefix_refl in H1.
  - apply String.eqb_eq in Ha. subst f.
    apply (prefix_app_r _ _ "/") in Hb. congruence.
  - apply String.eqb_eq in Hb. subst f.
    apply (prefix_app_r _ _ "/") in Ha. congruence.
  - destruct (prefix_comparable _ _ _ Ha Hb); congruence.
Qed.

(** A file the writer puts into a directory lies under that directory. *)
Lemma under_new_file (dir name : string) :
  under dir (norm dir ++ "/" ++ name) = true.
Proof.
  unfold under. apply orb_true_iff. right.
  rewrite <- append_assoc. apply prefix_append.
Qed.

Lemma filter_dict_set {V : Type} (keep : string -> bool) (k : string) (v : V)
  (l : list (string * V)) :
  keep k = false ->
  filter (fun e => keep (fst e)) (dict_set k v l) =
  filter (fun e => keep (fst e)) l.
Proof.
  intros Hk. induction l as [| [k' v'] l IH]; cbn.
  - now rewrite Hk.
  - destruct (String.eqb_spec k' k) as [-> | Hne]; cbn.
    + now rewrite Hk.
    + now rewrite IH.
Qed.

Lemma filter_remove_tree (keep : string -> bool) (p : string) (w : world) :
  (forall f, under p f = true -> keep f = false) ->
  filter (fun e => keep (fst e)) (files (remove_tree p w)) =
  filter (fun e => keep (fst e)) (files w).
Proof.
  intros H. cbn [files remove_tree].
  induction (files w) as [| [f c] l IH]; [reflexivity |].
  cbn [filter fst]. destruct (under p f) eqn:E; cbn [negb filter fst].
  - now rewrite (H f E).
  - now rewrite IH.
Qed.

Lemma filter_after_removals (keep : string -> bool) path pcols parts w :
  (forall k f, In k parts ->
               under (partition_path path pcols k) f = true ->
               keep f = false) ->
  filter (fun e => keep (fst e))
         (files (after_removals path pcols parts w)) =
  filter (fun e => keep (fst e)) (files w).
Proof.
  revert w. induction parts as [| k parts IH]; intros w H; [reflexivity |].
  cbn [after_removals]. rewrite IH by (intros; eapply H; eauto; now right).
  destruct (exists_b w (partition_path path pcols k)); [| reflexivity].
  apply filter_remove_tree. intros f Hf. apply (H k f); [now left | exact Hf].
Qed.

Lemma filter_write_partitions (keep : string -> bool) df path pcols ks w :
  (forall k f, In k ks ->
               under (partition_path path pcols k) f = true ->
               keep f = false) ->
  filter (fun e => keep (fst e))
         (files (fold_left (write_partition df path pcols) ks w)) =
  filter (fun e => keep (fst e)) (files w).
Proof.
  revert w. induction ks as [| k ks IH]; intros w H; [reflexivity |].
  cbn [fold_left]. rewrite IH by (intros; eapply H; eauto; now right).
  cbn [files write_partition]. apply filter_dict_set.
  apply (H k); [now left | apply under_new_file].
Qed.

Lemma filter_write_dataset (keep : string -> bool) df path pcols w :
  pcols <> [] ->
  (forall k f, In k (partitions_of df pcols) ->
               under (partition_path path pcols k) f = true ->
               keep f = false) ->
  filter (fun e => keep (fst e)) (files (write_dataset df path pcols w))
  = filter (fun e => keep (fst e)) (files w).
Proof.
  intros Hne H. destruct pcols as [| c pcols]; [congruence |].
  now apply filter_write_partitions.
Qed.


Lemma removal_events_removals path pcols parts w p :
  In (EvRemoveDir p) (removal_events path pcols parts w) ->
  exists k, In k parts /\ p = partition_path path pcols k.
Proof.
  revert w. induction parts as [| k parts IH]; intros w; [intros [] |].
  cbn [removal_events]. intros [E | Hin]; [discriminate |].
  apply in_app_iff in Hin. destruct Hin as [Hin | Hin].
  - destruct (exists_b w (partition_path path pcols k)); [| destruct Hin].
    destruct Hin as [E | []]. injection E as <-.
    exists k. split; [now left | reflexivity].
  - destruct (IH _ Hin) as (k' & Hk & ->).
    exists k'. split; [now right | reflexivity].
Qed.

Lemma read_dataset_filter (fs fs' : list (string * file)) (source : string) :
  filter (fun e => under source (fst e)) fs' =
  filter (fun e => under source (fst e)) fs ->
  read_dataset fs' source = read_dataset fs source.
Proof. intros H. unfold read_dataset. now rewrite H. Qed.

(** ** Partition overwrite *)

Lemma reconcile_events_no_removal (w : world) (path p : string) :
  ~ In (EvRemoveDir p) (reconcile_events w path).
Proof.
  unfold reconcile_events, probe_events, listing.
  destruct (ends_with_slash path); cbn; intuition discriminate.
Qed.






(** ** Equality of values *)

Lemma value_induction (P : value -> Prop) :
  P VNull -> (forall z, P (VInt z)) -> (forall s, P (VStr s)) ->
  (forall b, P (VBool b)) ->
  (forall items, Forall P items -> P (VList items)) ->
  (forall items, Forall (fun f => P (snd f)) items -> P (VStruct items)) ->
  forall v, P v.
Proof.
  intros Hn Hi Hs Hb Hl Hst.
  fix IH 1.
  intros [| z | s | b | items | items].
  - exact Hn.
  - apply Hi.
  - apply Hs.
  - apply Hb.
  - apply Hl. induction items as [| x items IHi]; constructor.
    + apply IH.
    + exact IHi.
  - apply Hst. induction items as [| [n x] items IHi]; constructor.
    + apply IH.
    + exact IHi.
Qed.

Lemma value_eqb_eq (a b : value) : value_eqb a b = true <-> a = b.
Proof.
  revert b.
  induction a as [| z | s | x | items IH | items IH] using value_induction;
    intros b; destruct b as [| z' | s' | x' | items' | items']; cbn;
    try (split; congruence).
  - rewrite Z.eqb_eq. split; congruence.
  - rewrite String.eqb_eq. split; congruence.
  - rewrite Bool.eqb_true_iff. split; congruence.
  - revert items'. induction IH as [| v items Hv _ IHi]; intros items'.
    + destruct items'; split; congruence.
    + destruct items' as [| v' items']; [split; congruence |].
      rewrite andb_true_iff, Hv, IHi. split.
      * intros [-> E]. congruence.
      * intros E. injection E as -> ->. auto.
  - revert items'. induction IH as [| [n v] items Hv _ IHi]; intros items'.
    + destruct items'; split; congruence.
    + destruct items' as [| [n' v'] items']; [split; congruence |].
      rewrite !andb_true_iff, String.eqb_eq. cbn [snd] in Hv.
      rewrite Hv, IHi. split.
      * intros [[-> ->] E]. congruence.
      * intros E. injection E as -> -> ->. auto.
Qed.

Lemma row_eqb_eq (a b : row) : row_eqb a b = true <-> a = b.
Proof.
  revert b. induction a as [| x a IH]; intros [| y b]; cbn;
    try (split; congruence).
  rewrite andb_true_iff, value_eqb_eq, IH.
  split; [intros [-> ->]; reflexivity | intros E; injection E; auto].
Qed.

(** Equal keys without a null match. *)
Lemma key_match_same (k : row) :
  forallb (fun v => negb (is_null v)) k = true -> key_match k k = true.
Proof.
  intros H. unfold key_match. rewrite H. now apply row_eqb_eq.
Qed.

Lemma key_match_eq (k k' : row) : key_match k k' = true -> k = k'.
Proof.
  unfold key_match. intros H. apply andb_true_iff in H.
  now apply row_eqb_eq.
Qed.

(** ** Joins and unions, row by row *)

Lemma join_anti_rows (l r s : frame) (on : list string) :
  join l r on Anti = Ok s ->
  schema s = schema l /\
  rows s = filter (survives l r on) (rows l) /\
  has_columns (schema l) on = true /\ has_columns (schema r) on = true.
Proof.
  unfold join.
  destruct (has_columns (schema l) on) eqn:Hl; [| discriminate].
  destruct (has_columns (schema r) on) eqn:Hr; [| discriminate].
  cbn [andb]. intros E. injection E as <-. cbn [schema rows].
  repeat split. apply filter_ext. intros x. unfold survives.
  induction (rows r) as [| y ys IH]; [reflexivity |].
  cbn [filter forallb].
  destruct (key_match (project (schema l) on x) (project (schema r) on y));
    [reflexivity | exact IH].
Qed.

Lemma concat_rows (a b u : frame) :
  concat a b = Ok u ->
  rows u = map (relayout (schema a) (schema u)) (rows a) ++
           map (relayout (schema b) (schema u)) (rows b).
Proof.
  unfold concat.
  destruct (union_schema (schema a) (schema b)) as [s |]; cbn [rbind];
    [| discriminate].
  intros E. now injection E as <-.
Qed.

Lemma cell_relayout (src u : fields) (r : row) (c : string) :
  In c (keys u) ->
  cell u (relayout src u r) c = cast_value (type_of u c) (cell src r c).
Proof.
  intros Hin. destruct (col_index_some u c Hin) as [i Hi].
  destruct (col_index_get u c i Hi) as (T & Hn & Hg).
  unfold cell at 1. rewrite Hi. unfold type_of. rewrite Hg.
  unfold relayout.
  apply (map_nth_error (fun f => cast_value (snd f) (cell src r (fst f)))) in Hn.
  now apply (nth_error_nth _ _ VNull) in Hn.
Qed.

Lemma cast_value_prim (k : pl.prim) (v : value) :
  cast_value (pl.Prim k) v = v.
Proof. reflexivity. Qed.

Lemma dict_get_mem_In {V : Type} (s : list (string * V)) (c : string) (t : V) :
  dict_get c s = Some t -> In (c, t) s.
Proof.
  induction s as [| [n T] s IH]; cbn; [discriminate |].
  destruct (String.eqb_spec n c) as [-> | Hne].
  - intros E. injection E as ->. now left.
  - intros E. right. now apply IH.
Qed.

Lemma type_of_primitive (s : fields) (cols : list string) (c : string) :
  primitive_columns s cols -> In c cols -> In c (keys s) ->
  exists k, type_of s c = pl.Prim k.
Proof.
  intros Hp Hc Hin. unfold type_of.
  apply dict_mem_In in Hin. unfold dict_mem in Hin.
  destruct (dict_get c s) as [t |] eqn:E; [| discriminate].
  apply (Hp c t Hc). now apply dict_get_mem_In.
Qed.

(** Laying a row out along the schema of the union keeps its key. *)
Lemma project_relayout (src u : fields) (cols : list string) (r : row) :
  primitive_columns u cols ->
  (forall c, In c cols -> In c (keys u)) ->
  project u cols (relayout src u r) = project src cols r.
Proof.
  intros Hp Hin. unfold project. apply map_ext_in. intros c Hc.
  rewrite cell_relayout by auto.
  destruct (type_of_primitive u cols c Hp Hc (Hin c Hc)) as [k ->].
  apply cast_value_prim.
Qed.

Lemma has_columns_In (s : fields) (cols : list string) (c : string) :
  has_columns s cols = true -> In c cols -> In c (keys s).
Proof.
  unfold has_columns. intros H Hc.
  apply dict_mem_In. now apply (proj1 (forallb_forall _ _) H).
Qed.

Lemma primitive_not_cast (s : fields) (cols : list string) (c : string) :
  primitive_columns s cols -> In c cols -> ~ In c (keys (to_cast s)).
Proof.
  intros Hp Hc Hin. rewrite to_cast_needs in Hin.
  unfold keys in Hin. apply in_map_iff in Hin.
  destruct Hin as ([n t] & <- & Hin). cbn [fst] in *.
  apply in_flat_map in Hin. destruct Hin as ([n' T] & HinT & Hx).
  cbn [fst snd] in Hx.
  destruct (needs_cast T) as [t' |] eqn:E; [| destruct Hx].
  destruct Hx as [Ex | []]. injection Ex as <- <-.
  destruct (Hp n' T Hc HinT) as [k ->].
  unfold needs_cast in E. cbn [remove_empty_structs] in E.
  now rewrite dtype_eqb_refl in E.
Qed.

(** Keys that are distinct stay distinct when rows are dropped. *)
Lemma distinct_keys_filter {X K : Type} (key : X -> K) (keep : X -> bool) :
  forall xs : list X,
    NoDup (map key xs) -> NoDup (map key (filter keep xs)).
Proof.
  intros xs. induction xs as [| x xs IH]; cbn; [auto |].
  intros H. inversion H as [| y ys Hn Hnd]; subst.
  destruct (keep x); cbn; [| auto].
  constructor; [| auto].
  intros Hin. apply Hn. apply in_map_iff in Hin.
  destruct Hin as (z & <- & Hz). apply filter_In in Hz.
  apply in_map. tauto.
Qed.

Lemma survives_iff (existing inc : frame) (on : list string) (x : row) :
  forallb (fun v => negb (is_null v)) (project (schema existing) on x) = true ->
  (survives existing inc on x = true <->
   ~ In (project (schema existing) on x) (row_keys inc on)).
Proof.
  intros Hnn. unfold survives, row_keys. rewrite forallb_forall. split.
  - intros H Hin. apply in_map_iff in Hin. destruct Hin as (y & E & Hy).
    specialize (H y Hy). rewrite E in H.
    now rewrite (key_match_same _ Hnn) in H.
  - intros H y Hy. apply negb_true_iff.
    destruct (key_match _ _) eqn:E; [| reflexivity].
    exfalso. apply H. apply key_match_eq in E. rewrite E.
    now apply in_map.
Qed.

(** ** Upsert *)




(** * More of the file system and of the reader *)

(** ** Paths as strings *)

Lemma append_nil_r (a : string) : (a ++ "")%string = a.
Proof.
  induction a as [| c a IH]; cbn [String.append]; [reflexivity |].
  now rewrite IH.
Qed.

Lemma append_length (a b : string) :
  String.length (a ++ b) = (String.length a + String.length b)%nat.
Proof.
  induction a as [| c a IH]; cbn [String.append String.length]; [reflexivity |].
  now rewrite IH.
Qed.

Lemma append_inv_head (a b c : string) :
  (a ++ b = a ++ c)%string -> b = c.
Proof.
  induction a as [| x a IH]; cbn [String.append]; [auto |].
  intros H. inversion H. auto.
Qed.

Lemma prefix_split (a s : string) :
  String.prefix a s = true -> exists r, s = (a ++ r)%string.
Proof.
  revert s. induction a as [| c a IH]; intros s H.
  - exists s. reflexivity.
  - destruct s as [| d s]; [discriminate |]. cbn in H.
    destruct (ascii_dec c d) as [-> |]; [| discriminate].
    destruct (IH s H) as [r ->]. now exists r.
Qed.

Lemma prefix_cancel (a b c : string) :
  String.prefix (a ++ b) (a ++ c) = String.prefix b c.
Proof.
  induction a as [| x a IH]; cbn [String.append]; [reflexivity |].
  cbn [String.prefix]. destruct (ascii_dec x x); [exact IH | contradiction].
Qed.

Lemma prefix_app_l (a b x : string) :
  String.prefix (a ++ b) x = true -> String.prefix a x = true.
Proof.
  intros H. destruct (prefix_split _ _ H) as [r ->].
  rewrite append_assoc. apply prefix_append.
Qed.

Lemma prefix_length (a x : string) :
  String.prefix a x = true -> (String.length a <= String.length x)%nat.
Proof.
  intros H. destruct (prefix_split _ _ H) as [r ->].
  rewrite append_length. lia.
Qed.

Lemma strip_prefix_app (a s r : string) :
  strip_prefix a s = Some r -> s = (a ++ r)%string.
Proof.
  revert s. induction a as [| c a IH]; intros s H.
  - cbn in H. now inversion H.
  - destruct s as [| d s]; [discriminate |]. cbn in H.
    destruct (Ascii.eqb_spec c d) as [-> |]; [| discriminate].
    cbn [String.append]. now rewrite (IH _ H).
Qed.

Lemma strip_prefix_append (a r : string) :
  strip_prefix a (a ++ r) = Some r.
Proof.
  induction a as [| c a IH]; cbn; [reflexivity |].
  now rewrite Ascii.eqb_refl.
Qed.

(** *** The last slash of a path *)

Lemma before_last_slash_app (a b b1 : string) :
  before_last_slash b = Some b1 ->
  before_last_slash (a ++ b) = Some (a ++ b1)%string.
Proof.
  intros H. induction a as [| c a IH]; cbn [String.append]; [exact H |].
  cbn [before_last_slash]. now rewrite IH.
Qed.

Lemma before_last_slash_name (a t : string) :
  before_last_slash t = None ->
  before_last_slash (a ++ "/" ++ t) = Some a.
Proof.
  intros H.
  rewrite (before_last_slash_app a ("/" ++ t) "").
  - now rewrite append_nil_r.
  - cbn. now rewrite H.
Qed.

Lemma before_last_slash_split (s d : string) :
  before_last_slash s = Some d ->
  exists t, s = (d ++ "/" ++ t)%string /\ before_last_slash t = None.
Proof.
  revert d. induction s as [| c s IH]; intros d H; [discriminate |].
  cbn [before_last_slash] in H.
  destruct (before_last_slash s) as [d' |] eqn:E.
  - inversion H; subst d. destruct (IH d' eq_refl) as [t [-> Ht]].
    now exists t.
  - destruct (is_slash c) eqn:Ec; [| discriminate].
    inversion H; subst d. unfold is_slash in Ec.
    apply Ascii.eqb_eq in Ec. subst c. now exists s.
Qed.

Lemma slashless_app (a b : string) :
  before_last_slash (a ++ b) = None ->
  before_last_slash a = None /\ before_last_slash b = None.
Proof.
  induction a as [| c a IH]; cbn [String.append]; [auto |].
  cbn [before_last_slash].
  destruct (before_last_slash (a ++ b)) eqn:E; [discriminate |].
  destruct (IH eq_refl) as [Ha Hb]. rewrite Ha.
  destruct (is_slash c); [discriminate | auto].
Qed.

(** A name without a slash has no prefix that ends with one. *)
Lemma slashless_prefix (c x : string) :
  before_last_slash x = None -> String.prefix (c ++ "/") x = false.
Proof.
  intros Hx. destruct (String.prefix (c ++ "/") x) eqn:Hp; [| reflexivity].
  destruct (prefix_split _ _ Hp) as [r ->].
  apply slashless_app in Hx. destruct Hx as [Hx _].
  apply slashless_app in Hx. destruct Hx as [_ Hx]. discriminate.
Qed.

(** *** Normal forms *)

Lemma collapse_length (s : string) :
  (String.length (collapse s) <= String.length s)%nat.
Proof.
  induction s as [| c s IH]; [cbn; lia |].
  cbn [collapse]. destruct s as [| c' s']; [cbn; lia |].
  destruct (is_slash c && is_slash c'); cbn [String.length] in *; lia.
Qed.

Lemma strip_trailing_length (s : string) :
  (String.length (strip_trailing s) <= String.length s)%nat.
Proof.
  induction s as [| c s IH]; [cbn; lia |].
  cbn [strip_trailing]. destruct (strip_trailing s) as [| d r].
  - destruct (is_slash c); cbn [String.length] in *; lia.
  - cbn [String.length] in *. lia.
Qed.

Lemma strip_trailing_nil_head (c : ascii) (r : string) :
  strip_trailing (String c r) = "" -> is_slash c = true.
Proof.
  cbn [strip_trailing]. destruct (strip_trailing r); [| discriminate].
  destruct (is_slash c); [reflexivity | discriminate].
Qed.

Lemma strip_trailing_app (x y : string) :
  strip_trailing y <> "" ->
  strip_trailing (x ++ y) = (x ++ strip_trailing y)%string.
Proof.
  intros Hy. induction x as [| c x IH]; cbn [String.append]; [reflexivity |].
  cbn [strip_trailing]. rewrite IH.
  destruct (x ++ strip_trailing y)%string eqn:E; [| reflexivity].
  destruct x; [| discriminate]. cbn in E. congruence.
Qed.

Lemma slashless_head (c : ascii) (t : string) :
  before_last_slash (String c t) = None ->
  is_slash c = false /\ before_last_slash t = None.
Proof.
  cbn [before_last_slash]. destruct (before_last_slash t); [discriminate |].
  destruct (is_slash c); [discriminate | auto].
Qed.

Lemma strip_trailing_slashless (t : string) :
  before_last_slash t = None -> strip_trailing t = t.
Proof.
  induction t as [| c t IH]; [reflexivity |].
  intros H. apply slashless_head in H. destruct H as [Hc Ht].
  cbn [strip_trailing]. rewrite (IH Ht).
  destruct t; [now rewrite Hc | reflexivity].
Qed.

Lemma collapse_slashless (t : string) :
  before_last_slash t = None -> collapse t = t.
Proof.
  induction t as [| c t IH]; [reflexivity |].
  intros H. apply slashless_head in H. destruct H as [Hc Ht].
  cbn [collapse]. destruct t as [| c' t']; [reflexivity |].
  rewrite Hc. cbn [andb]. now rewrite (IH Ht).
Qed.

Lemma collapse_keeps_head (c : ascii) (s : string) :
  is_slash c = false -> exists r, collapse (String c s) = String c r.
Proof.
  intros Hc. cbn [collapse]. destruct s as [| c' s']; [now eexists |].
  rewrite Hc. cbn [andb]. now eexists.
Qed.

Lemma collapse_cons (a c : ascii) (s : string) :
  collapse (String a (String c s)) =
  if is_slash a && is_slash c then collapse (String c s)
  else String a (collapse (String c s)).
Proof. reflexivity. Qed.

Lemma strip_trailing_cons (c : ascii) (r : string) :
  strip_trailing (String c r) =
  match strip_trailing r with
  | EmptyString => if is_slash c then EmptyString else String c EmptyString
  | r' => String c r'
  end.
Proof. reflexivity. Qed.

(** A name put behind a path: the slashes in between become one. *)
Lemma collapse_app_name (p : string) (c : ascii) (t : string) :
  before_last_slash (String c t) = None ->
  collapse (p ++ String "/" (String c t)) =
  (strip_trailing (collapse p) ++ String "/" (String c t))%string.
Proof.
  intros Hname. pose proof (slashless_head _ _ Hname) as [Hc _].
  assert (Hbase : collapse (String "/" (String c t)) = String "/" (String c t)).
  { rewrite collapse_cons, Hc, andb_false_r.
    now rewrite (collapse_slashless _ Hname). }
  induction p as [| a p IH]; [exact Hbase |].
  destruct p as [| c1 p'].
  - (* one character *)
    cbn [String.append]. rewrite collapse_cons, Hbase.
    change (is_slash "/") with true. rewrite andb_true_r.
    change (collapse (String a "")) with (String a "").
    rewrite strip_trailing_cons. cbn [strip_trailing].
    destruct (is_slash a); reflexivity.
  - cbn [String.append] in *. rewrite !collapse_cons.
    destruct (is_slash a && is_slash c1) eqn:E.
    + exact IH.
    + rewrite IH. rewrite (strip_trailing_cons a).
      destruct (strip_trailing (collapse (String c1 p'))) as [| d r] eqn:Es;
        [| reflexivity].
      destruct (is_slash a) eqn:Ea; [| reflexivity].
      cbn [andb] in E.
      destruct (collapse_keeps_head c1 p' E) as [r Hr].
      rewrite Hr in Es. apply strip_trailing_nil_head in Es. congruence.
Qed.

Lemma strip_trailing_collapse_slash (d : string) :
  strip_trailing (collapse (d ++ "/")) = strip_trailing (collapse d).
Proof.
  induction d as [| a d IH]; [reflexivity |].
  destruct d as [| c' d'].
  - cbn [String.append]. rewrite collapse_cons.
    change (is_slash "/") with true. rewrite andb_true_r.
    destruct (is_slash a) eqn:Ea; cbn; rewrite ?Ea; reflexivity.
  - cbn [String.append] in *. rewrite !collapse_cons.
    destruct (is_slash a && is_slash c'); [exact IH |].
    rewrite !(strip_trailing_cons a). now rewrite IH.
Qed.

Lemma norm_not_nil (p : string) : norm p <> "".
Proof.
  unfold norm. destruct (strip_trailing (collapse p)); [| discriminate].
  destruct p; discriminate.
Qed.

(** The normal form of a path that is neither the working directory nor
    the root. *)
Lemma norm_proper (p : string) :
  is_root p = false -> norm p = strip_trailing (collapse p).
Proof.
  unfold is_root, norm. intros H.
  destruct (strip_trailing (collapse p)); [| reflexivity].
  destruct p; cbn in H; discriminate.
Qed.

Lemma norm_name_behind (p : string) (c : string) :
  c <> "" -> before_last_slash c = None ->
  norm (p ++ "/" ++ c) = (strip_trailing (collapse p) ++ "/" ++ c)%string.
Proof.
  intros Hne Hc. destruct c as [| x t]; [congruence |].
  assert (Hs : strip_trailing (String "/" (String x t))
               = String "/" (String x t)).
  { rewrite strip_trailing_cons, (strip_trailing_slashless _ Hc).
    reflexivity. }
  unfold norm. change ("/" ++ String x t)%string with (String "/" (String x t)).
  rewrite (collapse_app_name p x t Hc).
  rewrite strip_trailing_app; rewrite Hs; [| discriminate].
  destruct (strip_trailing (collapse p)); reflexivity.
Qed.

Lemma ends_with_slash_split (p : string) :
  ends_with_slash p = true -> exists d, p = (d ++ "/")%string.
Proof.
  unfold ends_with_slash. destruct (before_last_slash p) as [d |];
    [| discriminate].
  intros H. apply String.eqb_eq in H. now exists d.
Qed.

Lemma slashless_not_absolute (c : string) :
  before_last_slash c = None -> String.prefix "/" c = false.
Proof.
  intros H. destruct c as [| x t]; [reflexivity |].
  apply slashless_head in H. destruct H as [Hx _].
  cbn [String.prefix].
  destruct (ascii_dec "/" x) as [<- |]; [discriminate | reflexivity].
Qed.

(** The path [os.path.join] makes for an entry of a directory. *)
Lemma norm_os_path_join (p c : string) :
  is_root p = false -> c <> "" -> before_last_slash c = None ->
  norm (os_path_join p c) = (norm p ++ "/" ++ c)%string.
Proof.
  intros Hroot Hne Hc. unfold os_path_join.
  rewrite (slashless_not_absolute c Hc), (norm_proper p Hroot).
  destruct (String.eqb_spec p "") as [-> | Hp]; [discriminate |].
  cbn [orb]. destruct (ends_with_slash p) eqn:Es.
  - destruct (ends_with_slash_split p Es) as [d ->].
    rewrite strip_trailing_collapse_slash, append_assoc.
    now apply norm_name_behind.
  - now apply norm_name_behind.
Qed.

Lemma norm_trailing_slash (a : string) :
  a <> "" -> norm (a ++ "/") <> (a ++ "/")%string.
Proof.
  intros Ha E. unfold norm in E. rewrite strip_trailing_collapse_slash in E.
  pose proof (strip_trailing_length (collapse a)) as H1.
  pose proof (collapse_length a) as H2.
  destruct (strip_trailing (collapse a)) as [| d r] eqn:Es.
  - destruct a as [| a0 a']; [congruence |]. cbn in E.
    inversion E as [[Ea Et]]. destruct a'; discriminate Et.
  - rewrite E, append_length in H1. cbn [String.length] in H1. lia.
Qed.

(** ** Disks in good order *)

Lemma distinct_NoDup (l : list string) : distinct l = true -> NoDup l.
Proof.
  induction l as [| x l IH]; cbn [distinct]; [constructor |].
  intros H. apply andb_true_iff in H. destruct H as [Hx Hl].
  constructor; [| auto].
  intros Hin. apply negb_true_iff in Hx.
  assert (existsb (String.eqb x) l = true); [| congruence].
  apply existsb_exists. exists x. split; [exact Hin | apply String.eqb_refl].
Qed.

Lemma existsb_eqb_In (x : string) (l : list string) :
  existsb (String.eqb x) l = true <-> In x l.
Proof.
  rewrite existsb_exists. split.
  - intros [y [Hy E]]. apply String.eqb_eq in E. now subst.
  - intros H. exists x. split; [exact H | apply String.eqb_refl].
Qed.

Lemma well_formed_good_order (w : world) :
  well_formed w = true -> good_order w.
Proof.
  unfold well_formed. intros H. apply andb_true_iff in H.
  destruct H as [Hd Hall]. rewrite forallb_forall in Hall.
  constructor.
  - now apply distinct_NoDup.
  - intros e He. specialize (Hall e He). apply andb_true_iff in Hall.
    now apply String.eqb_eq.
  - intros e He. specialize (Hall e He). apply andb_true_iff in Hall.
    now apply existsb_eqb_In.
Qed.

Lemma is_dir_In (w : world) (p : string) :
  is_dir w p = true <-> In (norm p) (dirs w).
Proof. unfold is_dir. apply existsb_eqb_In. Qed.

Lemma is_file_In (w : world) (p : string) :
  is_file w p = true <-> In (norm p) (keys (files w)).
Proof. unfold is_file. apply dict_mem_In. Qed.

Lemma dir_is_entry (w : world) (d : string) :
  In d (dirs w) -> In d (entries w).
Proof. intros H. unfold entries. apply in_or_app. now right. Qed.

Lemma file_is_entry (w : world) (f : string) :
  In f (keys (files w)) -> In f (entries w).
Proof. intros H. unfold entries. apply in_or_app. now left. Qed.

(** A path is a file or a directory, not both. *)
Lemma file_not_dir (w : world) (e : string) :
  good_order w -> In e (keys (files w)) -> In e (dirs w) -> False.
Proof.
  intros [Hnd _ _] Hf Hd. unfold entries in Hnd.
  induction (keys (files w)) as [| x l IH]; [contradiction |].
  cbn [app] in Hnd. inversion Hnd as [| ? ? Hx Hl]; subst.
  destruct Hf as [-> | Hf]; [| auto].
  apply Hx. apply in_or_app. now right.
Qed.

(** *** The entries of a directory *)

Lemma child_name_entry (p e c : string) :
  child_name p e = Some c ->
  e = (norm p ++ "/" ++ c)%string /\ before_last_slash c = None.
Proof.
  unfold child_name.
  destruct (strip_prefix (norm p ++ "/") e) as [name |] eqn:E; [| discriminate].
  destruct (before_last_slash name) eqn:En; [discriminate |].
  intros H. inversion H; subst c. split; [| exact En].
  apply strip_prefix_app in E. now rewrite append_assoc in E.
Qed.

Lemma child_name_of (p c : string) :
  before_last_slash c = None ->
  child_name p (norm p ++ "/" ++ c) = Some c.
Proof.
  intros Hc. unfold child_name.
  rewrite <- append_assoc, strip_prefix_append. now rewrite Hc.
Qed.

Lemma children_In (p c : string) (l : list string) :
  In c (children p l) <-> exists e, In e l /\ child_name p e = Some c.
Proof.
  induction l as [| e l IH]; cbn [children].
  - split; [contradiction | intros [e [[] _]]].
  - destruct (child_name p e) as [name |] eqn:E.
    + cbn [In]. rewrite IH. split.
      * intros [Hn | [e' [He' Hc]]].
        -- exists e. split; [now left | congruence].
        -- exists e'. split; [now right | exact Hc].
      * intros [e' [[He' | He'] Hc]].
        -- left. congruence.
        -- right. now exists e'.
    + rewrite IH. split.
      * intros [e' [He' Hc]]. exists e'. split; [now right | exact Hc].
      * intros [e' [[He' | He'] Hc]]; [congruence | now exists e'].
Qed.

Lemma children_NoDup (p : string) (l : list string) :
  NoDup l -> NoDup (children p l).
Proof.
  induction 1 as [| e l He Hl IH]; cbn [children]; [constructor |].
  destruct (child_name p e) as [name |] eqn:E; [| exact IH].
  constructor; [| exact IH].
  rewrite children_In. intros [e' [He' Hc]].
  apply child_name_entry in E, Hc. destruct E as [-> _], Hc as [-> _].
  contradiction.
Qed.

(** The names [os.listdir] gives on a disk in good order. *)
Lemma child_is_entry (w : world) (p c : string) :
  good_order w -> In c (children p (entries w)) ->
  c <> "" /\ before_last_slash c = None /\
  In (norm p ++ "/" ++ c)%string (entries w).
Proof.
  intros Hw Hc. apply children_In in Hc. destruct Hc as [e [He Hc]].
  apply child_name_entry in Hc. destruct Hc as [-> Hc].
  split; [| split; [exact Hc | exact He]].
  intros ->. apply (entries_normal w Hw) in He.
  rewrite <- append_assoc, append_nil_r in He.
  exact (norm_trailing_slash (norm p) (norm_not_nil p) He).
Qed.

Lemma parent_of_child (p c : string) :
  before_last_slash c = None ->
  norm (norm p ++ "/" ++ c) = (norm p ++ "/" ++ c)%string ->
  pathlib_parent (norm p ++ "/" ++ c) = norm p.
Proof.
  intros Hc Hn. unfold pathlib_parent.
  rewrite Hn, (before_last_slash_name _ _ Hc).
  pose proof (norm_not_nil p). destruct (norm p); [congruence | reflexivity].
Qed.

(** *** What lies under a path *)

Lemma under_extend (q d t : string) :
  under q d = true -> under q (d ++ "/" ++ t) = true.
Proof.
  unfold under. intros H. apply orb_true_iff in H. apply orb_true_iff. right.
  destruct H as [H | H].
  - apply String.eqb_eq in H. subst d. rewrite <- append_assoc.
    apply prefix_append.
  - now apply prefix_app_r.
Qed.

Lemma under_self (q : string) : under q (norm q) = true.
Proof. unfold under. now rewrite String.eqb_refl. Qed.

Lemma root_not_under (q r : string) :
  is_root q = false -> r = "." \/ r = "/" -> under q r = false.
Proof.
  unfold is_root, under. intros Hq Hr. apply orb_false_iff in Hq.
  destruct Hq as [H1 H2].
  assert (Hp : String.prefix (norm q ++ "/") r = false).
  { destruct (String.prefix (norm q ++ "/") r) eqn:E; [| reflexivity].
    apply prefix_length in E. rewrite append_length in E.
    pose proof (norm_not_nil q).
    destruct (norm q); [congruence |].
    destruct Hr as [-> | ->]; cbn in E; lia. }
  rewrite Hp, orb_false_r. rewrite String.eqb_sym.
  destruct Hr as [-> | ->]; assumption.
Qed.

Lemma under_parent (q e : string) :
  is_root q = false -> norm e = e ->
  under q (pathlib_parent e) = true -> under q e = true.
Proof.
  intros Hq He. unfold pathlib_parent. rewrite He.
  destruct (before_last_slash e) as [d |] eqn:E.
  - destruct (before_last_slash_split _ _ E) as [t [-> _]].
    destruct d as [| a d].
    + intros H. rewrite root_not_under in H; [discriminate | exact Hq | auto].
    + apply under_extend.
  - intros H. rewrite root_not_under in H; [discriminate | exact Hq | auto].
Qed.

Lemma is_root_join (p c : string) :
  is_root p = false -> c <> "" -> before_last_slash c = None ->
  is_root (os_path_join p c) = false.
Proof.
  intros Hp Hne Hc. unfold is_root. rewrite (norm_os_path_join p c Hp Hne Hc).
  pose proof (norm_not_nil p). destruct (norm p) as [| a r]; [congruence |].
  destruct c as [| x t]; [congruence |].
  cbn [String.append]. apply orb_false_iff. split.
  - apply String.eqb_neq. intros E. inversion E. destruct r; discriminate.
  - apply String.eqb_neq. intros E. inversion E. destruct r; discriminate.
Qed.

Lemma under_join_parent (p c x : string) :
  is_root p = false -> c <> "" -> before_last_slash c = None ->
  under (os_path_join p c) x = true -> under p x = true.
Proof.
  intros Hp Hne Hc. unfold under. rewrite (norm_os_path_join p c Hp Hne Hc).
  intros H. apply orb_true_iff in H. apply orb_true_iff. right.
  destruct H as [H | H].
  - apply String.eqb_eq in H. subst x. rewrite <- append_assoc.
    apply prefix_append.
  - rewrite <- !append_assoc in H. rewrite append_assoc in H.
    now apply prefix_app_l in H.
Qed.

Lemma parent_not_under_join (p c : string) :
  is_root p = false -> c <> "" -> before_last_slash c = None ->
  under (os_path_join p c) (norm p) = false.
Proof.
  intros Hp Hne Hc. unfold under. rewrite (norm_os_path_join p c Hp Hne Hc).
  apply orb_false_iff. split.
  - apply String.eqb_neq. intros E. apply (f_equal String.length) in E.
    rewrite !append_length in E. cbn in E. lia.
  - destruct (String.prefix _ _) eqn:E; [| reflexivity].
    apply prefix_length in E. rewrite !append_length in E. cbn in E. lia.
Qed.

Lemma sibling_not_under_join (p c c' : string) :
  is_root p = false -> c <> "" -> before_last_slash c = None ->
  before_last_slash c' = None -> c <> c' ->
  under (os_path_join p c) (norm p ++ "/" ++ c') = false.
Proof.
  intros Hp Hne Hc Hc' Hd. unfold under.
  rewrite (norm_os_path_join p c Hp Hne Hc).
  apply orb_false_iff. split.
  - apply String.eqb_neq. intros E.
    apply append_inv_head in E. apply (append_inv_head "/") in E. congruence.
  - rewrite !append_assoc, prefix_cancel.
    change ("/" ++ c ++ "/")%string with ("/" ++ (c ++ "/"))%string.
    rewrite (prefix_cancel "/"). now apply slashless_prefix.
Qed.

(** Whatever lies below a directory lies at or below one of its
    entries. *)
Lemma under_some_child (w : world) (p : string) :
  good_order w -> is_root p = false ->
  forall x, In x (entries w) -> under p x = true -> x <> norm p ->
  exists c, In c (children p (entries w)) /\
            under (os_path_join p c) x = true.
Proof.
  intros Hw Hp x.
  remember (String.length x) as n eqn:Hn.
  revert x Hn. induction n as [n IH] using lt_wf_ind.
  intros x Hn Hx Hu Hne. unfold under in Hu.
  apply orb_true_iff in Hu. destruct Hu as [Hu | Hu];
    [apply String.eqb_eq in Hu; contradiction |].
  destruct (prefix_split _ _ Hu) as [r Hr].
  pose proof (entries_normal w Hw x Hx) as Hnx.
  destruct (before_last_slash r) as [r1 |] eqn:Er.
  - (* the entry lies deeper: go by its directory *)
    pose proof (before_last_slash_app (norm p ++ "/") r r1 Er) as Hb.
    rewrite <- Hr in Hb.
    assert (Hpar : pathlib_parent x = ((norm p ++ "/") ++ r1)%string).
    { unfold pathlib_parent. rewrite Hnx, Hb.
      pose proof (norm_not_nil p).
      destruct (norm p); [congruence | reflexivity]. }
    pose proof (entries_housed w Hw x Hx) as Hd. rewrite Hpar in Hd.
    destruct (before_last_slash_split _ _ Er) as [t [Ht _]].
    destruct (IH (String.length ((norm p ++ "/") ++ r1)%string))
      with (x := ((norm p ++ "/") ++ r1)%string) as [c [Hc Huc]].
    + rewrite Hn, Hr, Ht, !append_length. cbn. lia.
    + reflexivity.
    + now apply dir_is_entry.
    + unfold under. apply orb_true_iff. right. apply prefix_append.
    + intros E. apply (f_equal String.length) in E.
      rewrite !append_length in E. cbn in E. lia.
    + exists c. split; [exact Hc |].
      rewrite Hr, Ht, <- append_assoc. now apply under_extend.
  - (* the entry is in the directory itself *)
    assert (Hrne : r <> "").
    { intros ->. rewrite append_nil_r in Hr. rewrite Hr in Hnx.
      exact (norm_trailing_slash (norm p) (norm_not_nil p) Hnx). }
    exists r. split.
    + apply children_In. exists x. split; [exact Hx |].
      rewrite Hr, append_assoc. now apply child_name_of.
    + unfold under. rewrite (norm_os_path_join p r Hp Hrne Er).
      rewrite Hr, append_assoc. now rewrite String.eqb_refl.
Qed.

(** *** Removing a tree from a disk in good order *)

Lemma keys_filter {V : Type} (keep : string -> bool) (l : list (string * V)) :
  keys (filter (fun e => keep (fst e)) l) = filter keep (keys l).
Proof.
  unfold keys. induction l as [| [k v] l IH]; [reflexivity |].
  cbn [filter map fst]. destruct (keep k); cbn [map fst]; now rewrite IH.
Qed.

Lemma entries_remove_tree (q : string) (w : world) :
  entries (remove_tree q w) = filter (fun e => negb (under q e)) (entries w).
Proof.
  unfold entries, remove_tree. cbn [files dirs].
  now rewrite (keys_filter (fun e => negb (under q e))), filter_app.
Qed.

Lemma good_order_remove_tree (q : string) (w : world) :
  is_root q = false -> good_order w -> good_order (remove_tree q w).
Proof.
  intros Hq Hw. constructor.
  - rewrite entries_remove_tree. apply NoDup_filter.
    exact (entries_distinct w Hw).
  - intros e He. rewrite entries_remove_tree in He.
    apply filter_In in He. exact (entries_normal w Hw e (proj1 He)).
  - intros e He. rewrite entries_remove_tree in He.
    apply filter_In in He. destruct He as [He Hu].
    cbn [dirs remove_tree]. apply filter_In. split.
    + exact (entries_housed w Hw e He).
    + apply negb_true_iff in Hu. apply negb_true_iff.
      destruct (under q (pathlib_parent e)) eqn:E; [| reflexivity].
      rewrite (under_parent q e Hq (entries_normal w Hw e He) E) in Hu.
      discriminate.
Qed.

Lemma file_not_root (w : world) (e : string) :
  good_order w -> In e (keys (files w)) -> is_root e = false.
Proof.
  intros Hw He. pose proof (entries_normal w Hw e (file_is_entry w e He)) as Hn.
  pose proof (entries_housed w Hw e (file_is_entry w e He)) as Hh.
  unfold is_root. rewrite Hn. apply orb_false_iff.
  split; apply String.eqb_neq; intros ->;
    exact (file_not_dir w _ Hw He Hh).
Qed.

(** Nothing lies below a file. *)
Lemma nothing_under_file (w : world) (q x : string) :
  good_order w -> In (norm q) (keys (files w)) ->
  In x (entries w) -> under q x = true -> x = norm q.
Proof.
  intros Hw Hq Hx Hu.
  destruct (String.eqb_spec x (norm q)) as [E | Hne]; [exact E |]. exfalso.
  assert (Hroot : is_root q = false).
  { pose proof (file_not_root w (norm q) Hw Hq) as H.
    unfold is_root in *.
    now rewrite (entries_normal w Hw _ (file_is_entry w _ Hq)) in H. }
  destruct (under_some_child w q Hw Hroot x Hx Hu Hne) as [c [Hc _]].
  destruct (child_is_entry w q c Hw Hc) as [_ [Hs He]].
  pose proof (entries_housed w Hw _ He) as Hh.
  rewrite (parent_of_child q c Hs (entries_normal w Hw _ He)) in Hh.
  exact (file_not_dir w _ Hw Hq Hh).
Qed.

Lemma filter_all {A : Type} (f : A -> bool) (l : list A) :
  (forall x, In x l -> f x = true) -> filter f l = l.
Proof.
  induction l as [| x l IH]; [reflexivity |].
  intros H. cbn [filter]. rewrite (H x (or_introl eq_refl)).
  rewrite IH; [reflexivity |]. intros y Hy. apply H. now right.
Qed.

Lemma In_keys {V : Type} (e : string * V) (l : list (string * V)) :
  In e l -> In (fst e) (keys l).
Proof. intros H. unfold keys. now apply in_map. Qed.

(** [os.remove] of a file takes away what [remove_tree] takes away. *)
Lemma os_remove_file (w : world) (q : string) :
  good_order w -> In (norm q) (keys (files w)) ->
  os_remove q w = Returned (remove_tree q w).
Proof.
  intros Hw Hq. unfold os_remove.
  rewrite (proj2 (is_file_In w q) Hq). unfold remove_tree. f_equal. f_equal.
  - apply filter_ext_in. intros f Hf.
    destruct (under q (fst f)) eqn:Hu.
    + rewrite (nothing_under_file w q (fst f) Hw Hq
                 (file_is_entry w _ (In_keys f _ Hf)) Hu).
      now rewrite String.eqb_refl.
    + unfold under in Hu. apply orb_false_iff in Hu. now rewrite (proj1 Hu).
  - symmetry. apply filter_all. intros d Hd. apply negb_true_iff.
    destruct (under q d) eqn:Hu; [| reflexivity]. exfalso.
    rewrite (nothing_under_file w q d Hw Hq (dir_is_entry w d Hd) Hu) in Hd.
    exact (file_not_dir w _ Hw Hq Hd).
Qed.

Lemma filter_filter {A : Type} (f g : A -> bool) (l : list A) :
  filter g (filter f l) = filter (fun x => f x && g x) l.
Proof.
  induction l as [| x l IH]; [reflexivity |].
  cbn [filter]. destruct (f x); cbn [filter andb]; now rewrite IH.
Qed.

Lemma remove_trees_disk (qs : list string) (w : world) :
  files (remove_trees qs w) =
    filter (fun f => clear_of qs (fst f)) (files w) /\
  dirs (remove_trees qs w) = filter (clear_of qs) (dirs w) /\
  fresh (remove_trees qs w) = fresh w /\
  trace (remove_trees qs w) = trace w.
Proof.
  revert w. induction qs as [| q qs IH]; intros w.
  - unfold remove_trees, clear_of. cbn [fold_left forallb].
    rewrite !filter_all; auto.
  - change (remove_trees (q :: qs) w)
      with (remove_trees qs (remove_tree q w)).
    destruct (IH (remove_tree q w)) as [Hf [Hd [Hn Ht]]].
    rewrite Hf, Hd, Hn, Ht. cbn [files dirs fresh trace remove_tree].
    rewrite !filter_filter. auto.
Qed.

Lemma entries_remove_trees (qs : list string) (w : world) :
  entries (remove_trees qs w) = filter (clear_of qs) (entries w).
Proof.
  destruct (remove_trees_disk qs w) as [Hf [Hd _]].
  unfold entries. rewrite Hf, Hd.
  now rewrite (keys_filter (clear_of qs)), filter_app.
Qed.

(** An entry is below a directory when it is below one of the entries of
    the directory, and only then. *)
Lemma clear_of_children (w : world) (p x : string) :
  good_order w -> is_root p = false -> In x (entries w) -> x <> norm p ->
  clear_of (map (os_path_join p) (children p (entries w))) x
  = negb (under p x).
Proof.
  intros Hw Hp Hx Hne. unfold clear_of.
  destruct (under p x) eqn:Hu; cbn [negb].
  - destruct (under_some_child w p Hw Hp x Hx Hu Hne) as [c [Hc Huc]].
    destruct (forallb _ _) eqn:E; [| reflexivity].
    rewrite forallb_forall in E.
    specialize (E (os_path_join p c) (in_map _ _ _ Hc)).
    rewrite Huc in E. discriminate.
  - apply forallb_forall. intros q Hq. apply in_map_iff in Hq.
    destruct Hq as [c [<- Hc]].
    destruct (child_is_entry w p c Hw Hc) as [Hcne [Hcs _]].
    apply negb_true_iff.
    destruct (under (os_path_join p c) x) eqn:E; [| reflexivity].
    rewrite (under_join_parent p c x Hp Hcne Hcs E) in Hu. discriminate.
Qed.

(** Once its entries are gone, [os.rmdir] removes the directory, and the
    tree is gone. *)
Lemma os_rmdir_emptied (w : world) (p : string) :
  good_order w -> is_root p = false -> is_dir w p = true ->
  os_rmdir p (remove_trees (map (os_path_join p) (children p (entries w))) w)
  = Returned (remove_tree p w).
Proof.
  intros Hw Hp Hd. set (qs := map (os_path_join p) (children p (entries w))).
  destruct (remove_trees_disk qs w) as [Hf [Hds [Hn Ht]]].
  pose proof (proj1 (is_dir_In w p) Hd) as HP.
  assert (Hclear : clear_of qs (norm p) = true).
  { apply forallb_forall. intros q Hq. apply in_map_iff in Hq.
    destruct Hq as [c [<- Hc]].
    destruct (child_is_entry w p c Hw Hc) as [Hcne [Hcs _]].
    now rewrite parent_not_under_join. }
  unfold os_rmdir.
  assert (Hd' : is_dir (remove_trees qs w) p = true).
  { apply is_dir_In. rewrite Hds. apply filter_In. auto. }
  rewrite Hd'.
  assert (Hnone : children p (entries (remove_trees qs w)) = []).
  { destruct (children p (entries (remove_trees qs w))) as [| c l] eqn:E;
      [reflexivity |]. exfalso.
    assert (Hc : In c (children p (entries (remove_trees qs w))))
      by (rewrite E; now left).
    apply children_In in Hc. destruct Hc as [e [He Hc]].
    rewrite entries_remove_trees in He. apply filter_In in He.
    destruct He as [He Hcl].
    assert (Hin : In c (children p (entries w)))
      by (apply children_In; now exists e).
    destruct (child_is_entry w p c Hw Hin) as [Hcne [Hcs _]].
    apply child_name_entry in Hc. destruct Hc as [-> _].
    unfold clear_of in Hcl. rewrite forallb_forall in Hcl.
    specialize (Hcl (os_path_join p c) (in_map _ _ _ Hin)).
    apply negb_true_iff in Hcl.
    rewrite <- (norm_os_path_join p c Hp Hcne Hcs) in Hcl.
    now rewrite under_self in Hcl. }
  rewrite Hnone, Hf, Hds, Hn, Ht. unfold remove_tree. f_equal. f_equal.
  - apply filter_ext_in. intros f Hfin.
    apply (clear_of_children w p (fst f) Hw Hp).
    + apply file_is_entry. now apply In_keys.
    + intros E. apply (file_not_dir w (norm p) Hw); [| exact HP].
      rewrite <- E. now apply In_keys.
  - rewrite filter_filter. apply filter_ext_in. intros d Hdin.
    destruct (String.eqb_spec d (norm p)) as [-> | Hne].
    + now rewrite under_self, andb_false_r.
    + cbn [negb]. rewrite andb_true_r.
      apply (clear_of_children w p d Hw Hp);
        [now apply dir_is_entry | exact Hne].
Qed.

Lemma count_under_remove_tree (q p : string) (w : world) :
  (count_under q (remove_tree p w) <= count_under q w)%nat.
Proof.
  unfold count_under. cbn [dirs remove_tree]. rewrite filter_filter.
  induction (dirs w) as [| d l IH]; [cbn; lia |].
  cbn [filter]. destruct (under q d), (negb (under p d));
    cbn [andb List.length]; lia.
Qed.

Lemma filter_length_lt {A : Type} (f g : A -> bool) (l : list A) (a : A) :
  (forall x, f x = true -> g x = true) ->
  In a l -> g a = true -> f a = false ->
  (List.length (filter f l) < List.length (filter g l))%nat.
Proof.
  intros Hfg. induction l as [| x l IH]; [contradiction |].
  intros [-> | Hin] Hg Hf.
  - cbn [filter]. rewrite Hg, Hf. cbn [List.length].
    assert (List.length (filter f l) <= List.length (filter g l))%nat;
      [| lia].
    clear IH. induction l as [| y l IH]; [cbn; lia |].
    cbn [filter]. destruct (f y) eqn:Ey.
    + rewrite (Hfg y Ey). cbn [List.length]. lia.
    + destruct (g y); cbn [List.length]; lia.
  - specialize (IH Hin Hg Hf). cbn [filter]. destruct (f x) eqn:Ex.
    + rewrite (Hfg x Ex). cbn [List.length]. lia.
    + destruct (g x); cbn [List.length]; lia.
Qed.

Lemma count_under_child (w : world) (p c : string) :
  good_order w -> is_root p = false -> is_dir w p = true ->
  In c (children p (entries w)) ->
  (count_under (os_path_join p c) w < count_under p w)%nat.
Proof.
  intros Hw Hp Hd Hc.
  destruct (child_is_entry w p c Hw Hc) as [Hcne [Hcs _]].
  unfold count_under. apply (filter_length_lt _ _ _ (norm p)).
  - intros x. now apply under_join_parent.
  - now apply is_dir_In.
  - apply under_self.
  - now apply parent_not_under_join.
Qed.

(** The loop over the entries of a directory, when the call on a
    directory inside removes its tree. *)
Lemma remove_entries_trees (rec : string -> world -> outcome) (bound : nat)
  (p : string) :
  is_root p = false ->
  (forall q w, good_order w -> is_root q = false ->
               (count_under q w < bound)%nat ->
               rec q w = Returned (remove_tree q w)) ->
  forall names w,
    good_order w -> NoDup names ->
    (forall c, In c names ->
               c <> "" /\ before_last_slash c = None /\
               In (norm p ++ "/" ++ c)%string (entries w)) ->
    (forall c, In c names ->
               (count_under (os_path_join p c) w < bound)%nat) ->
    remove_entries rec p names w
    = os_rmdir p (remove_trees (map (os_path_join p) names) w).
Proof.
  intros Hp Hrec names.
  induction names as [| c names IH]; intros w Hw Hnd Hin Hcount;
    [reflexivity |].
  cbn [remove_entries map].
  change (remove_trees (os_path_join p c :: map (os_path_join p) names) w)
    with (remove_trees (map (os_path_join p) names)
                       (remove_tree (os_path_join p c) w)).
  destruct (Hin c (or_introl eq_refl)) as [Hcne [Hcs Hce]].
  inversion Hnd as [| ? ? Hc Hnd']; subst.
  pose proof (is_root_join p c Hp Hcne Hcs) as Hq.
  assert (Hstep :
    (if is_dir w (os_path_join p c)
     then rec (os_path_join p c) w
     else os_remove (os_path_join p c) w)
    = Returned (remove_tree (os_path_join p c) w)).
  { destruct (is_dir w (os_path_join p c)) eqn:Ed.
    - apply Hrec; [exact Hw | exact Hq |]. apply Hcount. now left.
    - apply os_remove_file; [exact Hw |].
      rewrite (norm_os_path_join p c Hp Hcne Hcs).
      unfold entries in Hce. apply in_app_or in Hce.
      destruct Hce as [Hf | Hd]; [exact Hf |].
      unfold is_dir in Ed.
      rewrite (norm_os_path_join p c Hp Hcne Hcs) in Ed.
      apply existsb_eqb_In in Hd. congruence. }
  rewrite Hstep. apply IH.
  - now apply good_order_remove_tree.
  - exact Hnd'.
  - intros c' Hc'. destruct (Hin c' (or_intror Hc')) as [H1 [H2 H3]].
    split; [exact H1 | split; [exact H2 |]].
    rewrite entries_remove_tree. apply filter_In. split; [exact H3 |].
    apply negb_true_iff. apply sibling_not_under_join; auto.
    intros ->. contradiction.
  - intros c' Hc'. eapply Nat.le_lt_trans; [apply count_under_remove_tree |].
    apply Hcount. now right.
Qed.

(** Where nothing exists, there is nothing to remove. *)
Lemma remove_tree_absent (w : world) (p : string) :
  good_order w -> is_root p = false -> exists_b w p = false ->
  remove_tree p w = w.
Proof.
  intros Hw Hp He.
  assert (Hnone : forall x, In x (entries w) -> under p x = false).
  { intros x Hx. destruct (under p x) eqn:Hu; [| reflexivity]. exfalso.
    unfold exists_b in He. apply orb_false_iff in He. destruct He as [Hf Hd].
    assert (HP : ~ In (norm p) (entries w)).
    { intros H. unfold entries in H. apply in_app_or in H.
      destruct H as [H | H].
      - apply is_file_In in H. congruence.
      - apply is_dir_In in H. congruence. }
    destruct (String.eqb_spec x (norm p)) as [-> | Hne]; [contradiction |].
    destruct (under_some_child w p Hw Hp x Hx Hu Hne) as [c [Hc _]].
    destruct (child_is_entry w p c Hw Hc) as [_ [Hs Hce]].
    pose proof (entries_housed w Hw _ Hce) as Hh.
    rewrite (parent_of_child p c Hs (entries_normal w Hw _ Hce)) in Hh.
    apply HP. now apply dir_is_entry. }
  destruct w as [fs ds n t]. unfold remove_tree. cbn [files dirs fresh trace].
  f_equal.
  - apply filter_all. intros f Hf. apply negb_true_iff. apply Hnone.
    apply file_is_entry. now apply In_keys.
  - apply filter_all. intros d Hd. apply negb_true_iff. apply Hnone.
    now apply dir_is_entry.
Qed.

(** The walk removes the tree, when it may go deep enough. *)
Lemma remove_dir_tree (fuel : nat) :
  forall p w,
    good_order w -> is_root p = false -> (count_under p w < fuel)%nat ->
    remove_dir fuel p w = Returned (remove_tree p w).
Proof.
  induction fuel as [| fuel IH]; intros p w Hw Hp Hc; [lia |].
  cbn [remove_dir].
  destruct (exists_b w p) eqn:He.
  - destruct (is_dir w p) eqn:Hd.
    + rewrite (remove_entries_trees (remove_dir fuel) fuel p Hp IH).
      * now apply os_rmdir_emptied.
      * exact Hw.
      * apply children_NoDup. exact (entries_distinct w Hw).
      * intros c Hin. now apply child_is_entry.
      * intros c Hin.
        pose proof (count_under_child w p c Hw Hp Hd Hin). lia.
    + apply os_remove_file; [exact Hw |]. apply is_file_In.
      unfold exists_b in He. now rewrite Hd, orb_false_r in He.
  - now rewrite remove_tree_absent.
Qed.

Lemma count_under_dirs (p : string) (w : world) :
  (count_under p w <= List.length (dirs w))%nat.
Proof. unfold count_under. apply filter_length_le. Qed.

Lemma dict_mem_filter_out {V : Type} (keep : string -> bool) (k : string)
  (l : list (string * V)) :
  keep k = false -> dict_mem k (filter (fun e => keep (fst e)) l) = false.
Proof.
  intros Hk. destruct (dict_mem k (filter _ l)) eqn:E; [| reflexivity].
  apply dict_mem_In in E. rewrite keys_filter in E. apply filter_In in E.
  destruct E as [_ E]. congruence.
Qed.

Lemma exists_b_removed (q p : string) (w : world) :
  under q (norm p) = true -> exists_b (remove_tree q w) p = false.
Proof.
  intros Hu. unfold exists_b, is_file, is_dir. cbn [files dirs remove_tree].
  rewrite (dict_mem_filter_out (fun f => negb (under q f)));
    [| now rewrite Hu].
  cbn [orb]. destruct (existsb _ _) eqn:E; [| reflexivity].
  apply existsb_eqb_In in E. apply filter_In in E. destruct E as [_ E].
  now rewrite Hu in E.
Qed.

(** X1.  [FileSystem.remove_dir] on a local path, as it is written: on a
    disk in good order the walk (list the directory, remove the files,
    call itself on the directories inside, then [os.rmdir]) returns
    without raising and leaves the disk without the path and without all
    that lay below it, everything else in place.  That is the disk
    [remove_tree] gives, and so the disk [fs_remove_dir] leaves, which
    [write_parquet] is run against.  The walk needs no more depth than
    there are directories.  The path is not the working directory or the
    root. *)
Theorem remove_dir_walk_removes_tree (fuel : nat) (file_path : string)
  (w : world)
  (Hdisk : well_formed w = true)
  (Hpath : is_root file_path = false)
  (Hfuel : (List.length (dirs w) < fuel)%nat) :
  remove_dir fuel file_path w = Returned (remove_tree file_path w) /\
  run (fs_remove_dir file_path) w
  = (Ok tt, logs [EvRemoveDir file_path] (remove_tree file_path w)).
Proof.
  split; [| apply run_fs_remove_dir].
  apply remove_dir_tree.
  - now apply well_formed_good_order.
  - exact Hpath.
  - pose proof (count_under_dirs file_path w). lia.
Qed.

Lemma remove_dir_walk_removes_tree_witness :
  remove_dir 5 "data" regions_disk = Returned (World [] ["."] 2 []) /\
  run (fs_remove_dir "data") regions_disk
  = (Ok tt, World [] ["."] 2 [EvRemoveDir "data"]).
Proof.
  exact (remove_dir_walk_removes_tree 5 "data" regions_disk
           eq_refl eq_refl (Nat.lt_succ_diag_r 4)).
Defined.

(** X2.  What [FileSystem.remove_dir] leaves behind, seen through
    [os.path.exists]: once it has returned, the path and every path below
    it are gone, and every other path exists exactly when it did before.
    On a path that does not exist the call changes nothing. *)
Theorem remove_dir_scope (fuel : nat) (file_path : string) (w : world)
  (Hdisk : well_formed w = true)
  (Hpath : is_root file_path = false)
  (Hfuel : (List.length (dirs w) < fuel)%nat) :
  exists w',
    remove_dir fuel file_path w = Returned w' /\
    trace w' = trace w /\
    (forall p, under file_path (norm p) = true -> exists_b w' p = false) /\
    (forall p, under file_path (norm p) = false ->
               exists_b w' p = exists_b w p) /\
    (exists_b w file_path = false -> w' = w).
Proof.
  exists (remove_tree file_path w).
  pose proof (well_formed_good_order w Hdisk) as Hw.
  split; [| split; [reflexivity | split; [| split]]].
  - apply remove_dir_tree; [exact Hw | exact Hpath |].
    pose proof (count_under_dirs file_path w). lia.
  - intros p Hu. now apply exists_b_removed.
  - intros p Hu. now apply exists_b_remove_tree.
  - intros He. now apply remove_tree_absent.
Qed.

Lemma remove_dir_scope_witness :
  exists w',
    remove_dir 5 "data/region=US" regions_disk = Returned w' /\
    trace w' = trace regions_disk /\
    (forall p, under "data/region=US" (norm p) = true ->
               exists_b w' p = false) /\
    (forall p, under "data/region=US" (norm p) = false ->
               exists_b w' p = exists_b regions_disk p) /\
    (exists_b regions_disk "data/region=US" = false -> w' = regions_disk).
Proof.
  exact (remove_dir_scope 5 "data/region=US" regions_disk
           eq_refl eq_refl (Nat.lt_succ_diag_r 4)).
Defined.

(** ** Types without empty structs *)

Lemma has_empty_struct_struct (fs : fields) :
  has_empty_struct (pl.Struct fs) =
  match fs with
  | [] => true
  | _ :: _ => existsb (fun f => has_empty_struct (snd f)) fs
  end.
Proof.
  assert (H : forall l : fields,
             (fix any (l : fields) : bool :=
                match l with
                | [] => false
                | (_, t) :: rest => has_empty_struct t || any rest
                end) l
             = existsb (fun f => has_empty_struct (snd f)) l).
  { induction l as [| [n t] l IH]; [reflexivity |].
    cbn [existsb snd]. now rewrite IH. }
  destruct fs as [| f fs]; [reflexivity | exact (H (f :: fs))].
Qed.

Lemma names_distinct_struct (fs : fields) :
  names_distinct (pl.Struct fs) =
  distinct (keys fs) && forallb (fun f => names_distinct (snd f)) fs.
Proof.
  assert (H : forall l : fields,
             (fix all (l : fields) : bool :=
                match l with
                | [] => true
                | (_, t) :: rest => names_distinct t && all rest
                end) l
             = forallb (fun f => names_distinct (snd f)) l).
  { induction l as [| [n t] l IH]; [reflexivity |].
    cbn [forallb snd]. now rewrite IH. }
  change (names_distinct (pl.Struct fs))
    with (distinct (keys fs) &&
          (fix all (l : fields) : bool :=
             match l with
             | [] => true
             | (_, t) :: rest => names_distinct t && all rest
             end) fs).
  now rewrite H.
Qed.

Lemma NoDup_distinct (l : list string) : NoDup l -> distinct l = true.
Proof.
  induction 1 as [| x l Hx Hl IH]; [reflexivity |].
  cbn [distinct]. rewrite IH, andb_true_r. apply negb_true_iff.
  destruct (existsb (String.eqb x) l) eqn:E; [| reflexivity].
  apply existsb_eqb_In in E. contradiction.
Qed.

Lemma clean_struct (fs : fields) :
  fs <> [] -> NoDup (keys fs) -> Forall (fun f => clean (snd f)) fs ->
  clean (pl.Struct fs).
Proof.
  intros Hne Hnd Hall. split.
  - rewrite has_empty_struct_struct. destruct fs as [| f fs]; [congruence |].
    destruct (existsb _ (f :: fs)) eqn:E; [| reflexivity].
    apply existsb_exists in E. destruct E as [g [Hg E]].
    rewrite Forall_forall in Hall. destruct (Hall g Hg). congruence.
  - rewrite names_distinct_struct, (NoDup_distinct _ Hnd).
    apply forallb_forall. intros g Hg.
    rewrite Forall_forall in Hall. now destruct (Hall g Hg).
Qed.

Lemma clean_struct_inv (fs : fields) :
  clean (pl.Struct fs) ->
  fs <> [] /\ NoDup (keys fs) /\ Forall (fun f => clean (snd f)) fs.
Proof.
  intros [He Hn]. rewrite has_empty_struct_struct in He.
  rewrite names_distinct_struct in Hn. apply andb_true_iff in Hn.
  destruct Hn as [Hd Hall]. rewrite forallb_forall in Hall.
  split; [| split].
  - intros ->. discriminate.
  - now apply distinct_NoDup.
  - apply Forall_forall. intros g Hg. split; [| now apply Hall].
    destruct fs as [| f fs]; [contradiction |].
    destruct (has_empty_struct (snd g)) eqn:E; [| reflexivity].
    assert (existsb (fun f => has_empty_struct (snd f)) (f :: fs) = true);
      [| congruence].
    apply existsb_exists. now exists g.
Qed.

(** What the sanitizer returns is clean. *)
Lemma remove_empty_structs_clean (t : dtype) :
  forall t', remove_empty_structs t = (Some t', false) -> clean t'.
Proof.
  induction t as [k | inner IH | fs IH] using dtype_induction; intros t' H.
  - cbn in H. inversion H; subst. now split.
  - rewrite remove_empty_structs_list in H.
    destruct (remove_empty_structs inner) as [[i |] [|]] eqn:E;
      cbn in H; try discriminate.
    inversion H; subst. destruct (IH i eq_refl) as [H1 H2]. now split.
  - rewrite remove_empty_structs_struct_closed in H.
    destruct (forallb (fun f => is_empty (snd f)) fs) eqn:E; [discriminate |].
    inversion H; subst. apply clean_struct.
    + apply assign_all_not_nil. intros Hr. apply retained_nil_iff in Hr.
      congruence.
    + apply assign_all_NoDup. constructor.
    + apply assign_all_Forall; [| constructor].
      apply (retained_Forall clean). exact IH.
Qed.

(** A clean type is left as it is. *)
Lemma clean_sanitized (t : dtype) : clean t -> sanitized t.
Proof.
  unfold sanitized.
  induction t as [k | inner IH | fs IH] using dtype_induction; intros Hc.
  - reflexivity.
  - rewrite remove_empty_structs_list.
    destruct Hc as [H1 H2]. cbn [has_empty_struct names_distinct] in H1, H2.
    now rewrite (IH (conj H1 H2)).
  - destruct (clean_struct_inv fs Hc) as [Hne [Hnd Hall]].
    assert (Hs : Forall (fun f => sanitized (snd f)) fs).
    { rewrite Forall_forall in *. intros g Hg. apply (IH g Hg).
      now apply Hall. }
    rewrite remove_empty_structs_struct_closed.
    rewrite (sanitized_not_empty fs Hne Hs), (retained_fixed fs Hs).
    now rewrite (assign_all_fresh fs []).
Qed.

(** X3.  [__remove_empty_structs] does what it is for: the type it
    returns, when it returns one, has no struct without fields anywhere
    inside, at any depth of lists and structs, and no struct of it names a
    field twice. *)
Theorem sanitizer_leaves_no_empty_struct (t t' : dtype)
  (Hout : remove_empty_structs t = (Some t', false)) :
  has_empty_struct t' = false /\ names_distinct t' = true.
Proof. exact (remove_empty_structs_clean t t' Hout). Qed.

Lemma sanitizer_leaves_no_empty_struct_witness :
  let t := pl.Struct [("a", pl.Struct []);
                      ("b", pl.List (pl.Struct [("c", utf8);
                                                ("d", pl.Struct [])]))] in
  let t' := pl.Struct [("b", pl.List (pl.Struct [("c", utf8)]))] in
  has_empty_struct t = true /\
  has_empty_struct t' = false /\ names_distinct t' = true.
Proof.
  split; [reflexivity |].
  exact (sanitizer_leaves_no_empty_struct
           (pl.Struct [("a", pl.Struct []);
                       ("b", pl.List (pl.Struct [("c", utf8);
                                                 ("d", pl.Struct [])]))])
           (pl.Struct [("b", pl.List (pl.Struct [("c", utf8)]))])
           eq_refl).
Defined.

(** X4.  The types [__remove_empty_structs] returns unchanged are
    exactly the types that hold no struct without fields and name no field
    of a struct twice; for every other type it reports the type empty or
    returns a different type. *)
Theorem sanitizer_fixed_points (t : dtype) :
  remove_empty_structs t = (Some t, false) <->
  has_empty_struct t = false /\ names_distinct t = true.
Proof.
  split.
  - apply remove_empty_structs_clean.
  - apply clean_sanitized.
Qed.

(** ** [__check_path_suffix], [scan_parquet] and [read_parquet] *)

Lemma run_check_path_suffix_cases (path : string) (w : world) :
  run (check_path_suffix path) w =
  if ends_with_slash path then (Ok path, w)
  else match listdir w path with
       | Ok files => (Ok (suffixed path files), logs [EvListDir path] w)
       | Err e => (Err e, logs [EvListDir path] w)
       end.
Proof.
  unfold check_path_suffix. destruct (ends_with_slash path); cbn [negb];
    [reflexivity |].
  change (run (bind (fs_listdir path)
                    (fun files => ret (suffixed path files))) w = 
          match listdir w path with
          | Ok files => (Ok (suffixed path files), logs [EvListDir path] w)
          | Err e => (Err e, logs [EvListDir path] w)
          end).
  rewrite run_bind, run_fs_listdir. now destruct (listdir w path).
Qed.

Lemma listdir_cases (w : world) (path : string) :
  (exists names, listdir w path = Ok names /\ exists_b w path = true) \/
  (listdir w path = Err FileNotFoundError /\ exists_b w path = false).
Proof.
  unfold listdir, exists_b.
  destruct (is_file w path); [left; now eexists |].
  destruct (is_dir w path); [left; now eexists | now right].
Qed.

Lemma suffixed_cases (path : string) (names : list string) :
  suffixed path names = path \/ suffixed path names = (path ++ "/")%string.
Proof. unfold suffixed. destruct (0 <? _)%nat; auto. Qed.


Lemma ends_with_slash_app (p : string) : ends_with_slash (p ++ "/") = true.
Proof.
  unfold ends_with_slash.
  pose proof (before_last_slash_name p "" eq_refl) as H.
  change ("/" ++ "")%string with "/" in H. rewrite H.
  apply String.eqb_refl.
Qed.

Lemma slash_added_differs (p : string) : p <> (p ++ "/")%string.
Proof.
  intros E. apply (f_equal String.length) in E.
  rewrite append_length in E. cbn in E. lia.
Qed.

(** X6.  When [__check_path_suffix] adds the slash, for a path with no
    [s3://] in it: exactly when the path does not end with a slash already
    and names a directory that is not empty.  A file, an empty directory
    and a path that ends with a slash come back as they are. *)
Theorem suffix_marks_directories (path : string) (w : world)
  (Hlocal : contains S3_PREFIX path = false) :
  fst (run (check_path_suffix path) w) = Ok (path ++ "/")%string <->
  ends_with_slash path = false /\ is_file w path = false /\
  is_dir w path = true /\ children path (entries w) <> [].
Proof.
  rewrite run_check_path_suffix_cases.
  destruct (ends_with_slash path) eqn:Es.
  - cbn [fst]. split.
    + intros H. inversion H as [E]. now apply slash_added_differs in E.
    + intros [H _]. discriminate.
  - unfold listdir. destruct (is_file w path) eqn:Ef.
    + cbn [fst]. unfold suffixed. rewrite Hlocal. cbn. split.
      * intros H. inversion H as [E]. now apply slash_added_differs in E.
      * intros [_ [H _]]. discriminate.
    + destruct (is_dir w path) eqn:Ed.
      * cbn [fst]. unfold suffixed. rewrite Hlocal. cbn [andb].
        destruct (children path (entries w)) as [| c l]; cbn.
        -- split.
           ++ intros H. inversion H as [E]. now apply slash_added_differs in E.
           ++ intros [_ [_ [_ H]]]. congruence.
        -- split; [| reflexivity]. intros _. repeat split. discriminate.
      * cbn [fst]. split; [discriminate |]. intros [_ [_ [H _]]]. discriminate.
Qed.

Lemma suffix_marks_directories_witness :
  fst (run (check_path_suffix "data") regions_disk) = Ok "data/" /\
  fst (run (check_path_suffix "data/region=US/part-0.parquet") regions_disk)
  <> Ok "data/region=US/part-0.parquet/".
Proof.
  split.
  - apply (proj2 (suffix_marks_directories "data" regions_disk eq_refl)).
    repeat split. discriminate.
  - intros H.
    apply (proj1 (suffix_marks_directories "data/region=US/part-0.parquet"
                    regions_disk eq_refl)) in H.
    destruct H as [_ [H _]]. discriminate.
Defined.

(** X7.  [__check_path_suffix] settles at once: given the path it has
    returned, on the disk as it left it, it returns that path again. *)
Theorem check_path_suffix_settles (path s : string) (w : world)
  (Hfirst : fst (run (check_path_suffix path) w) = Ok s) :
  fst (run (check_path_suffix s) (snd (run (check_path_suffix path) w)))
  = Ok s.
Proof.
  pose proof (run_check_path_suffix_cases path w) as Hrun.
  destruct (run (check_path_suffix path) w) as [r w1].
  cbn [fst snd] in *. subst r. rewrite run_check_path_suffix_cases.
  destruct (ends_with_slash path) eqn:Es.
  - inversion Hrun; subst. now rewrite Es.
  - destruct (listdir w path) as [names | e] eqn:El; [| discriminate].
    inversion Hrun; subst.
    destruct (suffixed_cases path names) as [Hs | Hs]; rewrite Hs.
    + rewrite Es.
      change (listdir (logs [EvListDir path] w) path) with (listdir w path).
      rewrite El. cbn [fst]. now rewrite Hs.
    + now rewrite ends_with_slash_app.
Qed.

Lemma check_path_suffix_settles_witness :
  fst (run (check_path_suffix "data/")
           (snd (run (check_path_suffix "data") regions_disk)))
  = Ok "data/".
Proof.
  exact (check_path_suffix_settles "data" "data/" regions_disk eq_refl).
Defined.

Lemma read_dataset_single (fs : list (string * file)) (path : string)
  (df : frame) :
  (forall e, In e (keys fs) -> under path e = false) ->
  read_dataset (dict_set (norm path) (Parquet df) fs) path = Ok df.
Proof.
  intros Hfree. unfold read_dataset.
  rewrite dict_set_fresh.
  - rewrite filter_app. cbn [filter fst]. rewrite under_self.
    assert (Hnone :
      filter (fun e : string * file => under path (fst e)) fs = []).
    { induction fs as [| [k v] fs IH]; [reflexivity |].
      cbn [filter fst]. rewrite (Hfree k (or_introl eq_refl)).
      apply IH. intros e He. apply Hfree. now right. }
    rewrite Hnone. cbn. destruct df as [s r]. cbn. now rewrite app_nil_r.
  - intros Hin. apply Hfree in Hin. now rewrite under_self in Hin.
Qed.

Lemma run_read_parquet_file (path : string) (w : world) :
  is_file w path = true ->
  fst (run (read_parquet path) w) = read_dataset (files w) path.
Proof.
  intros Hf. unfold read_parquet.
  rewrite run_bind, run_check_path_suffix_cases.
  destruct (ends_with_slash path).
  - unfold pl_read_parquet. now rewrite run_collect.
  - unfold listdir. rewrite Hf. unfold pl_read_parquet.
    rewrite run_collect. unfold suffixed.
    cbn [existsb andb]. rewrite andb_false_r. reflexivity.
Qed.



(** ** Slashes in normal forms *)

Lemma has_double_slash_cons (a b : ascii) (r : string) :
  has_double_slash (String a (String b r)) =
  (is_slash a && is_slash b) || has_double_slash (String b r).
Proof. reflexivity. Qed.

Lemma is_slash_eq (c : ascii) : is_slash c = true -> c = "/"%char.
Proof. unfold is_slash. apply Ascii.eqb_eq. Qed.

Lemma collapse_no_double_slash (s : string) :
  has_double_slash (collapse s) = false.
Proof.
  induction s as [| a s IH]; [reflexivity |].
  destruct s as [| c s']; [reflexivity |].
  rewrite collapse_cons.
  destruct (is_slash a && is_slash c) eqn:E; [exact IH |].
  destruct (is_slash c) eqn:Ec.
  - apply is_slash_eq in Ec. subst c.
    destruct (collapse_head s') as [t Ht]. rewrite Ht in *.
    rewrite has_double_slash_cons, IH.
    rewrite andb_true_r in E. now rewrite E.
  - destruct (collapse_keeps_head c s' Ec) as [t Ht]. rewrite Ht in *.
    rewrite has_double_slash_cons, IH, Ec. now rewrite andb_false_r.
Qed.

Lemma strip_trailing_head (b b' : ascii) (r r' : string) :
  strip_trailing (String b r) = String b' r' -> b' = b.
Proof.
  rewrite strip_trailing_cons. destruct (strip_trailing r).
  - destruct (is_slash b); [discriminate |]. intros H. now inversion H.
  - intros H. now inversion H.
Qed.

Lemma strip_trailing_no_double_slash (s : string) :
  has_double_slash s = false -> has_double_slash (strip_trailing s) = false.
Proof.
  induction s as [| a s IH]; [reflexivity |].
  intros H. rewrite strip_trailing_cons.
  destruct (strip_trailing s) as [| b' r'] eqn:Es.
  - now destruct (is_slash a).
  - destruct s as [| b r]; [discriminate |].
    rewrite has_double_slash_cons in H. apply orb_false_iff in H.
    destruct H as [H1 H2]. rewrite (strip_trailing_head _ _ _ _ Es).
    rewrite has_double_slash_cons, H1.
    rewrite <- (strip_trailing_head _ _ _ _ Es). now apply IH.
Qed.

Lemma norm_no_double_slash (p : string) : has_double_slash (norm p) = false.
Proof.
  unfold norm.
  pose proof (strip_trailing_no_double_slash _ (collapse_no_double_slash p))
    as H.
  destruct (strip_trailing (collapse p)); [| exact H].
  now destruct p.
Qed.

Lemma has_double_slash_app (x y : string) :
  has_double_slash (x ++ y) = false -> has_double_slash x = false.
Proof.
  induction x as [| a x IH]; [reflexivity |].
  destruct x as [| b x']; [reflexivity |].
  cbn [String.append] in *. rewrite !has_double_slash_cons.
  intros H. apply orb_false_iff in H. destruct H as [H1 H2].
  rewrite H1. now apply IH.
Qed.

Lemma double_slash_inside (x y : string) :
  has_double_slash (x ++ "/" ++ "/" ++ y) = true.
Proof.
  induction x as [| a x IH]; [reflexivity |].
  cbn [String.append] in *.
  destruct (x ++ String "/" (String "/" y))%string eqn:E.
  - destruct x; discriminate.
  - rewrite has_double_slash_cons, IH. apply orb_true_r.
Qed.

Lemma pathlib_parent_cases (p : string) :
  pathlib_parent p = "." \/ pathlib_parent p = "/" \/
  exists t, norm p = (pathlib_parent p ++ "/" ++ t)%string /\
            before_last_slash t = None /\ pathlib_parent p <> "".
Proof.
  unfold pathlib_parent.
  destruct (before_last_slash (norm p)) as [d |] eqn:E; [| now left].
  destruct d as [| a d]; [right; now left |].
  right. right. destruct (before_last_slash_split _ _ E) as [t [Ht Hs]].
  exists t. split; [exact Ht | split; [exact Hs | discriminate]].
Qed.

Lemma pathlib_parent_no_double_slash (p : string) :
  has_double_slash (pathlib_parent p) = false.
Proof.
  destruct (pathlib_parent_cases p) as [-> | [-> | [t [Ht _]]]];
    [reflexivity | reflexivity |].
  pose proof (norm_no_double_slash p) as H. rewrite Ht in H.
  now apply has_double_slash_app in H.
Qed.

Lemma s3_path_double_slash (s : string) :
  String.prefix S3_PREFIX s = true -> has_double_slash s = true.
Proof.
  intros H. destruct (prefix_split _ _ H) as [r ->].
  cbn. destruct r; reflexivity.
Qed.

(** X9.  [FileSystem.getdir] and [FileSystem.parent] go through
    [pathlib], which writes a run of slashes as one: the directory they
    return never starts with [s3://], not even for a path that does.  A
    call of [FileSystem.exists] or [FileSystem.mkdir] on what [getdir]
    returned is therefore never handed to S3: both test the path with
    [startswith(S3_PREFIX)]. *)
Theorem getdir_drops_s3_prefix (w : world) (file_path : string) :
  String.prefix S3_PREFIX (getdir w file_path) = false /\
  String.prefix S3_PREFIX (fs_parent file_path) = false.
Proof.
  assert (H : forall s, has_double_slash s = false ->
                        String.prefix S3_PREFIX s = false).
  { intros s Hs. destruct (String.prefix S3_PREFIX s) eqn:E; [| reflexivity].
    apply s3_path_double_slash in E. congruence. }
  split.
  - apply H. unfold getdir. destruct (is_dir w file_path).
    + apply norm_no_double_slash.
    + apply pathlib_parent_no_double_slash.
  - apply H. apply pathlib_parent_no_double_slash.
Qed.

(** ** [FileSystem.mkdir] and the probe of [write_parquet] *)

Lemma run_fs_mkdir (file_path : string) (w : world) :
  run (fs_mkdir file_path) w =
  let dir_name := os_path_dirname file_path in
  if exists_b w dir_name then (Err FileExistsError, logs [EvMkdir file_path] w)
  else if String.eqb dir_name "" || negb (is_dir w (pathlib_parent dir_name))
       then (Err FileNotFoundError, logs [EvMkdir file_path] w)
       else (Ok tt, logs [EvMkdir file_path] (with_dir (norm dir_name) w)).
Proof. reflexivity. Qed.

Lemma is_dir_logs (evs : list event) (w : world) (p : string) :
  is_dir (logs evs w) p = is_dir w p.
Proof. reflexivity. Qed.

Lemma with_dir_logs (d : string) (evs : list event) (w : world) :
  with_dir d (logs evs w) = logs evs (with_dir d w).
Proof. reflexivity. Qed.

(** The probe, when neither the target nor its directory is there. *)
Lemma run_probe_missing_dir (path : string) (w : world) :
  exists_b w path = false ->
  exists_b w (getdir w path) = false ->
  run (probe_existing path) w =
  let dir_name := os_path_dirname (getdir w path) in
  if exists_b w dir_name
  then (Err FileExistsError, logs (probe_missing_events w path) w)
  else if String.eqb dir_name "" || negb (is_dir w (pathlib_parent dir_name))
       then (Err FileNotFoundError, logs (probe_missing_events w path) w)
       else (Ok false,
             logs (probe_missing_events w path) (with_dir (norm dir_name) w)).
Proof.
  intros Hex Hdir. unfold probe_existing, probe_missing_events.
  rewrite run_try_except, run_bind, run_fs_exists, Hex.
  rewrite run_bind, run_ret, run_bind, run_fs_getdir, run_bind, run_fs_exists.
  rewrite !getdir_logs, !exists_b_logs, Hdir. cbn [negb].
  rewrite run_bind, run_fs_mkdir. cbn zeta.
  rewrite !exists_b_logs, !is_dir_logs.
  destruct (exists_b w (os_path_dirname (getdir w path))).
  - cbv beta iota. unfold run, raise. now norm_logs.
  - destruct (String.eqb (os_path_dirname (getdir w path)) "" ||
              negb (is_dir w (pathlib_parent (os_path_dirname (getdir w path))))).
    + cbv beta iota. unfold run, raise. now norm_logs.
    + cbv beta iota. unfold run, ret.
      repeat first [rewrite with_dir_logs | rewrite logs_logs].
      reflexivity.
Qed.



Lemma slashless_solid (t : string) :
  before_last_slash t = None -> solid t = String.length t.
Proof.
  induction t as [| c t IH]; [reflexivity |].
  intros H. apply slashless_head in H. destruct H as [Hc Ht].
  cbn [solid String.length]. rewrite Hc, (IH Ht). reflexivity.
Qed.

Lemma solid_os_path_dirname (d d2 : string) :
  before_last_slash d = Some d2 -> solid (os_path_dirname d) = solid d2.
Proof.
  intros H. unfold os_path_dirname. rewrite H.
  pose proof (solid_strip_trailing d2) as Hs.
  destruct (strip_trailing d2); [| exact Hs].
  rewrite solid_append. cbn. lia.
Qed.

(** The directory [os.mkdir] is given by [FileSystem.mkdir] is not the
    directory [getdir] found missing. *)
Lemma dirname_of_parent_differs (path : string) :
  pathlib_parent path <> "." -> pathlib_parent path <> "/" ->
  os_path_dirname (pathlib_parent path) <> "" ->
  norm (pathlib_parent path) <> norm (os_path_dirname (pathlib_parent path)).
Proof.
  intros H1 H2 Hdn E.
  destruct (pathlib_parent_cases path) as [H | [H | [t [Ht [Hs Hne]]]]];
    [contradiction | contradiction |].
  set (d := pathlib_parent path) in *.
  apply (f_equal solid) in E.
  rewrite (solid_norm d Hne), (solid_norm _ Hdn) in E.
  destruct (before_last_slash d) as [d2 |] eqn:Ed.
  - rewrite (solid_os_path_dirname d d2 Ed) in E.
    destruct (before_last_slash_split _ _ Ed) as [t2 [Hd Ht2]].
    rewrite Hd, !solid_append in E. cbn [solid] in E.
    change (is_slash "/") with true in E. cbn iota in E.
    rewrite (slashless_solid t2 Ht2) in E.
    assert (t2 = "") by (destruct t2; [reflexivity | cbn in E; lia]).
    subst t2. pose proof (norm_no_double_slash path) as Hdd.
    rewrite Ht, Hd in Hdd. rewrite append_nil_r in Hdd.
    rewrite append_assoc in Hdd.
    now rewrite (double_slash_inside d2 t) in Hdd.
  - unfold os_path_dirname in Hdn. now rewrite Ed in Hdn.
Qed.



Lemma getdir_is_dir (w : world) (file_path : string) :
  good_order w -> exists_b w file_path = true ->
  is_dir w (getdir w file_path) = true.
Proof.
  intros Hw Hexists.
  unfold getdir. destruct (is_dir w file_path) eqn:Ed.
  - apply is_dir_In in Ed. apply is_dir_In.
    now rewrite (entries_normal w Hw _ (dir_is_entry w _ Ed)).
  - unfold exists_b in Hexists. rewrite Ed, orb_false_r in Hexists.
    apply is_file_In in Hexists.
    pose proof (entries_normal w Hw _ (file_is_entry w _ Hexists)) as Hn.
    pose proof (entries_housed w Hw _ (file_is_entry w _ Hexists)) as Hh.
    assert (Hp : pathlib_parent (norm file_path) = pathlib_parent file_path).
    { unfold pathlib_parent. now rewrite Hn. }
    rewrite Hp in Hh. apply is_dir_In.
    now rewrite (entries_normal w Hw _ (dir_is_entry w _ Hh)).
Qed.

(** X12.  [FileSystem.getdir] of a path that exists, on a disk in good
    order, is a directory that exists: the path itself when it is a
    directory and the directory that holds it when it is a file.  So
    [write_parquet] finds the directory of an existing target in place
    and has no reason to call [mkdir]. *)
Theorem getdir_of_existing_path (w : world) (file_path : string)
  (Hdisk : well_formed w = true)
  (Hexists : exists_b w file_path = true) :
  is_dir w (getdir w file_path) = true.
Proof.
  apply getdir_is_dir; [now apply well_formed_good_order | exact Hexists].
Qed.

Lemma getdir_of_existing_path_witness :
  is_dir regions_disk
         (getdir regions_disk "data/region=US/part-0.parquet") = true.
Proof.
  exact (getdir_of_existing_path regions_disk "data/region=US/part-0.parquet"
           eq_refl eq_refl).
Defined.

(** ** Credentials *)

(** X13.  [FileSystem.__get_s3fs]: when a key, a secret or a region is
    missing, [None] or the empty string, the call raises [ValueError] and
    the object stays as it was; otherwise it returns a connection, an
    object that had none gets one made from its three credentials, and
    every later call returns that same connection and changes nothing. *)
Theorem get_s3fs_checks_then_caches (self : file_system.FileSystem) :
  let complete :=
    truthy (file_system._aws_key self) &&
    truthy (file_system._aws_secret self) &&
    truthy (file_system._aws_region self) in
  let r := fst (file_system.get_s3fs self) in
  let self' := snd (file_system.get_s3fs self) in
  (complete = false ->
   r = Err (ValueError
              "Missing AWS Configurations, Reinitialise with Configurations") /\
   self' = self) /\
  (complete = true ->
   exists fs,
     r = Ok fs /\
     file_system._fs self' = Some fs /\
     file_system.get_s3fs self' = (Ok fs, self') /\
     (file_system._fs self = None ->
      fs = {| file_system.key := text_of (file_system._aws_key self);
              file_system.secret := text_of (file_system._aws_secret self);
              file_system.region_name :=
                text_of (file_system._aws_region self) |})).
Proof.
  destruct self as [k s r c]. cbn zeta. unfold file_system.get_s3fs.
  cbn [file_system._aws_key file_system._aws_secret file_system._aws_region
       file_system._fs].
  destruct (truthy k) eqn:Ek, (truthy s) eqn:Es, (truthy r) eqn:Er;
    cbn [negb orb andb fst snd];
    (split; [intros H; try discriminate H; now split
            | intros H; try discriminate H]).
  destruct c as [fs |]; cbn [fst snd].
  - exists fs. cbn. rewrite Ek, Es, Er. cbn. repeat split. discriminate.
  - eexists. cbn. rewrite ?Ek, ?Es, ?Er. cbn. repeat split.
Qed.

(** X14.  The reader and its file system agree on the credentials:
    [_has_cloud], the value of [aws_key_id and aws_secret_access_key and
    aws_region], is true exactly when [__get_s3fs] of the file system the
    reader made returns a connection rather than raising. *)
Theorem cloud_flag_matches_file_system
  (aws_key_id aws_secret_access_key aws_region : option string) :
  let reader :=
    polars_parquet_reader.init aws_key_id aws_secret_access_key aws_region in
  truthy (polars_parquet_reader._has_cloud reader) = true <->
  exists fs,
    fst (file_system.get_s3fs (polars_parquet_reader._fs reader)) = Ok fs.
Proof.
  cbn zeta. unfold polars_parquet_reader.init, file_system.init,
    file_system.get_s3fs, py_and.
  cbn [polars_parquet_reader._has_cloud polars_parquet_reader._fs
       file_system._aws_key file_system._aws_secret file_system._aws_region
       file_system._fs].
  destruct (truthy aws_key_id) eqn:Ek; cbn [negb orb fst];
    rewrite ?Ek; [| split; [discriminate | intros [fs H]; discriminate]].
  destruct (truthy aws_secret_access_key) eqn:Es; cbn [negb orb fst];
    rewrite ?Es; [| split; [discriminate | intros [fs H]; discriminate]].
  destruct (truthy aws_region) eqn:Er; cbn [negb orb fst].
  - split; [intros _; now eexists | reflexivity].
  - split; [discriminate | intros [fs H]; discriminate].
Qed.

(** ** [__remove_partitions], run again *)

Lemma exists_b_remove_tree_mono (q p : string) (w : world) :
  exists_b (remove_tree q w) p = true -> exists_b w p = true.
Proof.
  destruct (under q (norm p)) eqn:Hu.
  - now rewrite exists_b_removed.
  - now rewrite exists_b_remove_tree.
Qed.

Lemma after_removals_mono (path : string) (pcols : list string)
  (parts : list row) (p : string) :
  forall w, exists_b (after_removals path pcols parts w) p = true ->
            exists_b w p = true.
Proof.
  induction parts as [| k parts IH]; intros w H; [exact H |].
  cbn [after_removals] in H. apply IH in H.
  destruct (exists_b w (partition_path path pcols k)); [| exact H].
  now apply exists_b_remove_tree_mono in H.
Qed.

Lemma after_removals_gone (path : string) (pcols : list string)
  (parts : list row) :
  forall w k, In k parts ->
    exists_b (after_removals path pcols parts w)
             (partition_path path pcols k) = false.
Proof.
  induction parts as [| k0 parts IH]; intros w k Hin; [contradiction |].
  cbn [after_removals].
  destruct (string_dec (partition_path path pcols k)
                       (partition_path path pcols k0)) as [E | Hne].
  - rewrite E.
    destruct (exists_b (after_removals path pcols parts _)
                       (partition_path path pcols k0)) eqn:Hafter;
      [| reflexivity].
    apply after_removals_mono in Hafter.
    destruct (exists_b w (partition_path path pcols k0)) eqn:Hw;
      [| congruence].
    rewrite exists_b_removed in Hafter; [discriminate | apply under_self].
  - destruct Hin as [-> | Hin]; [contradiction |]. now apply IH.
Qed.

Lemma removals_idle (path : string) (pcols : list string) (parts : list row)
  (w : world) :
  (forall k, In k parts ->
             exists_b w (partition_path path pcols k) = false) ->
  after_removals path pcols parts w = w /\
  removal_events path pcols parts w
  = map EvExists (partition_paths path pcols parts).
Proof.
  induction parts as [| k parts IH]; intros H; [now split |].
  cbn [after_removals removal_events partition_paths map].
  rewrite (H k (or_introl eq_refl)). cbn [app].
  destruct IH as [H1 H2]; [intros k' Hk'; apply H; now right |].
  split; [exact H1 |]. now rewrite H2.
Qed.

(** X15.  [__remove_partitions] finishes the job in one go: when it
    returns, none of the partition directories it was given exists, also
    when a directory is named twice or lies inside another; run again on
    the disk it left, it only probes each path with [exists] and removes
    nothing. *)
Theorem remove_partitions_once_is_enough (path : string)
  (partition_cols : list string) (partitions_affected : list row)
  (w : world) :
  let w1 :=
    snd (run (remove_partitions path partition_cols partitions_affected) w) in
  (forall partition,
      In partition partitions_affected ->
      exists_b w1 (partition_path path partition_cols partition) = false) /\
  run (remove_partitions path partition_cols partitions_affected) w1
  = (Ok tt,
     logs (map EvExists
               (partition_paths path partition_cols partitions_affected))
          w1).
Proof.
  cbn zeta. rewrite run_remove_partitions. cbn [snd].
  assert (Hgone : forall k, In k partitions_affected ->
            exists_b (logs (removal_events path partition_cols
                                           partitions_affected w)
                           (after_removals path partition_cols
                                           partitions_affected w))
                     (partition_path path partition_cols k) = false).
  { intros k Hk. rewrite exists_b_logs. now apply after_removals_gone. }
  split; [exact Hgone |].
  rewrite run_remove_partitions.
  destruct (removals_idle path partition_cols partitions_affected _ Hgone)
    as [H1 H2].
  now rewrite H1, H2.
Qed.

(** ** The sanitizer on a table: what it keeps *)

Lemma clean_not_cast (t : dtype) : clean t -> needs_cast t = None.
Proof.
  intros Hc. unfold needs_cast. rewrite (clean_sanitized t Hc).
  now rewrite dtype_eqb_refl.
Qed.

Lemma clean_column_not_cast (s : fields) (c : string) (t : dtype) :
  NoDup (keys s) -> In (c, t) s -> clean t -> ~ In c (keys (to_cast s)).
Proof.
  intros Hnd Hin Hc Hk. apply dict_mem_In in Hk. unfold dict_mem in Hk.
  now rewrite (dict_get_to_cast s c t Hnd Hin), (clean_not_cast t Hc) in Hk.
Qed.

Lemma dict_get_sanitized_schema (s : fields) (c : string) :
  dict_get c (sanitized_schema s) = option_map sanitized_type (dict_get c s).
Proof.
  unfold sanitized_schema. induction s as [| [n t] s IH]; [reflexivity |].
  cbn [map fst snd dict_get].
  destruct (String.eqb n c); [reflexivity | exact IH].
Qed.

(** X16.  What [__transform_data_removing_empty_structs] keeps, on a
    table whose columns have distinct names: the collected result has the
    same columns in the same order and the same number of rows; each
    column has its sanitized type, or the type it had when that type is
    empty; and a column whose type holds no empty struct and names no
    field twice keeps its type and every one of its cells. *)
Theorem transform_keeps_the_table (df : frame) (Hcols : unique_columns df) :
  exists out,
    sanitize df = Ok out /\
    keys (schema out) = keys (schema df) /\
    schema out = sanitized_schema (schema df) /\
    List.length (rows out) = List.length (rows df) /\
    forall c t,
      In (c, t) (schema df) ->
      has_empty_struct t = false -> names_distinct t = true ->
      type_of (schema out) c = t /\
      map (fun r => cell (schema out) r c) (rows out)
      = map (fun r => cell (schema df) r c) (rows df).
Proof.
  destruct (sanitize_ok df Hcols) as [rows' [Hs Hlen]].
  exists (Frame (sanitized_schema (schema df)) rows').
  split; [exact Hs |]. split; [apply sanitized_schema_keys |].
  split; [reflexivity |]. split; [exact Hlen |].
  intros c t Hin He Hn. pose proof (conj He Hn : clean t) as Hc. split.
  - unfold type_of. cbn [schema]. rewrite dict_get_sanitized_schema.
    rewrite (dict_get_In _ c t Hcols Hin). cbn [option_map].
    unfold sanitized_type. now rewrite (clean_sanitized t Hc).
  - pose proof (sanitize_project df _ [c] Hs) as Hp.
    assert (Hfree : forall c', In c' [c] ->
                               ~ In c' (keys (to_cast (schema df)))).
    { intros c' [<- | []]. exact (clean_column_not_cast _ c t Hcols Hin Hc). }
    specialize (Hp Hfree).
    apply (f_equal (map (fun l : row => hd VNull l))) in Hp.
    now rewrite !map_map in Hp.
Qed.

Lemma transform_keeps_the_table_witness :
  exists out,
    sanitize nested_table = Ok out /\
    keys (schema out) = ["id"; "info"; "meta"] /\
    schema out = sanitized_schema (schema nested_table) /\
    List.length (rows out) = 1%nat /\
    forall c t,
      In (c, t) (schema nested_table) ->
      has_empty_struct t = false -> names_distinct t = true ->
      type_of (schema out) c = t /\
      map (fun r => cell (schema out) r c) (rows out)
      = map (fun r => cell (schema nested_table) r c) (rows nested_table).
Proof.
  apply (transform_keeps_the_table nested_table).
  unfold unique_columns. cbn. repeat constructor; cbn; intuition discriminate.
Defined.

(** ** A target that is not there *)

Lemma probe_absent_not_true (path : string) (w : world) :
  exists_b w path = false -> fst (run (probe_existing path) w) <> Ok true.
Proof.
  intros Hnew. destruct (exists_b w (getdir w path)) eqn:Hdir.
  - rewrite (run_probe_absent path w Hnew Hdir). cbn [fst]. discriminate.
  - rewrite (run_probe_missing_dir path w Hnew Hdir). cbn zeta.
    destruct (exists_b w (os_path_dirname (getdir w path)));
      [cbn [fst]; discriminate |].
    destruct (String.eqb (os_path_dirname (getdir w path)) "" ||
              negb (is_dir w (pathlib_parent (os_path_dirname (getdir w path)))));
      cbn [fst]; discriminate.
Qed.

(** X17.  The mode needs something to work on.  When nothing is at the
    target, [upsert_key] and [overwrite_level] play no part in
    [write_parquet]: any two calls that differ in them only end the same
    way and leave the same disk and the same trace.  An upsert is then a
    plain write, and ['partition'] without partition columns raises
    nothing. *)
Theorem mode_needs_existing_data (df : frame) (path : string)
  (compression : string) (partition_cols : option (list string)) (w : world)
  (upsert_key upsert_key' : option (list string))
  (overwrite_level overwrite_level' : option level)
  (Hnew : exists_b w path = false) :
  run (write_parquet df path upsert_key compression partition_cols
                     overwrite_level) w
  = run (write_parquet df path upsert_key' compression partition_cols
                       overwrite_level') w.
Proof.
  unfold write_parquet. rewrite !run_bind.
  pose proof (probe_absent_not_true path w Hnew) as Hp.
  destruct (run (probe_existing path) w) as [[[|] | e] w1]; cbn [fst] in Hp.
  - congruence.
  - reflexivity.
  - reflexivity.
Qed.

Lemma mode_needs_existing_data_witness :
  run (write_parquet letters "t.parquet" (Some ["id"]) "gzip" None
                     (Some Partition)) empty_disk
  = run (write_parquet letters "t.parquet" None "gzip" None None) empty_disk.
Proof.
  exact (mode_needs_existing_data letters "t.parquet" "gzip" None empty_disk
           (Some ["id"]) None (Some Partition) None eq_refl).
Defined.

(** ** The logger of a class *)

Lemma dict_get_set {V : Type} (k k' : string) (v : V) (d : list (string * V)) :
  dict_get k (dict_set k' v d) =
  if String.eqb k' k then Some v else dict_get k d.
Proof.
  induction d as [| [n x] d IH]; cbn [dict_set dict_get].
  - destruct (String.eqb k' k); reflexivity.
  - destruct (String.eqb_spec n k') as [-> | Hn]; cbn [dict_get].
    + destruct (String.eqb k' k); reflexivity.
    + rewrite IH. destruct (String.eqb_spec n k) as [-> | Hk]; [| reflexivity].
      destruct (String.eqb_spec k' k) as [E | _]; [| reflexivity].
      now subst.
Qed.

Lemma lookup_update (name name' : string) (l : logging.Logger)
  (st : logging.state) :
  logging.lookup name (logging.update name' l st) =
  if String.eqb name' name then l else logging.lookup name st.
Proof.
  unfold logging.lookup, logging.update. cbn [logging.loggers].
  rewrite dict_get_set. now destruct (String.eqb name' name).
Qed.

Lemma lookup_getLogger (name name' : string) (st : logging.state) :
  logging.lookup name (logging.getLogger name' st) = logging.lookup name st.
Proof.
  unfold logging.getLogger.
  destruct (dict_mem name' (logging.loggers st)) eqn:E; [reflexivity |].
  rewrite lookup_update.
  destruct (String.eqb_spec name' name) as [-> | _]; [| reflexivity].
  unfold logging.lookup, dict_mem in *.
  now destruct (dict_get name (logging.loggers st)).
Qed.

Lemma handlers_setLevel (name name' : string) (lv : nat) (st : logging.state) :
  logging.handlers (logging.lookup name (logging.setLevel name' lv st)) =
  logging.handlers (logging.lookup name st).
Proof.
  unfold logging.setLevel. rewrite lookup_update.
  now destruct (String.eqb_spec name' name) as [-> | _].
Qed.

Lemma handlers_info (name name' msg : string) (st : logging.state) :
  logging.handlers (logging.lookup name (logging.info name' msg st)) =
  logging.handlers (logging.lookup name st).
Proof.
  unfold logging.info.
  destruct (logging.getEffectiveLevel name' st <=? logging.INFO)%nat;
    [| reflexivity].
  rewrite lookup_update.
  now destruct (String.eqb_spec name' name) as [-> | _].
Qed.

Lemma handlers_addHandler (name name' : string) (h : logging.Handler)
  (st : logging.state) :
  logging.handlers (logging.lookup name (logging.addHandler name' h st)) =
  if String.eqb name' name
  then logging.handlers (logging.lookup name st) ++ [h]
  else logging.handlers (logging.lookup name st).
Proof.
  unfold logging.addHandler. rewrite lookup_update.
  now destruct (String.eqb_spec name' name) as [-> | _].
Qed.

Section LoggerFacts.

Variable valid_format : string -> bool.

(** An access leaves the handlers of every logger as they are, or gives
    one handler to a logger that had none. *)
Lemma _logger_handlers (self : mixins.IncludeLoggerMixin) (st : logging.state)
  (name : string) :
  let st' := snd (mixins._logger valid_format self st) in
  logging.handlers (logging.lookup name st') =
    logging.handlers (logging.lookup name st) \/
  logging.handlers (logging.lookup name st) = [] /\
  List.length (logging.handlers (logging.lookup name st')) = 1%nat.
Proof.
  cbn zeta. unfold mixins._logger.
  destruct (mixins._logger_instance self); [now left |].
  set (cls := mixins.class_name self).
  destruct (logging.handlers (logging.lookup cls (logging.getLogger cls st)))
    as [| h hs] eqn:Eh; cbn [snd].
  - cbn [mixins.LOGGER_FORMAT mixins.LOGGER_LEVEL mixins.holding].
    rewrite lookup_getLogger in Eh.
    destruct (valid_format (mixins.LOGGER_FORMAT self)); cbn [snd];
      [| left; now rewrite lookup_getLogger].
    assert (Hadd :
      logging.handlers
        (logging.lookup name
           (logging.addHandler cls
              {| logging.formatter := mixins.LOGGER_FORMAT self |}
              (logging.getLogger cls st))) =
        logging.handlers (logging.lookup name st) \/
      logging.handlers (logging.lookup name st) = [] /\
      List.length
        (logging.handlers
           (logging.lookup name
              (logging.addHandler cls
                 {| logging.formatter := mixins.LOGGER_FORMAT self |}
                 (logging.getLogger cls st)))) = 1%nat).
    { rewrite handlers_addHandler, lookup_getLogger.
      destruct (String.eqb_spec cls name) as [<- | _]; [| now left].
      right. rewrite Eh. now split. }
    destruct (logging.name_to_level (upper (mixins.LOGGER_LEVEL self)));
      cbn [snd]; [| exact Hadd].
    now rewrite handlers_info, handlers_setLevel.
  - left. now rewrite lookup_getLogger.
Qed.

(** An access by an object that holds no logger yet, with a format
    [logging.Formatter] accepts, leaves the logger of its class with a
    handler. *)
Lemma _logger_gives_handler (self : mixins.IncludeLoggerMixin)
  (st : logging.state) :
  mixins._logger_instance self = None ->
  valid_format (mixins.LOGGER_FORMAT self) = true ->
  logging.handlers
    (logging.lookup (mixins.class_name self)
                    (snd (mixins._logger valid_format self st))) <> [].
Proof.
  intros Hnone Hfmt. unfold mixins._logger. rewrite Hnone.
  set (cls := mixins.class_name self).
  destruct (logging.handlers (logging.lookup cls (logging.getLogger cls st)))
    as [| h hs] eqn:Eh; cbn [snd].
  - cbn [mixins.LOGGER_FORMAT mixins.LOGGER_LEVEL mixins.holding].
    rewrite Hfmt.
    destruct (logging.name_to_level (upper (mixins.LOGGER_LEVEL self)));
      cbn [snd]; rewrite ?handlers_info, ?handlers_setLevel;
      rewrite handlers_addHandler, String.eqb_refl;
      now destruct (logging.handlers _).
  - now rewrite Eh.
Qed.

Lemma accesses_handlers (objects : list mixins.IncludeLoggerMixin)
  (name : string) :
  forall st,
    (List.length (logging.handlers (logging.lookup name st)) <= 1)%nat ->
    (List.length
       (logging.handlers
          (logging.lookup name (mixins.accesses valid_format objects st)))
     <= 1)%nat /\
    (logging.handlers (logging.lookup name st) <> [] ->
     logging.handlers
       (logging.lookup name (mixins.accesses valid_format objects st)) <> []).
Proof.
  induction objects as [| self rest IH]; intros st Hst; [now split |].
  cbn [mixins.accesses].
  destruct (_logger_handlers self st name) as [E | [E1 E2]]; cbn zeta in *.
  - destruct (IH (snd (mixins._logger valid_format self st))) as [H1 H2];
      [rewrite E; exact Hst |].
    split; [exact H1 |]. intros Hne. apply H2. now rewrite E.
  - destruct (IH (snd (mixins._logger valid_format self st))) as [H1 H2];
      [lia |].
    split; [exact H1 |]. intros Hne. contradiction.
Qed.

End LoggerFacts.

(** X18.  [IncludeLoggerMixin._logger] keeps the promise of its comment,
    "Prevent Multiple handlers": when no logger has more than one handler
    to begin with, none has more than one after any number of objects of
    any classes have read [_logger], one after the other; and the logger
    of the class of every object among them that held no logger yet and
    has a format [logging.Formatter] accepts has exactly one. *)
Theorem logger_has_one_handler (valid_format : string -> bool)
  (objects : list mixins.IncludeLoggerMixin) (st : logging.state)
  (Hstart : forall name,
      (List.length (logging.handlers (logging.lookup name st)) <= 1)%nat) :
  let st' := mixins.accesses valid_format objects st in
  (forall name,
      (List.length (logging.handlers (logging.lookup name st')) <= 1)%nat) /\
  (forall self,
      In self objects ->
      mixins._logger_instance self = None ->
      valid_format (mixins.LOGGER_FORMAT self) = true ->
      List.length
        (logging.handlers (logging.lookup (mixins.class_name self) st'))
      = 1%nat).
Proof.
  cbn zeta. split.
  - intros name. now apply accesses_handlers.
  - intros self Hin Hnone Hfmt.
    assert (Hne : logging.handlers
                    (logging.lookup (mixins.class_name self)
                       (mixins.accesses valid_format objects st)) <> []).
    { revert st Hstart.
      induction objects as [| o rest IH]; intros st Hstart; [contradiction |].
      cbn [mixins.accesses].
      assert (Hnext : forall name,
        (List.length
           (logging.handlers
              (logging.lookup name (snd (mixins._logger valid_format o st))))
         <= 1)%nat).
      { intros name.
        destruct (_logger_handlers valid_format o st name) as [E | [_ E]];
          cbn zeta in *; [rewrite E; apply Hstart | lia]. }
      destruct Hin as [-> | Hin]; [| now apply IH].
      apply accesses_handlers; [apply Hnext |].
      now apply _logger_gives_handler. }
    pose proof (proj1 (accesses_handlers valid_format objects
                         (mixins.class_name self) st (Hstart _))) as Hle.
    destruct (logging.handlers _) as [| h [| h' hs]];
      [congruence | reflexivity | cbn in Hle; lia].
Qed.

Lemma logger_has_one_handler_witness :
  let reader :=
    {| mixins.class_name := "PolarsParquetReader";
       mixins.LOGGER_LEVEL := "info";
       mixins.LOGGER_FORMAT := "%(message)s";
       mixins._logger_instance := None |} in
  let st' :=
    mixins.accesses (fun _ => true) [reader; reader; reader]
                    {| logging.loggers := []; logging.root_level := 30 |} in
  (forall name,
      (List.length (logging.handlers (logging.lookup name st')) <= 1)%nat) /\
  (forall self,
      In self [reader; reader; reader] ->
      mixins._logger_instance self = None ->
      (fun _ : string => true) (mixins.LOGGER_FORMAT self) = true ->
      List.length
        (logging.handlers (logging.lookup (mixins.class_name self) st'))
      = 1%nat).
Proof.
  cbn zeta.
  apply (logger_has_one_handler (fun _ => true)).
  intros name. cbn. lia.
Defined.

(** X19.  A level [logging] does not know is reported once only.  For an
    object that holds no logger yet, of a class whose logger has no
    handler yet, with a format that is accepted and a [LOGGER_LEVEL] that
    is no level name in upper case: the first read of [_logger] raises
    [ValueError], but by then the object holds the logger and the logger
    has its handler; the second read returns the logger and changes
    nothing, and the level of the logger was never set. *)
Theorem unknown_level_raises_once (valid_format : string -> bool)
  (self : mixins.IncludeLoggerMixin) (st : logging.state)
  (Hfresh : mixins._logger_instance self = None)
  (Hbare : logging.handlers (logging.lookup (mixins.class_name self) st) = [])
  (Hformat : valid_format (mixins.LOGGER_FORMAT self) = true)
  (Hascii : ascii_only (mixins.LOGGER_LEVEL self) = true)
  (Hlevel : logging.name_to_level (upper (mixins.LOGGER_LEVEL self)) = None) :
  let name := mixins.class_name self in
  let first := mixins._logger valid_format self st in
  let self' := snd (fst first) in
  let st' := snd first in
  fst (fst first)
    = Err (ValueError ("Unknown level: " ++
                       quoted (upper (mixins.LOGGER_LEVEL self)))) /\
  mixins._logger valid_format self' st' = (Ok name, self', st') /\
  logging.handlers (logging.lookup name st')
    = [{| logging.formatter := mixins.LOGGER_FORMAT self |}] /\
  logging.level (logging.lookup name st')
    = logging.level (logging.lookup name st).
Proof.
  assert (Hfirst :
    mixins._logger valid_format self st =
    (Err (ValueError ("Unknown level: " ++
                      quoted (upper (mixins.LOGGER_LEVEL self)))),
     mixins.holding self (mixins.class_name self),
     logging.addHandler (mixins.class_name self)
       {| logging.formatter := mixins.LOGGER_FORMAT self |}
       (logging.getLogger (mixins.class_name self) st))).
  { unfold mixins._logger. rewrite Hfresh.
    rewrite lookup_getLogger, Hbare.
    cbn [mixins.LOGGER_FORMAT mixins.LOGGER_LEVEL mixins.holding
         mixins.class_name].
    now rewrite Hformat, Hlevel. }
  cbn zeta. rewrite Hfirst. cbn [fst snd].
  split; [reflexivity |]. split; [reflexivity |].
  unfold logging.addHandler. rewrite lookup_update, String.eqb_refl.
  rewrite lookup_getLogger, Hbare. cbn. now split.
Qed.

Lemma unknown_level_raises_once_witness :
  let self :=
    {| mixins.class_name := "FileSystem";
       mixins.LOGGER_LEVEL := "verbose";
       mixins.LOGGER_FORMAT := "%(message)s";
       mixins._logger_instance := None |} in
  let st := {| logging.loggers := []; logging.root_level := 30 |} in
  let first := mixins._logger (fun _ => true) self st in
  fst (fst first) = Err (ValueError "Unknown level: 'VERBOSE'") /\
  mixins._logger (fun _ => true) (snd (fst first)) (snd first)
    = (Ok "FileSystem", snd (fst first), snd first) /\
  logging.handlers (logging.lookup "FileSystem" (snd first))
    = [{| logging.formatter := "%(message)s" |}] /\
  logging.level (logging.lookup "FileSystem" (snd first)) = 0%nat.
Proof.
  exact (unknown_level_raises_once (fun _ => true)
           {| mixins.class_name := "FileSystem";
              mixins.LOGGER_LEVEL := "verbose";
              mixins.LOGGER_FORMAT := "%(message)s";
              mixins._logger_instance := None |}
           {| logging.loggers := []; logging.root_level := 30 |}
           eq_refl eq_refl eq_refl eq_refl eq_refl).
Defined.

(** ** A file written over *)

Lemma path_suffix_file (w : world) (path : string) :
  is_file w path = true -> path_suffix w path = path.
Proof.
  intros Hf. unfold path_suffix.
  change (check_path_suffix path w) with (run (check_path_suffix path) w).
  rewrite run_check_path_suffix_cases.
  destruct (ends_with_slash path); [reflexivity |].
  unfold listdir. rewrite Hf. cbn [fst]. unfold suffixed.
  cbn [existsb]. now rewrite andb_false_r.
Qed.

Lemma filter_none {A : Type} (f : A -> bool) (l : list A) :
  (forall x, In x l -> f x = false) -> filter f l = [].
Proof.
  induction l as [| x l IH]; [reflexivity |].
  intros H. cbn [filter]. rewrite (H x (or_introl eq_refl)).
  apply IH. intros y Hy. apply H. now right.
Qed.

Lemma filter_dict_set_only {V : Type} (keep : string -> bool) (k : string)
  (v : V) (l : list (string * V)) :
  NoDup (keys l) -> In k (keys l) -> keep k = true ->
  (forall e, In e (keys l) -> keep e = true -> e = k) ->
  filter (fun e => keep (fst e)) (dict_set k v l) = [(k, v)].
Proof.
  intros Hnd Hin Hk Honly.
  induction l as [| [n x] l IH]; [contradiction |].
  cbn [keys map fst] in Hnd, Hin, Honly. inversion Hnd as [| ? ? Hn Hl]; subst.
  cbn [dict_set]. destruct (String.eqb_spec n k) as [-> | Hne].
  - cbn [filter fst]. rewrite Hk. f_equal. apply filter_none.
    intros [m y] Hm. cbn [fst].
    destruct (keep m) eqn:Em; [| reflexivity]. exfalso.
    assert (Hmk : In m (keys l)) by (apply (In_keys (m, y)); exact Hm).
    rewrite (Honly m (or_intror Hmk) Em) in Hmk. contradiction.
  - cbn [filter fst]. destruct (keep n) eqn:En.
    + exfalso. apply Hne. apply Honly; [now left | exact En].
    + apply IH.
      * exact Hl.
      * destruct Hin as [E | Hin]; [contradiction | exact Hin].
      * intros e He. apply Honly. now right.
Qed.

Lemma NoDup_app_l {A : Type} (a b : list A) : NoDup (a ++ b) -> NoDup a.
Proof.
  induction a as [| x a IH]; [constructor |].
  cbn [app]. intros H. inversion H as [| ? ? Hx Ha]; subst.
  constructor; [| auto]. intros Hin. apply Hx. apply in_or_app. now left.
Qed.



(** ** The names of partition directories *)

Lemma slashless_None (s : string) :
  slashless s = true <-> before_last_slash s = None.
Proof.
  unfold slashless. destruct (before_last_slash s); split; congruence.
Qed.

Lemma slashless_join (a b : string) :
  before_last_slash a = None -> before_last_slash b = None ->
  before_last_slash (a ++ b) = None.
Proof.
  intros Ha Hb. induction a as [| c a IH]; [exact Hb |].
  apply slashless_head in Ha. destruct Ha as [Hc Ha].
  cbn [String.append before_last_slash]. now rewrite (IH Ha), Hc.
Qed.

Lemma slashless_append (a b : string) :
  slashless (a ++ b) = slashless a && slashless b.
Proof.
  destruct (slashless (a ++ b)) eqn:E.
  - apply slashless_None, slashless_app in E. destruct E as [Ha Hb].
    now rewrite (proj2 (slashless_None a) Ha), (proj2 (slashless_None b) Hb).
  - destruct (slashless a) eqn:Ea, (slashless b) eqn:Eb; try reflexivity.
    apply slashless_None in Ea, Eb.
    pose proof (slashless_join a b Ea Eb) as H.
    apply slashless_None in H. congruence.
Qed.

(** Two names without a slash, each with a slash and more behind it. *)
Lemma split_at_slash (a a' r r' : string) :
  before_last_slash a = None -> before_last_slash a' = None ->
  (a ++ "/" ++ r = a' ++ "/" ++ r')%string -> a = a' /\ r = r'.
Proof.
  revert a'. induction a as [| c a IH]; intros a' Ha Ha' E.
  - destruct a' as [| c' a']; cbn in E.
    + inversion E. auto.
    + inversion E; subst c'. apply slashless_head in Ha'.
      destruct Ha' as [H _]. discriminate.
  - destruct a' as [| c' a']; cbn in E.
    + inversion E; subst c. apply slashless_head in Ha.
      destruct Ha as [H _]. discriminate.
    + inversion E; subst c'.
      apply slashless_head in Ha, Ha'.
      destruct (IH a' (proj2 Ha) (proj2 Ha')) as [-> ->]; auto.
Qed.

Lemma concat_slash_inj (l l' : list string) :
  List.length l = List.length l' ->
  forallb slashless l = true -> forallb slashless l' = true ->
  String.concat "/" l = String.concat "/" l' -> l = l'.
Proof.
  revert l'. induction l as [| x l IH]; intros l' Hlen Hl Hl' E.
  - destruct l'; [reflexivity | discriminate].
  - destruct l' as [| x' l']; [discriminate |].
    cbn [forallb] in Hl, Hl'.
    apply andb_true_iff in Hl, Hl'. destruct Hl as [Hx Hl], Hl' as [Hx' Hl'].
    apply slashless_None in Hx, Hx'.
    destruct l as [| y l], l' as [| y' l']; try discriminate.
    + cbn in E. now subst.
    + change (x ++ "/" ++ String.concat "/" (y :: l)
              = x' ++ "/" ++ String.concat "/" (y' :: l'))%string in E.
      destruct (split_at_slash _ _ _ _ Hx Hx' E) as [-> E'].
      f_equal. apply IH; auto.
Qed.

Lemma partition_path_names (path : string) (partition_cols : list string)
  (partition : row) :
  partition_path path partition_cols partition =
  ((path ++ "/") ++
   String.concat "/" (partition_names partition_cols partition))%string.
Proof. reflexivity. Qed.

Lemma nth_error_enumerate_from {A : Type} (l : list A) :
  forall s i x,
    nth_error l i = Some x ->
    nth_error (enumerate_from s l) i = Some ((s + i)%nat, x).
Proof.
  induction l as [| y l IH]; intros s i x H; [destruct i; discriminate |].
  destruct i as [| i]; cbn in *.
  - inversion H. now rewrite Nat.add_0_r.
  - rewrite (IH (S s) i x H). f_equal. f_equal. lia.
Qed.

Lemma str_of_Z_inj (z z' : Z) : str_of_Z z = str_of_Z z' -> z = z'.
Proof.
  unfold str_of_Z. intros E. apply Stdlib.Numbers.DecimalZ.to_int_inj.
  assert (H : forall n, NilZero.int_of_string
                          (NilZero.string_of_int (Z.to_int n))
                        = Some (Z.to_int n)).
  { intros n. apply NilZero.isi.
    - destruct n as [| p | p]; cbn; try discriminate.
      intros Hp. inversion Hp as [Hu].
      now apply Stdlib.Numbers.DecimalPos.Unsigned.to_uint_nonnil in Hu.
    - destruct n as [| p | p]; cbn; try discriminate.
      intros Hp. inversion Hp as [Hu].
      now apply Stdlib.Numbers.DecimalPos.Unsigned.to_uint_nonnil in Hu. }
  pose proof (H z) as Hz. rewrite E, H in Hz. now inversion Hz.
Qed.

Lemma py_str_inj (v v' : value) :
  same_kind v v' = true -> py_str v = py_str v' -> v = v'.
Proof.
  destruct v, v'; try discriminate; intros _ E; cbn in E.
  - f_equal. now apply str_of_Z_inj.
  - now subst.
  - destruct b, b0; try reflexivity; discriminate.
Qed.

Lemma nth_error_partition_names (partition_cols : list string)
  (partition : row) (index : nat) (col : string) :
  nth_error partition_cols index = Some col ->
  nth_error (partition_names partition_cols partition) index
  = Some (col ++ "=" ++ py_str (nth index partition VNull))%string.
Proof.
  intros H. unfold partition_names, enumerate.
  erewrite map_nth_error; [| apply nth_error_enumerate_from; exact H].
  reflexivity.
Qed.

(** X21.  The directory of a partition tells the partition.  When no
    column name and no value, written out by [str], has a slash in it,
    two rows of partition values that [__remove_partitions] sends to the
    same path agree, column by column, on the text of their values; and
    where the two values are both integers, both strings or both booleans,
    they are the same value.  Two partitions of such values that differ
    never share a directory. *)
Theorem partition_directory_names_the_partition (path : string)
  (partition_cols : list string) (partition partition' : row)
  (Hplain : forallb slashless (partition_names partition_cols partition)
            = true)
  (Hplain' : forallb slashless (partition_names partition_cols partition')
             = true)
  (Hsame : partition_path path partition_cols partition
           = partition_path path partition_cols partition') :
  forall index col,
    nth_error partition_cols index = Some col ->
    py_str (nth index partition VNull) = py_str (nth index partition' VNull) /\
    (same_kind (nth index partition VNull) (nth index partition' VNull)
       = true ->
     nth index partition VNull = nth index partition' VNull).
Proof.
  rewrite !partition_path_names in Hsame. apply append_inv_head in Hsame.
  apply concat_slash_inj in Hsame; [| | exact Hplain | exact Hplain'].
  - intros index col Hcol.
    pose proof (nth_error_partition_names partition_cols partition index col
                  Hcol) as H1.
    pose proof (nth_error_partition_names partition_cols partition' index col
                  Hcol) as H2.
    rewrite Hsame, H2 in H1. inversion H1 as [E].
    apply append_inv_head in E. apply (append_inv_head "=") in E.
    split; [now symmetry |]. intros Hk. apply py_str_inj; [exact Hk |].
    now symmetry.
  - unfold partition_names. now rewrite !length_map.
Qed.

Lemma partition_directory_names_the_partition_witness :
  py_str (nth 1 [VStr "US"; VInt 2024] VNull)
  = py_str (nth 1 [VStr "US"; VStr "2024"] VNull) /\
  (same_kind (nth 1 [VStr "US"; VInt 2024] VNull)
             (nth 1 [VStr "US"; VStr "2024"] VNull) = true ->
   nth 1 [VStr "US"; VInt 2024] VNull = nth 1 [VStr "US"; VStr "2024"] VNull).
Proof.
  exact (partition_directory_names_the_partition "data" ["region"; "year"]
           [VStr "US"; VInt 2024] [VStr "US"; VStr "2024"]
           eq_refl eq_refl eq_refl 1%nat "year" eq_refl).
Defined.
